(** * hudorBot: the moderation engine of [bot.go]

    A shallow embedding of [BotService] (initGroup, kickUser, deleteMessage,
    processNewUsers, processLeftUser, processBotMessage) over an explicit
    model of the two collaborators it talks to: the Redis store and the
    Telegram gateway.  Every call that crosses one of the two boundaries is
    appended to a trace together with the reply it got and the store it left
    behind, so that statements about "what the engine did, and in which
    order" are statements about that trace. *)

From stdpp Require Import gmap strings list fin_maps pretty.
From Stdlib Require Import ZArith Lia Ascii.

Local Open Scope Z_scope.

(** ** Platform types (tgbotapi) *)

Definition error := string.

Record User := mkUser {
  User_ID : Z;
  User_UserName : string;
  User_IsBot : bool }.

Record Chat := mkChat {
  Chat_ID : Z;
  Chat_Title : string;
  Chat_Description : string }.

Record Message := mkMessage {
  MessageID : Z;
  From : User;
  MsgChat : Chat }.

Record ChatMember := mkChatMember {
  Member_User : User;
  Member_Status : string }.

Record APIResponse := mkAPIResponse {
  Ok : bool;
  ErrorCode : Z }.

(** The outbound notices of the message catalogue, kept as category plus
    parameters (the texts themselves are constants of the catalogue). *)
Inductive MessageConfig :=
  | warnUser (chatID current limit : Z)
  | superGroupIntroduction (chatID : Z)
  | botAddedToWhitelist (chatID messageID : Z) (username : string)
  | botCannotOperateWithoutCreator (chatID : Z).

(** ** The store *)

(** Modelled from the spec: the key builders groupKey, whiteListKey, adminKey
    and membersKey are declared outside src/.  The data model keys settings
    and whitelist by chat, the admin index by creator and the warn counter by
    (chat, human); the four families are disjoint and injective in their
    IDs, which is what the constructors say. *)
Inductive key :=
  | groupKey (chatID : Z)
  | whiteListKey (chatID : Z)
  | adminKey (userID : Z)
  | membersKey (chatID userID : Z).

Record Store := mkStore {
  hashes : gmap Z (gmap string string);
  whiteLists : gmap Z (gset Z);
  adminGroups : gmap Z (gset Z);
  memberWarns : gmap (Z * Z) Z }.

(** The Redis commands the engine issues. *)
Inductive cmd :=
  | SAdd (k : key) (member : Z)
  | SRem (k : key) (member : Z)
  | SIsMember (k : key) (member : Z)
  | HMSet (k : key) (fields : gmap string string)
  | HSet (k : key) (field value : string)
  | HGet (k : key) (field : string)
  | HGetAll (k : key)
  | Incr (k : key)
  | Del (k : key).

Inductive reply :=
  | IntReply (n : Z)
  | BoolReply (b : bool)
  | StringReply (s : string)
  | MapReply (m : gmap string string)
  | StatusReply
  | NilReply
  | ErrReply (e : error).

Definition maxInt64 : Z := 9223372036854775807.
Definition minInt64 : Z := -9223372036854775808.

(** A set key that does not exist reads as the empty set. *)
Definition members (m : gmap Z (gset Z)) (i : Z) : gset Z := default ∅ (m !! i).

(** A hash key that does not exist reads as the empty hash. *)
Definition hashOf (st : Store) (chatID : Z) : gmap string string :=
  default ∅ (hashes st !! chatID).

(** An absent counter reads as 0. *)
Definition warnCounter (st : Store) (chatID userID : Z) : Z :=
  default 0 (memberWarns st !! (chatID, userID)).

Definition sadd (m : gmap Z (gset Z)) (i member : Z) : gmap Z (gset Z) :=
  <[i := {[member]} ∪ members m i]> m.

(** Redis drops a set key when its last member goes. *)
Definition srem (m : gmap Z (gset Z)) (i member : Z) : gmap Z (gset Z) :=
  let s := members m i ∖ {[member]} in
  if decide (s = ∅) then delete i m else <[i := s]> m.

Definition wrongType : reply := ErrReply "WRONGTYPE".
Definition overflow : reply := ErrReply "ERR increment or decrement would overflow".

Definition existed {A} (o : option A) : Z :=
  match o with Some _ => 1 | None => 0 end.

(** One command against the store.  Each key family holds one type of value
    (hash, set, set, counter); a command of another type is answered
    WRONGTYPE and changes nothing. *)
Definition apply_cmd (c : cmd) (st : Store) : reply * Store :=
  match c with
  | SAdd (whiteListKey i) x =>
      if decide (x ∈ members (whiteLists st) i) then (IntReply 0, st)
      else (IntReply 1, mkStore (hashes st) (sadd (whiteLists st) i x)
                                (adminGroups st) (memberWarns st))
  | SAdd (adminKey i) x =>
      if decide (x ∈ members (adminGroups st) i) then (IntReply 0, st)
      else (IntReply 1, mkStore (hashes st) (whiteLists st)
                                (sadd (adminGroups st) i x) (memberWarns st))
  | SRem (whiteListKey i) x =>
      if decide (x ∈ members (whiteLists st) i)
      then (IntReply 1, mkStore (hashes st) (srem (whiteLists st) i x)
                                (adminGroups st) (memberWarns st))
      else (IntReply 0, st)
  | SRem (adminKey i) x =>
      if decide (x ∈ members (adminGroups st) i)
      then (IntReply 1, mkStore (hashes st) (whiteLists st)
                                (srem (adminGroups st) i x) (memberWarns st))
      else (IntReply 0, st)
  | SIsMember (whiteListKey i) x =>
      (BoolReply (bool_decide (x ∈ members (whiteLists st) i)), st)
  | SIsMember (adminKey i) x =>
      (BoolReply (bool_decide (x ∈ members (adminGroups st) i)), st)
  | HMSet (groupKey i) fields =>
      (StatusReply, mkStore (<[i := fields ∪ hashOf st i]> (hashes st))
                            (whiteLists st) (adminGroups st) (memberWarns st))
  | HSet (groupKey i) f v =>
      (BoolReply (bool_decide (hashOf st i !! f = None)),
       mkStore (<[i := <[f := v]> (hashOf st i)]> (hashes st))
               (whiteLists st) (adminGroups st) (memberWarns st))
  | HGet (groupKey i) f =>
      (match hashOf st i !! f with Some v => StringReply v | None => NilReply end, st)
  | HGetAll (groupKey i) => (MapReply (hashOf st i), st)
  | Incr (membersKey i u) =>
      let v := warnCounter st i u + 1 in
      if decide (v ≤ maxInt64)
      then (IntReply v, mkStore (hashes st) (whiteLists st) (adminGroups st)
                                (<[(i, u) := v]> (memberWarns st)))
      else (overflow, st)
  | Del (groupKey i) =>
      (IntReply (existed (hashes st !! i)),
       mkStore (delete i (hashes st)) (whiteLists st) (adminGroups st) (memberWarns st))
  | Del (whiteListKey i) =>
      (IntReply (existed (whiteLists st !! i)),
       mkStore (hashes st) (delete i (whiteLists st)) (adminGroups st) (memberWarns st))
  | Del (adminKey i) =>
      (IntReply (existed (adminGroups st !! i)),
       mkStore (hashes st) (whiteLists st) (delete i (adminGroups st)) (memberWarns st))
  | Del (membersKey i u) =>
      (IntReply (existed (memberWarns st !! (i, u))),
       mkStore (hashes st) (whiteLists st) (adminGroups st)
               (delete (i, u) (memberWarns st)))
  | _ => (wrongType, st)
  end.

(** go-redis [Pipeline()] ... [Exec()], as initGroup and processLeftUser use
    it: the queued commands go out in one round trip and the server runs
    them in order, each on its own.  The batch is no transaction (that would
    be [TxPipeline()], MULTI/EXEC): a refused command neither undoes the
    commands before it nor stops the commands after it, and [Exec] reports
    the first error among the replies. *)
Fixpoint apply_batch (cs : list cmd) (st : Store) : option error * Store :=
  match cs with
  | [] => (None, st)
  | c :: cs' =>
      let '(r, st') := apply_cmd c st in
      let '(err, st'') := apply_batch cs' st' in
      (match r with ErrReply e => Some e | _ => err end, st'')
  end.

Definition emptyStore : Store := mkStore ∅ ∅ ∅ ∅.

(** ** strconv.ParseInt(s, 10, 64) *)

Definition digitOf (a : ascii) : option Z :=
  let n := Z.of_N (N_of_ascii a) in
  if decide (48 ≤ n ≤ 57) then Some (n - 48) else None.

Fixpoint parseDigits (s : string) (acc : Z) : option Z :=
  match s with
  | EmptyString => Some acc
  | String a s' =>
      match digitOf a with
      | Some d => parseDigits s' (10 * acc + d)
      | None => None
      end
  end.

(** An optional sign, then at least one decimal digit and nothing else; a
    value outside the signed 64-bit range is a range error. *)
Definition ParseInt (s : string) : option Z :=
  let '(neg, body) :=
    match s with
    | String "-" s' => (true, s')
    | String "+" s' => (false, s')
    | _ => (false, s)
    end in
  match body with
  | EmptyString => None
  | _ =>
      match parseDigits body 0 with
      | Some n =>
          let v := if neg : bool then - n else n in
          if decide (minInt64 ≤ v ≤ maxInt64) then Some v else None
      | None => None
      end
  end.


(** ** Group settings *)

Record groupSettings := mkSettings {
  IsActive : bool;
  ShowWarn : bool;
  Limit : Z;
  Creator : Z;
  Title : string;
  Description : string }.

Definition boolField (b : bool) : string := if b then "1" else "0".

(** Modelled from the spec: groupSettings.Map is declared outside src/.  The
    settings hash has one field per component of the settings; the only field
    name src/ shows is "creator" (read back by processLeftUser as a decimal
    integer). *)
Definition Map (g : groupSettings) : gmap string string :=
  list_to_map
    [ ("isActive", boolField (IsActive g));
      ("showWarn", boolField (ShowWarn g));
      ("limit", pretty (Limit g));
      ("creator", pretty (Creator g));
      ("title", Title g);
      ("description", Description g) ].

Definition parseBool (s : string) : option bool :=
  if decide (s = "1") then Some true
  else if decide (s = "0") then Some false else None.

(** Modelled from the spec: the decoding half of findGroupByID (declared
    outside src/), the inverse of [Map] on the hashes [Map] writes. *)
Definition decodeSettings (h : gmap string string) : option groupSettings :=
  a ← h !! "isActive" ≫= parseBool;
  w ← h !! "showWarn" ≫= parseBool;
  l ← h !! "limit" ≫= ParseInt;
  c ← h !! "creator" ≫= ParseInt;
  t ← h !! "title";
  d ← h !! "description";
  Some (mkSettings a w l c t d).

(** Modelled from the spec: findCreator is declared outside src/; it locates
    the owner-role administrator, the first member whose status is
    "creator". *)
Fixpoint findCreator (admins : list ChatMember) : option ChatMember :=
  match admins with
  | [] => None
  | m :: rest =>
      if decide (Member_Status m = "creator") then Some m else findCreator rest
  end.

(** ** The engine's boundary: events, environment, world *)

Record KickChatMemberConfig := mkKick {
  Kick_ChatID : Z;
  Kick_UserID : Z;
  UntilDate : Z }.

(** One entry per call that leaves the engine, with the reply it received. *)
Inductive event :=
  | Redis (c : cmd) (r : reply)
  | Exec (cs : list cmd) (err : option error)
  | GetChatAdministrators (chatID : Z) (admins : list ChatMember) (err : option error)
  | Send (msg : MessageConfig) (err : option error)
  | LeaveChat (chatID : Z) (err : option error)
  | KickChatMember (cfg : KickChatMemberConfig) (response : APIResponse) (err : option error)
  | DeleteMessage (chatID messageID : Z) (response : APIResponse) (err : option error).

(** What the collaborators answer.  Every oracle is indexed by the position
    of the call in the trace, so an environment can answer each call of a run
    differently; the gateway oracles also see the request.  [redisDown n]
    makes the store call at position [n] fail: a single command that fails
    leaves the store untouched; of a pipelined batch that fails (the
    connection breaks while the replies are awaited, or the server stops
    serving in the middle of the batch) the server has run the first
    [execReached n] commands. *)
Record Env := mkEnv {
  Self : User;
  tgAdmins : nat → Z → list ChatMember * option error;
  tgSend : nat → MessageConfig → option error;
  tgLeave : nat → Z → option error;
  tgKick : nat → KickChatMemberConfig → APIResponse * option error;
  tgDelete : nat → Z → Z → APIResponse * option error;
  redisDown : nat → option error;
  execReached : nat → nat }.

(** The store, and the calls made so far, each with the store it left. *)
Record World := mkWorld {
  store : Store;
  trace : list (event * Store) }.

Definition events (w : World) : list event := (trace w).*1.
Definition observations (w : World) : list Store := (trace w).*2.

(** [Exit] is log.Fatal: logrus writes the entry and calls os.Exit(1), which
    ends the process, and with it every other event task. *)
Inductive outcome (A : Type) :=
  | Val (a : A)
  | Exit.
Arguments Val {A} a.
Arguments Exit {A}.

Definition M (A : Type) : Type := Env → World → outcome A * World.

Definition ret {A} (a : A) : M A := λ _ w, (Val a, w).

Definition bind {A B} (m : M A) (k : A → M B) : M B :=
  λ env w,
    match m env w with
    | (Val a, w') => k a env w'
    | (Exit, w') => (Exit, w')
    end.

Definition fatal {A} : M A := λ _ w, (Exit, w).

#[global] Instance M_ret : MRet M := @ret.
#[global] Instance M_bind : MBind M := λ A B k m, bind m k.

Definition record (e : event) (st : Store) (w : World) : World :=
  mkWorld st (trace w ++ [(e, st)]).

Definition position (w : World) : nat := length (trace w).

Definition botSelf : M User := λ env w, (Val (Self env), w).

(** *** Store calls *)

Definition redis (c : cmd) : M reply :=
  λ env w,
    match redisDown env (position w) with
    | Some e => (Val (ErrReply e), record (Redis c (ErrReply e)) (store w) w)
    | None =>
        let '(r, st) := apply_cmd c (store w) in
        (Val r, record (Redis c r) st w)
    end.

Definition pipeExec (cs : list cmd) : M (option error) :=
  λ env w,
    match redisDown env (position w) with
    | Some e =>
        let st := (apply_batch (take (execReached env (position w)) cs) (store w)).2 in
        (Val (Some e), record (Exec cs (Some e)) st w)
    | None =>
        let '(err, st) := apply_batch cs (store w) in
        (Val err, record (Exec cs err) st w)
    end.

(** go-redis [Result()] / [Err()]: a nil reply is the error redis.Nil. *)
Definition replyErr (r : reply) : option error :=
  match r with
  | ErrReply e => Some e
  | NilReply => Some "redis: nil"
  | _ => None
  end.

Definition intResult (r : reply) : Z * option error :=
  (match r with IntReply n => n | _ => 0 end, replyErr r).

Definition boolResult (r : reply) : bool * option error :=
  (match r with BoolReply b => b | _ => false end, replyErr r).

Definition stringResult (r : reply) : string * option error :=
  (match r with StringReply s => s | _ => "" end, replyErr r).

(** *** Gateway calls *)

Definition getChatAdministrators (chatID : Z) : M (list ChatMember * option error) :=
  λ env w,
    let '(admins, err) := tgAdmins env (position w) chatID in
    (Val (admins, err), record (GetChatAdministrators chatID admins err) (store w) w).

Definition send (msg : MessageConfig) : M (option error) :=
  λ env w,
    let err := tgSend env (position w) msg in
    (Val err, record (Send msg err) (store w) w).

Definition leaveChat (chatID : Z) : M (option error) :=
  λ env w,
    let err := tgLeave env (position w) chatID in
    (Val err, record (LeaveChat chatID err) (store w) w).

Definition kickChatMember (cfg : KickChatMemberConfig) : M (APIResponse * option error) :=
  λ env w,
    let '(response, err) := tgKick env (position w) cfg in
    (Val (response, err), record (KickChatMember cfg response err) (store w) w).

Definition tgDeleteMessage (chatID messageID : Z) : M (APIResponse * option error) :=
  λ env w,
    let '(response, err) := tgDelete env (position w) chatID messageID in
    (Val (response, err), record (DeleteMessage chatID messageID response err) (store w) w).

(** ** Group state accessors *)

(** Modelled from the spec: findGroupByID is declared outside src/.  It reads
    the settings hash of the chat; a chat without one is "uninitialized" and
    yields no settings and no error. *)
Definition findGroupByID (chatID : Z) : M (option groupSettings * option error) :=
  r ← redis (HGetAll (groupKey chatID));
  match r with
  | MapReply h =>
      if decide (h = ∅) then ret (None, None)
      else match decodeSettings h with
           | Some g => ret (Some g, None)
           | None => ret (None, Some "malformed settings")
           end
  | _ => ret (None, Some (default "unexpected reply" (replyErr r)))
  end.

(** Modelled from the spec: isGroupActive is declared outside src/.  It reads
    the isActive flag of the chat; an absent flag is the normal skip
    condition "inactive". *)
Definition isGroupActive (chatID : Z) : M (bool * option error) :=
  r ← redis (HGet (groupKey chatID) "isActive");
  match r with
  | StringReply v => ret (bool_decide (v = "1"), None)
  | NilReply => ret (false, None)
  | _ => ret (false, Some (default "unexpected reply" (replyErr r)))
  end.

(** Modelled from the spec: changeGroupActiveStatus is declared outside src/.
    It persists the isActive flag of the chat. *)
Definition changeGroupActiveStatus (chatID : Z) (status : bool) : M (option error) :=
  r ← redis (HSet (groupKey chatID) "isActive" (boolField status));
  ret (replyErr r).

(** Modelled from the spec: incrementMemberWarns is declared outside src/.
    It is the store's single-operation increment of the counter of (chat,
    human) and returns the resulting value. *)
Definition incrementMemberWarns (chatID userID : Z) : M (Z * option error) :=
  r ← redis (Incr (membersKey chatID userID));
  ret (intResult r).

(** The isActive flag as the store holds it. *)
Definition activeIn (st : Store) (chatID : Z) : bool :=
  bool_decide (hashOf st chatID !! "isActive" = Some "1").

(** ** BotService *)

Definition defaultSettings (creator : ChatMember) (message : Message) : groupSettings :=
  {| IsActive := false;
     ShowWarn := true;
     Limit := 3;
     Creator := User_ID (Member_User creator);
     Title := Chat_Title (MsgChat message);
     Description := Chat_Description (MsgChat message) |}.

(** initGroup: default settings for the group, and the group added to its
    creator's group list.  [None] is the nil result. *)
Definition initGroup (message : Message) : M (option groupSettings) :=
  let chatID := Chat_ID (MsgChat message) in
  '(admins, err) ← getChatAdministrators chatID;
  match err with
  | Some _ => mret None
  | None =>
      _ ← send (superGroupIntroduction chatID);
      match findCreator admins with
      | None =>
          _ ← send (botCannotOperateWithoutCreator chatID);
          _ ← leaveChat chatID;
          mret None
      | Some creator =>
          let gpKey := groupKey chatID in
          let adminKey := adminKey (User_ID (Member_User creator)) in
          let settings := defaultSettings creator message in
          err ← pipeExec [SAdd adminKey chatID; HMSet gpKey (Map settings)];
          match err with
          | Some _ => fatal
          | None => mret (Some settings)
          end
      end
  end.

Definition kickCfg (chatID userID : Z) : KickChatMemberConfig :=
  {| Kick_ChatID := chatID; Kick_UserID := userID; UntilDate := 400 |}.

(** The pure half of kickUser and deleteMessage: what the wrapper returns for
    a gateway answer. *)
Definition classify (response : APIResponse) (err : option error) : bool * option error :=
  if decide (ErrorCode response = 400) then (false, None)
  else (Ok response, err).

Definition kickUser (chatID userID : Z) : M (bool * option error) :=
  '(response, err) ← kickChatMember (kickCfg chatID userID);
  mret (classify response err).

Definition deleteMessage (chatID messageID : Z) : M (bool * option error) :=
  '(response, err) ← tgDeleteMessage chatID messageID;
  mret (classify response err).

(** A [for _, user := range users] whose body only ever continues. *)
Fixpoint forUsers (body : User → M unit) (users : list User) : M unit :=
  match users with
  | [] => mret tt
  | user :: rest => _ ← body user; forUsers body rest
  end.

(** The first loop of processNewUsers.  The outer [None] is the function's
    [return]; otherwise the settings the second loop works with. *)
Fixpoint initLoop (message : Message) (users : list User)
    (gs : option groupSettings) : M (option (option groupSettings)) :=
  match users with
  | [] => mret (Some gs)
  | user :: rest =>
      self ← botSelf;
      if decide (User_ID user = User_ID self) then
        settings ← initGroup message;
        match settings with
        | None => mret None
        | Some _ => initLoop message rest settings
        end
      else initLoop message rest gs
  end.

(** The deactivation both removal paths share: persist isActive = false,
    fatal when the store refuses. *)
Definition deactivate (chatID : Z) : M unit :=
  err ← changeGroupActiveStatus chatID false;
  match err with
  | Some _ => fatal
  | None => mret tt
  end.

(** The body of the second loop of processNewUsers. *)
Definition moderateNewUser (message : Message) (gs : groupSettings)
    (user : User) : M unit :=
  let chatID := Chat_ID (MsgChat message) in
  let fromID := User_ID (From message) in
  let wlKey := whiteListKey chatID in
  self ← botSelf;
  if decide (User_ID user = User_ID self) then mret tt
  else if decide (fromID = Creator gs) then
    r ← redis (SAdd wlKey (User_ID user));
    let '(added, err) := intResult r in
    match err with
    | Some _ => fatal
    | None =>
        if decide (added > 0) then
          _ ← send (botAddedToWhitelist chatID (MessageID message) (User_UserName user));
          mret tt
        else mret tt
    end
  else if negb (IsActive gs) then mret tt
  else
    r ← redis (SIsMember wlKey (User_ID user));
    let '(isApproved, err) := boolResult r in
    match err with
    | Some _ => fatal
    | None =>
        if isApproved then mret tt
        else
          '(ok, err) ← kickUser chatID (User_ID user);
          match err with
          | Some _ => mret tt
          | None =>
              if negb ok then deactivate chatID
              else
                '(usrWarns, err) ← incrementMemberWarns chatID fromID;
                match err with
                | Some _ => fatal
                | None =>
                    if decide (usrWarns >= Limit gs) then
                      '(ok, err) ← kickUser chatID fromID;
                      match err with
                      | Some _ => mret tt
                      | None =>
                          if negb ok then deactivate chatID
                          else
                            r ← redis (Del (membersKey chatID fromID));
                            match replyErr r with
                            | Some _ => fatal
                            | None => mret tt
                            end
                      end
                    else if ShowWarn gs then
                      _ ← send (warnUser chatID usrWarns (Limit gs));
                      mret tt
                    else mret tt
                end
          end
    end.

(** The head of processNewUsers: the settings read, fatal on a store error,
    then the first loop. *)
Definition loadSettings (message : Message) (users : list User)
    : M (option (option groupSettings)) :=
  let chatID := Chat_ID (MsgChat message) in
  '(gs, err) ← findGroupByID chatID;
  match err with
  | Some _ => fatal
  | None => initLoop message users gs
  end.

Definition processNewUsers (message : Message) (users : list User) : M unit :=
  r ← loadSettings message users;
  match r with
  | None => mret tt
  | Some None => mret tt
  | Some (Some gs) => forUsers (moderateNewUser message gs) users
  end.

(** processLeftUser.  The creator field is parsed as a 64-bit integer; the
    conversion int(admin) that follows is the identity on a 64-bit platform. *)
Definition processLeftUser (message : Message) (leftChatMember : User) : M unit :=
  let chatID := Chat_ID (MsgChat message) in
  self ← botSelf;
  _ ← (if decide (User_ID self = User_ID leftChatMember) then
         let gpKey := groupKey chatID in
         let wlKey := whiteListKey chatID in
         r ← redis (HGet gpKey "creator");
         let '(creatorStr, err) := stringResult r in
         match err with
         | Some _ => fatal
         | None =>
             let cleanup :=
               match ParseInt creatorStr with
               | Some admin => [SRem (adminKey admin) chatID]
               | None => []
               end in
             err ← pipeExec ([Del gpKey; Del wlKey] ++ cleanup);
             match err with
             | Some _ => fatal
             | None => mret tt
             end
         end
       else mret tt);
  if User_IsBot leftChatMember then
    r ← redis (SRem (whiteListKey chatID) (User_ID leftChatMember));
    match replyErr r with
    | Some _ => fatal
    | None => mret tt
    end
  else mret tt.

Definition processBotMessage (message : Message) : M unit :=
  let chatID := Chat_ID (MsgChat message) in
  let fromID := User_ID (From message) in
  '(isActive, err) ← isGroupActive chatID;
  match err with
  | Some _ => fatal
  | None =>
      if negb isActive then mret tt
      else
        r ← redis (SIsMember (whiteListKey chatID) fromID);
        let '(isApproved, err) := boolResult r in
        match err with
        | Some _ => fatal
        | None =>
            if negb isApproved then
              '(ok, err) ← kickUser chatID fromID;
              stop ← match err with
                     | Some _ => mret false
                     | None =>
                         if negb ok then _ ← deactivate chatID; mret true
                         else mret false
                     end;
              if stop : bool then mret tt
              else
                _ ← deleteMessage chatID (MessageID message);
                mret tt
            else mret tt
        end
  end.

Definition run {A} (m : M A) (env : Env) (st : Store) : outcome A * World :=
  m env (mkWorld st []).

(** ** Reading the trace *)

Definition entry : Type := event * Store.

(** [allSuffixes R l]: every entry of [l] stands in [R] to what follows it. *)
Fixpoint allSuffixes (R : entry → list entry → Prop) (l : list entry) : Prop :=
  match l with
  | [] => True
  | a :: rest => R a rest ∧ allSuffixes R rest
  end.

(** The persisted deactivation of a chat: the write of isActive = false,
    after which (unless the store refused it) the flag reads false. *)
Definition isDeactivation (chatID : Z) (x : entry) : Prop :=
  ∃ r, x.1 = Redis (HSet (groupKey chatID) "isActive" "0") r
       ∧ (replyErr r = None → activeIn x.2 chatID = false).

(** The reset of a warn counter: the deletion of its entry, after which
    (unless the store refused it) the counter is absent. *)
Definition isReset (chatID userID : Z) (x : entry) : Prop :=
  ∃ r, x.1 = Redis (Del (membersKey chatID userID)) r
       ∧ (replyErr r = None → memberWarns x.2 !! (chatID, userID) = None).

(** The first call of the processing of a joined account: the whitelist add
    of the creator path or the whitelist check of the moderation path. *)
Definition opensAccount (x : entry) : Prop :=
  ∃ k m r, x.1 = Redis (SIsMember k m) r ∨ x.1 = Redis (SAdd k m) r.

Definition writesFlag (x : entry) : Prop :=
  ∃ k f v r, x.1 = Redis (HSet k f v) r.

(** A removal answered by a denial, as the wrappers report it. *)
Definition denied (response : APIResponse) (err : option error) : Prop :=
  classify response err = (false, None).

Definition succeeded (response : APIResponse) (err : option error) : Prop :=
  classify response err = (true, None).

(** What follows a removal attempt in the new-member flow: a denial is
    answered at once by the deactivation, which is the last call for that
    account; any other answer is not followed by a flag write. *)
Definition removalProtocol (chatID : Z) (a : entry) (rest : list entry) : Prop :=
  match a.1 with
  | KickChatMember cfg response err =>
      (denied response err →
         ∃ d rest', rest = d :: rest' ∧ isDeactivation chatID d
                    ∧ ∀ x, head rest' = Some x → opensAccount x)
      ∧ (¬ denied response err → ∀ x, head rest = Some x → ¬ writesFlag x)
  | _ => True
  end.

(** An increment is the one of the counter of (chat, originating actor) and
    returns the value the store then holds; when that value reached the
    limit, what follows is the removal of the originating actor, and after it
    the reset exactly when the removal succeeded. *)
Definition limitProtocol (chatID fromID limit : Z) (a : entry) (rest : list entry) : Prop :=
  match a.1 with
  | Redis (Incr k) (IntReply v) =>
      k = membersKey chatID fromID
      ∧ warnCounter a.2 chatID fromID = v
      ∧ (limit ≤ v →
         ∃ response err s rest',
           rest = (KickChatMember (kickCfg chatID fromID) response err, s) :: rest'
           ∧ (succeeded response err
              ↔ ∃ x, head rest' = Some x ∧ isReset chatID fromID x))
  | _ => True
  end.

(** A flag write only ever comes right after a denied removal. *)
Definition flagProtocol (a : entry) (rest : list entry) : Prop :=
  ∀ x, head rest = Some x → writesFlag x →
       ∃ cfg response err, a.1 = KickChatMember cfg response err ∧ denied response err.

Definition newUserProtocol (chatID fromID limit : Z) (a : entry) (rest : list entry) : Prop :=
  removalProtocol chatID a rest
  ∧ limitProtocol chatID fromID limit a rest
  ∧ flagProtocol a rest.

(** What may follow the processing of an account: nothing, or the first call
    of the next account. *)
Definition continues (next : list entry) : Prop :=
  ∀ x, head next = Some x → opensAccount x.

(** Calls that are neither a removal, nor an increment, nor a flag write. *)
Definition quiet (x : entry) : Prop :=
  match x.1 with
  | KickChatMember _ _ _ => False
  | Redis (Incr _) _ => False
  | Redis (HSet _ _ _) _ => False
  | Redis (Del _) _ => False
  | _ => True
  end.

(** [performs m env w P Q]: from world [w] the computation [m] appends a
    segment of calls to the trace, every entry of which satisfies [P], and
    ends with an outcome and a store that satisfy [Q]. *)
Definition performs {A} (m : M A) (env : Env) (w : World)
    (P : entry → Prop) (Q : outcome A → Store → Prop) : Prop :=
  ∃ o w1 seg,
    m env w = (o, w1) ∧ trace w1 = trace w ++ seg ∧ Forall P seg ∧ Q o (store w1).

(** The calls of the head of the new-member flow: the settings read and
    what initGroup does. *)
Definition settingsCall (x : entry) : Prop :=
  match x.1 with
  | Redis (HGetAll _) _ => True
  | GetChatAdministrators _ _ _ => True
  | Send (superGroupIntroduction _) _ => True
  | Send (botCannotOperateWithoutCreator _) _ => True
  | LeaveChat _ _ => True
  | Exec _ _ => True
  | _ => False
  end.

(** A call of the creator path: the whitelist add, or its confirmation. *)
Definition whitelisting (chatID : Z) (x : entry) : Prop :=
  match x.1 with
  | Redis (SAdd k _) _ => k = whiteListKey chatID
  | Send (botAddedToWhitelist c _ _) _ => c = chatID
  | _ => False
  end.

(** No chat that is inactive in [st] is active in [s]. *)
Definition staysInactive (st s : Store) : Prop :=
  ∀ c, activeIn s c = true → activeIn st c = true.


(** What the head of the new-member flow leaves alone. *)
Definition keeps (st s : Store) : Prop :=
  whiteLists s = whiteLists st ∧ memberWarns s = memberWarns st ∧ staysInactive st s.

(** A store call that came back with an error. *)
Definition storeFailed (e : event) : bool :=
  match e with
  | Redis _ (ErrReply _) => true
  | Exec _ (Some _) => true
  | _ => false
  end.

Definition clean (x : entry) : Prop := storeFailed x.1 = false.

(** A segment in which a failed store call is fatal: none when the
    computation returns, none but possibly the last when it exits. *)
Definition failStop {A} (o : outcome A) (seg : list entry) : Prop :=
  match o with
  | Val _ => Forall clean seg
  | Exit => ∃ pre x, seg = pre ++ [x] ∧ Forall clean pre
  end.

Definition fatalOnStoreError {A} (m : M A) (env : Env) (w : World) : Prop :=
  ∃ o w1 seg, m env w = (o, w1) ∧ trace w1 = trace w ++ seg ∧ failStop o seg.

(** The counters other than the one of (chat, actor) are as in [st], and the
    one of (chat, actor) is not negative if it was not in [st]. *)
Definition countersFrom (chatID fromID : Z) (st s : Store) : Prop :=
  (∀ c u, (c, u) ≠ (chatID, fromID) → warnCounter s c u = warnCounter st c u)
  ∧ (0 ≤ warnCounter st chatID fromID → 0 ≤ warnCounter s chatID fromID).

(** ** The scenarios of the specification *)

Module Scenario.

Definition hudor : User := mkUser 1 "hudor" true.
Definition creator : User := mkUser 100 "owner" false.
Definition human : User := mkUser 200 "bob" false.
Definition bot999 : User := mkUser 999 "spam999" true.
Definition bot998 : User := mkUser 998 "spam998" true.
Definition group : Chat := mkChat 7 "group" "a supergroup".

Definition okResponse : APIResponse := mkAPIResponse true 0.
Definition deniedResponse : APIResponse := mkAPIResponse false 400.
Definition noResponse : APIResponse := mkAPIResponse false 0.

(** A message of [from] in the group. *)
Definition messageOf (from : User) : Message := mkMessage 55 from group.

(** An environment in which the store is up, notices go through, the
    administrators are the creator and one more, and removals are answered
    by [kick]. *)
Definition gateway (kick : KickChatMemberConfig → APIResponse * option error) : Env :=
  {| Self := hudor;
     tgAdmins := λ _ _, ([mkChatMember human "administrator";
                          mkChatMember creator "creator"], None);
     tgSend := λ _ _, None;
     tgLeave := λ _ _, None;
     tgKick := λ _, kick;
     tgDelete := λ _ _ _, (okResponse, None);
     redisDown := λ _, None;
     execReached := λ _, 0%nat |}.

Definition allowing : Env := gateway (λ _, (okResponse, None)).
Definition denying : Env := gateway (λ _, (deniedResponse, Some "Bad Request")).
Definition failing : Env := gateway (λ _, (noResponse, Some "timeout")).

(** Removals of joined accounts succeed, the removal of the human fails
    with a transport error. *)
Definition sparing : Env :=
  gateway (λ cfg, if decide (Kick_UserID cfg = 200)
                  then (noResponse, Some "timeout") else (okResponse, None)).

(** As [allowing], with the store down at position [n]. *)
Definition storeDownAt (n : nat) : Env :=
  {| Self := hudor;
     tgAdmins := tgAdmins allowing;
     tgSend := tgSend allowing;
     tgLeave := tgLeave allowing;
     tgKick := tgKick allowing;
     tgDelete := tgDelete allowing;
     redisDown := λ i, if decide (i = n) then Some "connection refused" else None;
     execReached := λ _, 0%nat |}.

Definition settings (active : bool) : groupSettings :=
  mkSettings active true 3 100 "group" "a supergroup".

(** The group provisioned with [settings active], the human at [warns]
    warnings, the whitelist [wl]. *)
Definition provisioned (active : bool) (warns : Z) (wl : gset Z) : Store :=
  {| hashes := {[ 7 := Map (settings active) ]};
     whiteLists := if decide (wl = ∅) then ∅ else {[ 7 := wl ]};
     adminGroups := {[ 100 := {[ 7 ]} ]};
     memberWarns := if decide (warns = 0) then ∅ else {[ (7, 200) := warns ]} |}.

End Scenario.

(** ** The dispatcher *)

(** An inbound message as [Start] reads it: the message, the answers of the
    two library predicates Chat.IsSuperGroup() and Message.IsCommand() on
    it, and the two optional membership fields (nil is [None]). *)
Record Incoming := mkIncoming {
  Msg : Message;
  IsSuperGroup : bool;
  NewChatMembers : option (list User);
  LeftChatMember : option User;
  IsCommand : bool }.

(** What [Start] launches with [go]. *)
Inductive task :=
  | NewUsersTask (message : Message) (users : list User)
  | LeftUserTask (message : Message) (leftChatMember : User)
  | BotMessageTask (message : Message)
  | CommandTask (message : Message).

(** The body of the loop of [Start]: the task launched for an update, if
    any.  An update without a message is [None]. *)
Definition dispatch (update : option Incoming) : option task :=
  match update with
  | None => None
  | Some m =>
      let command := if IsCommand m then Some (CommandTask (Msg m)) else None in
      if IsSuperGroup m then
        match NewChatMembers m with
        | Some newChatMembers => Some (NewUsersTask (Msg m) newChatMembers)
        | None =>
            match LeftChatMember m with
            | Some leftChatMember => Some (LeftUserTask (Msg m) leftChatMember)
            | None =>
                if User_IsBot (From (Msg m)) then Some (BotMessageTask (Msg m))
                else command
            end
        end
      else command
  end.

(** ** More environments *)

Module Cases.

(** As [Scenario.allowing], with the administrators answered by [admins]. *)
Definition administered (admins : list ChatMember * option error) : Env :=
  {| Self := Scenario.hudor;
     tgAdmins := λ _ _, admins;
     tgSend := tgSend Scenario.allowing;
     tgLeave := tgLeave Scenario.allowing;
     tgKick := tgKick Scenario.allowing;
     tgDelete := tgDelete Scenario.allowing;
     redisDown := λ _, None;
     execReached := λ _, 0%nat |}.

Definition unreachable : Env := administered ([], Some "Forbidden").

Definition ownerless : Env :=
  administered ([mkChatMember Scenario.human "administrator"], None).

(** As [Scenario.allowing], with the connection to the store breaking at
    position [n]; a batch sent there has had its first [k] commands run. *)
Definition cutAt (n k : nat) : Env :=
  {| Self := Scenario.hudor;
     tgAdmins := tgAdmins Scenario.allowing;
     tgSend := tgSend Scenario.allowing;
     tgLeave := tgLeave Scenario.allowing;
     tgKick := tgKick Scenario.allowing;
     tgDelete := tgDelete Scenario.allowing;
     redisDown := λ i, if decide (i = n) then Some "connection reset" else None;
     execReached := λ _, k |}.

End Cases.

(** ** Reading the trace: further notions *)

(** A call to the store, as opposed to a call to the gateway. *)
Definition storeCall (e : event) : bool :=
  match e with
  | Redis _ _ | Exec _ _ => true
  | _ => false
  end.

(** A computation that, when it ends the process, does so right after a
    store call. *)
Definition exitsAtStore {A} (m : M A) (env : Env) (w : World) : Prop :=
  ∃ o w1 seg, m env w = (o, w1) ∧ trace w1 = trace w ++ seg
    ∧ (o = Exit → ∃ x, last seg = Some x ∧ storeCall x.1 = true).

(** What a flow for chat [chatID] leaves alone: the settings, the whitelist
    and the warn counters of every other chat, and the membership of every
    other chat in every creator's admin-group set. *)
Definition elsewhere (chatID : Z) (st s : Store) : Prop :=
  ∀ c, c ≠ chatID →
    hashes s !! c = hashes st !! c
    ∧ whiteLists s !! c = whiteLists st !! c
    ∧ (∀ u, memberWarns s !! (c, u) = memberWarns st !! (c, u))
    ∧ (∀ a, c ∈ members (adminGroups s) a ↔ c ∈ members (adminGroups st) a).

(** The chat a notice is sent to. *)
Definition noticeChat (msg : MessageConfig) : Z :=
  match msg with
  | warnUser chatID _ _ => chatID
  | superGroupIntroduction chatID => chatID
  | botAddedToWhitelist chatID _ _ => chatID
  | botCannotOperateWithoutCreator chatID => chatID
  end.

(** The chat a gateway call is made for; a store call has none. *)
Definition gatewayChat (e : event) : option Z :=
  match e with
  | Redis _ _ | Exec _ _ => None
  | GetChatAdministrators chatID _ _ => Some chatID
  | Send msg _ => Some (noticeChat msg)
  | LeaveChat chatID _ => Some chatID
  | KickChatMember cfg _ _ => Some (Kick_ChatID cfg)
  | DeleteMessage chatID _ _ _ => Some chatID
  end.

(** A call that is no removal, or the removal from [chatID], for good, of an
    account that satisfies [target]. *)
Definition removesOnly (chatID : Z) (target : Z → Prop) (e : event) : Prop :=
  match e with
  | KickChatMember cfg _ _ => cfg = kickCfg chatID (Kick_UserID cfg) ∧ target (Kick_UserID cfg)
  | _ => True
  end.

(** A store call, or a gateway call made for [chatID]. *)
Definition inChat (chatID : Z) (e : event) : Prop :=
  ∀ c, gatewayChat e = Some c → c = chatID.

(** The calls of the unauthorized-message flow other than its store calls:
    the removal of the sender and the deletion of the message. *)
Definition botMessageCall (message : Message) (e : event) : Prop :=
  match e with
  | KickChatMember cfg _ _ =>
      cfg = kickCfg (Chat_ID (MsgChat message)) (User_ID (From message))
  | DeleteMessage chatID messageID _ _ =>
      chatID = Chat_ID (MsgChat message) ∧ messageID = MessageID message
  | Redis _ _ | Exec _ _ => True
  | Send _ _ | LeaveChat _ _ | GetChatAdministrators _ _ _ => False
  end.

(** Everything but the isActive flag of [chatID] is in [s] as in [st]. *)
Definition onlyFlag (chatID : Z) (st s : Store) : Prop :=
  whiteLists s = whiteLists st
  ∧ adminGroups s = adminGroups st
  ∧ memberWarns s = memberWarns st
  ∧ ∀ c f, (c, f) ≠ (chatID, "isActive") → hashOf s c !! f = hashOf st c !! f.

(** The left-member flow only ever takes away. *)
Definition shrinks (st s : Store) : Prop :=
  memberWarns s = memberWarns st
  ∧ (∀ c, hashes s !! c = hashes st !! c ∨ hashes s !! c = None)
  ∧ (∀ c, members (whiteLists s) c ⊆ members (whiteLists st) c)
  ∧ (∀ a, members (adminGroups s) a ⊆ members (adminGroups st) a).

(** An account other than the moderator itself. *)
Definition notSelf (env : Env) (u : User) : Prop := User_ID u ≠ User_ID (Self env).

(** What a call of the new-member flow rests on, read from the call right
    before it: a counter write (the increment, the reset) comes right after
    a removal that succeeded, the reset after that of the originating actor;
    a warning comes right after the increment whose value it reports. *)
Definition causeProtocol (chatID fromID : Z) (gs : groupSettings)
    (a : entry) (rest : list entry) : Prop :=
  ∀ x, head rest = Some x →
    match x.1 with
    | Redis (Incr _) _ =>
        ∃ cfg response err,
          a.1 = KickChatMember cfg response err ∧ succeeded response err
    | Redis (Del _) _ =>
        ∃ response err,
          a.1 = KickChatMember (kickCfg chatID fromID) response err
          ∧ succeeded response err
    | Send (warnUser c current limit) _ =>
        a.1 = Redis (Incr (membersKey chatID fromID)) (IntReply current)
        ∧ c = chatID ∧ limit = Limit gs ∧ current < limit ∧ ShowWarn gs = true
        ∧ warnCounter x.2 chatID fromID = current
    | _ => True
    end.

(** The new-member flow takes nothing away from whitelists, admin-group sets
    and settings. *)
Definition grows (st s : Store) : Prop :=
  (∀ c, members (whiteLists st) c ⊆ members (whiteLists s) c)
  ∧ (∀ a, members (adminGroups st) a ⊆ members (adminGroups s) a)
  ∧ (∀ c f, is_Some (hashOf st c !! f) → is_Some (hashOf s c !! f)).

(** The account a call opens the processing of: the member of the whitelist
    add of the creator path or of the whitelist check of the moderation
    path. *)
Definition opened (e : event) : option Z :=
  match e with
  | Redis (SAdd _ member) _ => Some member
  | Redis (SIsMember _ member) _ => Some member
  | _ => None
  end.

(** The environment that answers like [env], except that every notice,
    every leave and every deletion is answered by success. *)
Definition obliging (env : Env) : Env :=
  {| Self := Self env;
     tgAdmins := tgAdmins env;
     tgSend := λ _ _, None;
     tgLeave := λ _ _, None;
     tgKick := tgKick env;
     tgDelete := λ _ _ _, (mkAPIResponse true 0, None);
     redisDown := redisDown env;
     execReached := execReached env |}.

(** A call without the answer to a notice, a leave or a deletion. *)
Definition request (x : entry) : entry :=
  match x.1 with
  | Send msg _ => (Send msg None, x.2)
  | LeaveChat chatID _ => (LeaveChat chatID None, x.2)
  | DeleteMessage chatID messageID _ _ =>
      (DeleteMessage chatID messageID (mkAPIResponse true 0) None, x.2)
  | _ => x
  end.

(** Worlds with the same store and, up to those answers, the same trace. *)
Definition alike (w w' : World) : Prop :=
  store w = store w' ∧ request <$> trace w = request <$> trace w'.

(** A computation on which those answers have no influence: from alike
    worlds it reaches alike worlds with the same outcome. *)
Definition unmoved {A} (m : M A) (env : Env) : Prop :=
  ∀ w w', alike w w' →
    (m env w).1 = (m (obliging env) w').1 ∧ alike (m env w).2 (m (obliging env) w').2.

(** A run on which those answers have no influence: under [env] and under
    [obliging env] it has the same outcome, the same final store and, up to
    those answers, the same trace. *)
Definition bestEffort {A} (m : M A) (env : Env) (st : Store) : Prop :=
  (run m env st).1 = (run m (obliging env) st).1
  ∧ store (run m env st).2 = store (run m (obliging env) st).2
  ∧ request <$> trace (run m env st).2 = request <$> trace (run m (obliging env) st).2.

(** ** The trace and the collaborators *)

(** What the collaborators made of the call [x], sent at position [i] when
    the store was [prev].  A command or a batch that got through took the
    effect [apply_cmd], [apply_batch] give it and was answered accordingly;
    a command that failed left the store as it was; of a batch that failed
    the first [execReached] commands took effect.  A gateway call was
    answered by the gateway's oracle and did not touch the store. *)
Definition storeStep (env : Env) (i : nat) (prev : Store) (x : entry) : Prop :=
  match x.1 with
  | Redis c r =>
      match redisDown env i with
      | Some e => r = ErrReply e ∧ x.2 = prev
      | None => apply_cmd c prev = (r, x.2)
      end
  | Exec cs err =>
      match redisDown env i with
      | Some e => err = Some e
                  ∧ x.2 = (apply_batch (take (execReached env i) cs) prev).2
      | None => apply_batch cs prev = (err, x.2)
      end
  | GetChatAdministrators chatID admins err =>
      tgAdmins env i chatID = (admins, err) ∧ x.2 = prev
  | Send msg err => tgSend env i msg = err ∧ x.2 = prev
  | LeaveChat chatID err => tgLeave env i chatID = err ∧ x.2 = prev
  | KickChatMember cfg response err => tgKick env i cfg = (response, err) ∧ x.2 = prev
  | DeleteMessage chatID messageID response err =>
      tgDelete env i chatID messageID = (response, err) ∧ x.2 = prev
  end.

(** A run of entries, the first at position [i] on the store [prev], each
    on the store its predecessor left. *)
Fixpoint tracked (env : Env) (i : nat) (prev : Store) (l : list entry) : Prop :=
  match l with
  | [] => True
  | x :: rest => storeStep env i prev x ∧ tracked env (S i) x.2 rest
  end.


(** The store a segment leaves. *)
Definition lastStore (prev : Store) (l : list entry) : Store :=
  match last l with Some x => x.2 | None => prev end.

(** A computation whose segment of the trace is tracked, and which leaves
    the world with the store of its last call. *)
Definition tracks {A} (m : M A) (env : Env) (w : World) : Prop :=
  ∃ o w1 seg, m env w = (o, w1) ∧ trace w1 = trace w ++ seg
    ∧ tracked env (position w) (store w) seg
    ∧ store w1 = lastStore (store w) seg.

(** ** Sanity checks of the model *)

Example apply_cmd_sadd_twice :
  let '(r1, s1) := apply_cmd (SAdd (whiteListKey 7) 999) emptyStore in
  let '(r2, s2) := apply_cmd (SAdd (whiteListKey 7) 999) s1 in
  r1 = IntReply 1 ∧ r2 = IntReply 0 ∧ s2 = s1 ∧ 999 ∈ members (whiteLists s2) 7.
Proof. vm_compute. repeat split. Qed.

Example ParseInt_100 : ParseInt "100" = Some 100.
Proof. reflexivity. Qed.

Example ParseInt_garbage : ParseInt "10x" = None.
Proof. reflexivity. Qed.

Example ParseInt_range : ParseInt "9223372036854775808" = None
                         ∧ ParseInt "-9223372036854775808" = Some minInt64.
Proof. split; reflexivity. Qed.

Example decode_Map :
  decodeSettings (Map (mkSettings true false 3 100 "t" "d"))
  = Some (mkSettings true false 3 100 "t" "d").
Proof. vm_compute. reflexivity. Qed.

Example ParseInt_neg : ParseInt "-42" = Some (-42).
Proof. reflexivity. Qed.

Example ParseInt_empty : ParseInt "" = None ∧ ParseInt "-" = None.
Proof. split; reflexivity. Qed.

(** ** Symbolic execution of the flows *)

Ltac munfold :=
  unfold moderateNewUser, deactivate, kickUser, deleteMessage, incrementMemberWarns,
    changeGroupActiveStatus, isGroupActive, findGroupByID,
    redis, pipeExec, send, leaveChat, kickChatMember, tgDeleteMessage,
    getChatAdministrators, botSelf, fatal,
    mbind, M_bind, bind, mret, M_ret, ret.

Ltac path_step :=
  match goal with
  | |- context [redisDown ?e ?n] => destruct (redisDown e n) eqn:?
  | |- context [execReached ?e ?n] => destruct (execReached e n) as [|[|[|[|?]]]] eqn:?
  | |- context [tgKick ?e ?n ?c] => destruct (tgKick e n c) as [? ?] eqn:?
  | |- context [tgDelete ?e ?n ?c ?m] => destruct (tgDelete e n c m) as [? ?] eqn:?
  | |- context [tgAdmins ?e ?n ?c] => destruct (tgAdmins e n c) as [? ?] eqn:?
  | |- context [classify ?a ?o] => destruct (classify a o) as [[] []] eqn:?
  | |- context [@decide ?P ?d] => destruct (@decide P d)
  | |- context [match ?x with _ => _ end] =>
      lazymatch x with
      | context [match _ with _ => _ end] => fail
      | _ => destruct x eqn:?
      end
  end.

Ltac paths := repeat (cbn -[position]; try path_step).

(** After [paths]: name the outcome, the world and the segment appended. *)
Ltac segment :=
  do 3 eexists; split; [reflexivity|]; split;
  [ cbn [trace]; rewrite <- ?app_assoc; cbn [app];
    first [ reflexivity | by rewrite app_nil_r ] |].

(** ** Lists of entries *)

Lemma allSuffixes_lookup R (l : list entry) i a :
  allSuffixes R l → l !! i = Some a → R a (drop (S i) l).
Proof.
  revert i; induction l as [|b l IH]; intros i Hl Hi; [done|].
  destruct i as [|i]; cbn in *.
  - injection Hi as ->. rewrite drop_0. apply Hl.
  - apply IH; [apply Hl | done].
Qed.

Lemma head_drop (l : list entry) i : head (drop i l) = l !! i.
Proof.
  revert i; induction l as [|b l IH]; intros [|i]; cbn; done.
Qed.

Lemma allSuffixes_and R1 R2 R3 (l : list entry) :
  allSuffixes (λ a rest, R1 a rest ∧ R2 a rest ∧ R3 a rest) l →
  allSuffixes R1 l ∧ allSuffixes R2 l ∧ allSuffixes R3 l.
Proof.
  induction l as [|b l IH]; cbn; [done|].
  intros [(? & ? & ?) Hl]. destruct (IH Hl) as (? & ? & ?). done.
Qed.

Lemma allSuffixes_quiet_app R (pre l : list entry) :
  (∀ a rest, quiet a → R a rest) →
  Forall quiet pre → allSuffixes R l → allSuffixes R (pre ++ l).
Proof.
  intros HR Hpre Hl. induction Hpre as [|a pre Ha _ IH]; cbn; [done|].
  split; [by apply HR | done].
Qed.

Lemma settingsCall_quiet x : settingsCall x → quiet x.
Proof.
  unfold settingsCall, quiet. destruct x.1 as [c r| | | | | |]; try done.
  by destruct c.
Qed.

Lemma opensAccount_quiet x : opensAccount x → quiet x.
Proof. unfold quiet. by intros (k & m & r & [-> | ->]). Qed.

Lemma quiet_writesFlag x : quiet x → ¬ writesFlag x.
Proof. unfold quiet. by intros Hq (k & f & v & r & Hx); rewrite Hx in Hq. Qed.

(** A quiet prefix in front of a segment that opens an account (or is
    empty) has no flag write after any of its entries. *)
Lemma flagProtocol_quiet_app (pre l : list entry) :
  Forall quiet pre → continues l → allSuffixes flagProtocol l →
  allSuffixes flagProtocol (pre ++ l).
Proof.
  intros Hpre Hc Hl. induction Hpre as [|a pre Ha Hpre IH]; cbn; [done|].
  split; [|done]. intros x Hx Hw. exfalso. revert Hw. apply quiet_writesFlag.
  destruct Hpre as [|b pre Hb _]; cbn in Hx.
  - by apply opensAccount_quiet, Hc.
  - by injection Hx as <-.
Qed.

Lemma drop_cons_lookup (l : list entry) i a rest :
  drop i l = a :: rest → l !! i = Some a ∧ ∀ j, l !! (S i + j)%nat = rest !! j.
Proof.
  intros H. split.
  - by rewrite <- head_drop, H.
  - intros j. replace (S i + j)%nat with (i + S j)%nat by lia.
    by rewrite <- lookup_drop, H.
Qed.

Lemma removal_at (tr : list entry) chatID i cfg response err s :
  allSuffixes (removalProtocol chatID) tr →
  tr !! i = Some (KickChatMember cfg response err, s) →
  (denied response err →
     ∃ d, tr !! S i = Some d ∧ isDeactivation chatID d
          ∧ ∀ x, tr !! S (S i) = Some x → opensAccount x)
  ∧ (¬ denied response err → ∀ x, tr !! S i = Some x → ¬ writesFlag x).
Proof.
  intros Hall Hi. pose proof (allSuffixes_lookup _ _ _ _ Hall Hi) as [HR1 HR2].
  split.
  - intros Hd. destruct (HR1 Hd) as (d & rest' & Hdrop & Hdeact & Hnext).
    apply drop_cons_lookup in Hdrop as [Hd1 Hd2].
    exists d. split; [done|]. split; [done|].
    intros x Hx. apply Hnext. specialize (Hd2 0%nat).
    replace (S (S i) + 0)%nat with (S (S i)) in Hd2 by lia.
    rewrite Hd2 in Hx. by destruct rest'.
  - intros Hd x Hx. apply (HR2 Hd). by rewrite head_drop.
Qed.


Lemma flag_at (tr : list entry) i x :
  allSuffixes flagProtocol tr →
  tr !! S i = Some x → writesFlag x →
  ∃ cfg response err s, tr !! i = Some (KickChatMember cfg response err, s)
                        ∧ denied response err.
Proof.
  intros Hall Hx Hw.
  destruct (tr !! i) as [[e s]|] eqn:Hi.
  - pose proof (allSuffixes_lookup _ _ _ _ Hall Hi) as HR. unfold flagProtocol in HR. rewrite head_drop in HR.
    destruct (HR x Hx Hw) as (cfg & response & err & He & Hd).
    cbn in He. subst e. by exists cfg, response, err, s.
  - apply lookup_ge_None_1 in Hi. apply lookup_lt_Some in Hx. exfalso. unfold entry in *. lia.
Qed.

Lemma removalProtocol_quiet chatID a rest : quiet a → removalProtocol chatID a rest.
Proof. unfold quiet, removalProtocol. by destruct a.1. Qed.

Lemma limitProtocol_quiet chatID fromID limit a rest :
  quiet a → limitProtocol chatID fromID limit a rest.
Proof.
  unfold quiet, limitProtocol.
  destruct a.1 as [c r| | | | | |]; try done. by destruct c.
Qed.

(** ** Composition rules for [performs] *)

Lemma performs_bind {A B} (m : M A) (k : A → M B) env w P Q1 Q :
  performs m env w P Q1 →
  (∀ s, Q1 Exit s → Q Exit s) →
  (∀ a w1, Q1 (Val a) (store w1) → performs (k a) env w1 P Q) →
  performs (m ≫= k) env w P Q.
Proof.
  intros (o & w1 & seg & Hm & Htr & HP & HQ) Hexit Hk.
  unfold performs, mbind, M_bind, bind. rewrite Hm. destruct o as [a|].
  - destruct (Hk a w1 HQ) as (o' & w2 & seg' & Hk' & Htr' & HP' & HQ').
    exists o', w2, (seg ++ seg'). rewrite Hk', Htr', Htr, app_assoc.
    split; [done|]. split; [done|]. split; [by apply Forall_app|done].
  - exists Exit, w1, seg. auto.
Qed.

Lemma performs_weaken {A} (m : M A) env w (P P' : entry → Prop) (Q Q' : outcome A → Store → Prop) :
  performs m env w P Q →
  (∀ x, P x → P' x) → (∀ o s, Q o s → Q' o s) →
  performs m env w P' Q'.
Proof.
  intros (o & w1 & seg & Hm & Htr & HP & HQ) HPP HQQ.
  exists o, w1, seg. repeat split; try done; [|by apply HQQ].
  eapply Forall_impl; eauto.
Qed.

Lemma performs_ret {A} (a : A) env w (P : entry → Prop) (Q : outcome A → Store → Prop) :
  Q (Val a) (store w) → performs (mret a) env w P Q.
Proof. intros HQ. exists (Val a), w, []. rewrite app_nil_r. done. Qed.

(** The loop rule: [I] holds between accounts, [J] also when the loop is
    cut short by a fatal error. *)
Lemma performs_forUsers (body : User → M unit) env P (I J : Store → Prop) :
  (∀ s, I s → J s) →
  (∀ u w, I (store w) →
     performs (body u) env w P (λ o s, J s ∧ (o = Val tt → I s))) →
  ∀ users w, I (store w) →
    performs (forUsers body users) env w P (λ o s, J s ∧ (o = Val tt → I s)).
Proof.
  intros HIJ Hbody users. induction users as [|u rest IH]; intros w HI.
  - apply performs_ret. auto.
  - cbn [forUsers]. eapply performs_bind; [by apply Hbody | |].
    + intros s [HJ _]. done.
    + intros [] w1 [_ H1]. apply IH. by apply H1.
Qed.

Lemma performs_run {A} (m : M A) env st P Q :
  performs m env (mkWorld st []) P Q →
  Forall P (trace (run m env st).2) ∧ Q (run m env st).1 (store (run m env st).2).
Proof.
  intros (o & w1 & seg & Hm & Htr & HP & HQ). unfold run. rewrite Hm. cbn.
  rewrite Htr. done.
Qed.

(** ** Stores: what stays as it was *)

Lemma keeps_refl st : keeps st st.
Proof. unfold keeps, staysInactive. auto. Qed.

Lemma activeIn_hashes s s' c : hashes s' = hashes s → activeIn s' c = activeIn s c.
Proof. unfold activeIn, hashOf. by intros ->. Qed.

Lemma Map_default_inactive creator message :
  Map (defaultSettings creator message) !! "isActive" = Some "0".
Proof. reflexivity. Qed.

Lemma staysInactive_trans st s s' : staysInactive st s → staysInactive s s' → staysInactive st s'.
Proof. intros H1 H2 c Hc. by apply H1, H2. Qed.

Lemma activeIn_spec s c : activeIn s c = true ↔ hashOf s c !! "isActive" = Some "1".
Proof. unfold activeIn. apply bool_decide_eq_true. Qed.

Lemma staysInactive_step st s s' :
  staysInactive st s →
  (∀ c, hashOf s' c !! "isActive" = Some "1" → hashOf s c !! "isActive" = Some "1") →
  staysInactive st s'.
Proof. intros Hs H c Hc. apply Hs, activeIn_spec, H, activeIn_spec, Hc. Qed.

Lemma hmset_inactive (h : gmap Z (gmap string string)) k c (fields old : gmap string string) :
  fields !! "isActive" = Some "0" →
  default ∅ (<[k := fields ∪ old]> h !! c) !! "isActive" = Some "1" →
  default ∅ (h !! c) !! "isActive" = Some "1".
Proof.
  intros Hf. rewrite lookup_insert. case_decide; [|done].
  cbn. erewrite lookup_union_Some_l by done. done.
Qed.

Lemma initGroup_keeps env w message st0 :
  keeps st0 (store w) →
  performs (initGroup message) env w (λ x, settingsCall x ∧ keeps st0 x.2) (λ _ s, keeps st0 s).
Proof.
  intros (Hwl & Hmw & Hact). unfold performs, initGroup.
  munfold. unfold record. paths.
  all: segment.
  all: split; [repeat constructor|]; cbn; try done.
  all: unfold keeps; cbn; repeat split; try done.
  all: apply (staysInactive_step st0 (store w)); [done|]; intros c0; unfold hashOf; cbn.
  all: apply hmset_inactive, Map_default_inactive.
Qed.

Lemma initLoop_keeps env message st0 users : ∀ gs w,
  keeps st0 (store w) →
  performs (initLoop message users gs) env w
    (λ x, settingsCall x ∧ keeps st0 x.2) (λ _ s, keeps st0 s).
Proof.
  induction users as [|user rest IH]; intros gs w Hw; cbn [initLoop].
  { by apply performs_ret. }
  eapply performs_bind with (Q1 := λ _ s, keeps st0 s).
  { exists (Val (Self env)), w, []. rewrite app_nil_r. done. }
  { done. }
  intros self w1 H1. destruct (decide _); [|by apply IH].
  eapply performs_bind; [by apply initGroup_keeps | done |].
  intros [settings|] w2 H2; [by apply IH | by apply performs_ret].
Qed.

Lemma loadSettings_keeps env message users w :
  performs (loadSettings message users) env w
    (λ x, settingsCall x ∧ keeps (store w) x.2) (λ _ s, keeps (store w) s).
Proof.
  unfold loadSettings.
  eapply performs_bind with (Q1 := λ _ s, keeps (store w) s).
  - unfold performs. munfold. unfold record. paths.
    all: segment.
    all: split; [repeat constructor|]; cbn; try done; apply keeps_refl.
  - done.
  - intros [gs [e|]] w1 H1.
    + exists Exit, w1, []. rewrite app_nil_r. done.
    + by apply initLoop_keeps.
Qed.

(** ** The protocol of the new-member flow *)

Lemma moderateNewUser_protocol env w message gs user :
  let R := newUserProtocol (Chat_ID (MsgChat message)) (User_ID (From message)) (Limit gs) in
  ∃ o w1 seg,
    moderateNewUser message gs user env w = (o, w1)
    ∧ trace w1 = trace w ++ seg
    ∧ ∀ next, allSuffixes R next → continues next →
        allSuffixes R (seg ++ next) ∧ continues (seg ++ next).
Proof.
  munfold. unfold record, intResult, boolResult, replyErr.
  paths.
  all: do 2 eexists.
  all: cbn [trace]; rewrite <- ?app_assoc; cbn [app].
  all: eexists; split; [reflexivity|]; split; [try reflexivity; rewrite app_nil_r; reflexivity|].
  all: intros next Hn Hc; cbn [app].
  all: split; [| try assumption; intros x [= <-]; do 3 eexists; cbn; eauto ].
  all: try assumption.
  all: cbn [allSuffixes]; unfold newUserProtocol, removalProtocol, limitProtocol; cbn [fst].
  all: repeat match goal with |- _ ∧ _ => split end; try assumption; try exact I.
  (* a flag write has a denied removal right before it *)
  all: try (intros x Hx (k & f & v & r & Hw); cbn in Hx;
            first [ injection Hx as <-; cbn in Hw;
                    first [ discriminate
                          | eexists _, _, _; split; [reflexivity|]; unfold denied; assumption ]
                  | apply Hc in Hx; destruct Hx as (k' & m & r' & [H|H]);
                    rewrite H in Hw; discriminate ]).
  all: unfold denied, succeeded.
  all: repeat match goal with
              | H : classify ?a ?o = _ |- context [classify ?a ?o] => rewrite H
              end.
  all: try done.
  all: try (unfold warnCounter; cbn; by rewrite lookup_insert_eq).
  (* a removal that was not denied is not followed by a flag write *)
  all: try (intros _ x Hx (k & f & v & r & Hw); cbn in Hx;
            first [ injection Hx as <-; cbn in Hw; discriminate
                  | apply Hc in Hx; destruct Hx as (k' & m & r' & [H|H]);
                    rewrite H in Hw; discriminate ]).
  (* a denial is followed by the deactivation, which ends the account *)
  all: try (intros _; eexists _, _; split; [reflexivity|]; split;
            [ eexists; split; [reflexivity|]; cbn; try done;
              intros _; unfold activeIn, hashOf; cbn;
              rewrite lookup_insert_eq; cbn; rewrite lookup_insert_eq; done
            | exact Hc ]).
  (* below the limit there is nothing to show *)
  all: try (intros; lia).
  (* at the limit: the actor's removal, then the reset iff it succeeded *)
  all: intros _; eexists _, _, _, _; split; [reflexivity|];
    match goal with
    | H : classify ?a ?o = _ |- context [classify ?a ?o] => rewrite H
    end;
    split;
    [ first [ intros _; eexists; split; [reflexivity|]; eexists; split; [reflexivity|];
              cbn; try done; intros _; apply lookup_delete_eq
            | intros H; discriminate H ]
    | intros (x & Hx & r & Hr & _); cbn in Hx;
      first [ reflexivity
            | injection Hx as <-; cbn in Hr; discriminate
            | apply Hc in Hx; destruct Hx as (k' & m & r' & [H|H]);
              rewrite H in Hr; discriminate ] ].
Qed.

Lemma forUsers_protocol env message gs users : ∀ w,
  ∃ seg, trace (forUsers (moderateNewUser message gs) users env w).2 = trace w ++ seg
    ∧ allSuffixes (newUserProtocol (Chat_ID (MsgChat message))
                     (User_ID (From message)) (Limit gs)) seg
    ∧ continues seg.
Proof.
  induction users as [|user rest IH]; intros w.
  { exists []. rewrite app_nil_r. done. }
  cbn [forUsers]. unfold mbind at 1, M_bind at 1, bind at 1.
  destruct (moderateNewUser_protocol env w message gs user)
    as (o & w1 & seg & -> & Htr & Hk).
  destruct o as [[]|].
  - destruct (IH w1) as (seg' & Heq & Hall & Hhead).
    exists (seg ++ seg'). rewrite Heq, Htr, app_assoc. split; [done|]. by apply Hk.
  - exists seg. cbn. split; [done|]. rewrite <- (app_nil_r seg). by apply Hk.
Qed.

Lemma processNewUsers_protocol env st message users :
  let chatID := Chat_ID (MsgChat message) in
  let fromID := User_ID (From message) in
  let tr := trace (run (processNewUsers message users) env st).2 in
  allSuffixes (removalProtocol chatID) tr
  ∧ allSuffixes flagProtocol tr
  ∧ ∀ gs w0, loadSettings message users env (mkWorld st []) = (Val (Some (Some gs)), w0) →
      allSuffixes (limitProtocol chatID fromID (Limit gs)) tr.
Proof.
  intros chatID fromID tr. subst tr. unfold run, processNewUsers.
  destruct (loadSettings_keeps env message users (mkWorld st []))
    as (o & w1 & pre & Hm & Htr & Hpre & _).
  unfold mbind, M_bind, bind. rewrite Hm. cbn in Htr.
  assert (Hq : Forall quiet pre)
    by (eapply Forall_impl; [done|]; intros ? [? _]; by apply settingsCall_quiet).
  destruct o as [[[gs|]|]|]; cbn.
  - destruct (forUsers_protocol env message gs users w1) as (seg & -> & Hall & Hc).
    apply allSuffixes_and in Hall as (H1 & H2 & H3). rewrite Htr.
    split; [|split].
    + apply allSuffixes_quiet_app; [apply removalProtocol_quiet|done..].
    + by apply flagProtocol_quiet_app.
    + intros gs' w0 [= <- <-].
      apply allSuffixes_quiet_app; [apply limitProtocol_quiet|done..].
  - rewrite Htr, <- (app_nil_r pre). split; [|split; [|done]].
    + apply allSuffixes_quiet_app; [apply removalProtocol_quiet|done..].
    + by apply flagProtocol_quiet_app.
  - rewrite Htr, <- (app_nil_r pre). split; [|split; [|done]].
    + apply allSuffixes_quiet_app; [apply removalProtocol_quiet|done..].
    + by apply flagProtocol_quiet_app.
  - rewrite Htr, <- (app_nil_r pre). split; [|split; [|done]].
    + apply allSuffixes_quiet_app; [apply removalProtocol_quiet|done..].
    + by apply flagProtocol_quiet_app.
Qed.

(** ** Inactive chats stay inactive *)

Lemma observed {A} (m : M A) env st (P : Store → Prop) Q s :
  performs m env (mkWorld st []) (λ x, P x.2) Q →
  s ∈ observations (run m env st).2 → P s.
Proof.
  intros Hp Hs. apply performs_run in Hp as [Hall _].
  unfold observations in Hs. apply list_elem_of_fmap in Hs as ([e s'] & -> & Hin).
  rewrite Forall_forall in Hall. by apply (Hall (e, s')).
Qed.










(** ** The properties of the specification *)

(** ** Every call is answered by the environment *)







Ltac norm_positions :=
  unfold position in *; cbn [trace] in *;
  rewrite ?length_app in *; cbn [length] in *;
  rewrite ?Nat.add_succ_r, ?Nat.add_0_r in *.

Ltac step_ok :=
  repeat match goal with
    | H : redisDown ?e ?n = _ |- context [redisDown ?e ?n] => rewrite H
    | H : execReached ?e ?n = _ |- context [execReached ?e ?n] => rewrite H
    end;
  cbn -[Map];
  repeat match goal with
    | H : ?x = _ |- context [match ?x with _ => _ end] => rewrite H
    | H : bool_decide ?P = _ |- context [bool_decide ?P] => rewrite H
    | |- context [@decide ?P ?d] => destruct (@decide P d); try contradiction; try lia
    end;
  cbn -[Map]; try done.

Ltac tracked_leaf :=
  segment; norm_positions; cbn [tracked storeStep fst snd lastStore last];
  repeat match goal with |- _ ∧ _ => split end; try exact I; try reflexivity;
  step_ok.








Lemma processLeftUser_tracks env w message leftChatMember :
  tracks (processLeftUser message leftChatMember) env w.
Proof.
  unfold tracks, processLeftUser.
  munfold. unfold record, intResult, boolResult, stringResult, replyErr. paths.
  all: tracked_leaf.
Qed.





Import Scenario.





Lemma classify_400 response err :
  ErrorCode response = 400 → classify response err = (false, None).
Proof. intros H. unfold classify. by rewrite decide_True. Qed.

Lemma classify_other response err :
  ErrorCode response ≠ 400 → classify response err = (Ok response, err).
Proof. intros H. unfold classify. by rewrite decide_False. Qed.

Lemma processBotMessage_protocol env st message :
  let tr := trace (run (processBotMessage message) env st).2 in
  allSuffixes flagProtocol tr
  ∧ allSuffixes (λ a rest, match a.1 with
                           | KickChatMember _ response err =>
                               ¬ denied response err → ∀ x, head rest = Some x → ¬ writesFlag x
                           | _ => True end) tr.
Proof.
  unfold run, processBotMessage.
  munfold. unfold record, intResult, boolResult, replyErr. paths.
  all: unfold flagProtocol, denied.
  all: repeat match goal with |- _ ∧ _ => split end; try exact I.
  all: try (intros x Hx (k & f & v & r & Hw); cbn in Hx; try done;
            injection Hx as <-; cbn in Hw;
            first [ discriminate
                  | eexists _, _, _; split; [reflexivity|]; assumption ]).
  all: try (intros Hd x Hx (k & f & v & r & Hw); cbn in Hx; try done;
            injection Hx as <-; cbn in Hw; first [ discriminate | by destruct Hd ]).
Qed.

(** C10: kickUser and deleteMessage return (false, nil) when the platform
    response carries error code 400, and the response's Ok flag together
    with the error for every other response; for gateway answers in which a
    missing error means success, (false, nil) is returned exactly for code
    400.  A removal that failed with a transport error (an error, and a code
    other than 400) is not a denial and is not followed by a flag write, and
    every flag write of the new-member and unauthorized-message flows comes
    right after a denied removal. *)
Theorem wrappers_report_denial_on_400 :
  (∀ env w chatID userID response err,
     tgKick env (position w) (kickCfg chatID userID) = (response, err) →
     (ErrorCode response = 400 → (kickUser chatID userID env w).1 = Val (false, None))
     ∧ (ErrorCode response ≠ 400 →
        (kickUser chatID userID env w).1 = Val (Ok response, err)))
  ∧ (∀ env w chatID messageID response err,
     tgDelete env (position w) chatID messageID = (response, err) →
     (ErrorCode response = 400 →
        (deleteMessage chatID messageID env w).1 = Val (false, None))
     ∧ (ErrorCode response ≠ 400 →
        (deleteMessage chatID messageID env w).1 = Val (Ok response, err)))
  ∧ (∀ response err,
       (err = None → Ok response = true) →
       (denied response err ↔ ErrorCode response = 400))
  ∧ (∀ env st message users tr,
       (tr = trace (run (processNewUsers message users) env st).2
        ∨ tr = trace (run (processBotMessage message) env st).2) →
       (∀ i cfg response e s,
          tr !! i = Some (KickChatMember cfg response (Some e), s) →
          ErrorCode response ≠ 400 →
          ¬ denied response (Some e) ∧ ∀ x, tr !! S i = Some x → ¬ writesFlag x)
       ∧ (∀ i x, tr !! S i = Some x → writesFlag x →
            ∃ cfg response err s,
              tr !! i = Some (KickChatMember cfg response err, s)
              ∧ denied response err)).
Proof.
  split; [|split; [|split]].
  - intros env w chatID userID response err Hk.
    unfold kickUser, kickChatMember. munfold. rewrite Hk. cbn.
    split; intros H; [by rewrite classify_400 | by rewrite classify_other].
  - intros env w chatID messageID response err Hd.
    unfold deleteMessage, tgDeleteMessage. munfold. rewrite Hd. cbn.
    split; intros H; [by rewrite classify_400 | by rewrite classify_other].
  - intros response err Hok. unfold denied, classify. case_decide; [done|].
    split; [|done]. intros [= Hf He]. rewrite Hok in Hf; done.
  - intros env st message users tr Htr.
    assert (Hnot : ∀ response e, ErrorCode response ≠ 400 → ¬ denied response (Some e)).
    { intros response e Hne. unfold denied. by rewrite classify_other. }
    assert (allSuffixes flagProtocol tr
            ∧ ∀ i cfg response err s,
                tr !! i = Some (KickChatMember cfg response err, s) →
                ¬ denied response err → ∀ x, tr !! S i = Some x → ¬ writesFlag x)
      as [Hflag Hkick].
    { destruct Htr as [-> | ->].
      - destruct (processNewUsers_protocol env st message users) as (Hrem & Hflag & _).
        split; [done|]. intros i cfg response err s Hi.
        by apply (removal_at _ _ _ _ _ _ _ Hrem Hi).
      - destruct (processBotMessage_protocol env st message) as (Hflag & Hrem).
        split; [done|]. intros i cfg response err s Hi Hd x Hx.
        pose proof (allSuffixes_lookup _ _ _ _ Hrem Hi) as HR. cbn in HR.
        apply (HR Hd). by rewrite head_drop. }
    split.
    + intros i cfg response e s Hi Hne. split; [by apply Hnot|].
      apply (Hkick _ _ _ _ _ Hi). by apply Hnot.
    + intros i x. by apply flag_at.
Qed.

Lemma wrappers_witness :
  (kickUser 7 999 denying (mkWorld emptyStore [])).1 = Val (false, None)
  ∧ (deleteMessage 7 55 allowing (mkWorld emptyStore [])).1 = Val (true, None)
  ∧ denied deniedResponse (Some "Bad Request")
  ∧ ∃ cfg response err s,
      trace (run (processBotMessage (messageOf bot999)) denying
               (provisioned true 0 ∅)).2 !! 2%nat
      = Some (KickChatMember cfg response err, s)
      ∧ denied response err.
Proof.
  destruct wrappers_report_denial_on_400 as (H1 & H2 & H3 & H4).
  split; [|split; [|split]].
  - apply (H1 denying (mkWorld emptyStore []) 7 999 deniedResponse (Some "Bad Request"));
      reflexivity.
  - apply (H2 allowing (mkWorld emptyStore []) 7 55 okResponse None);
      [reflexivity | vm_compute; discriminate].
  - apply (H3 deniedResponse (Some "Bad Request")); [discriminate | reflexivity].
  - destruct (H4 denying (provisioned true 0 ∅) (messageOf bot999) []
                (trace (run (processBotMessage (messageOf bot999)) denying
                          (provisioned true 0 ∅)).2)) as [_ Hf]; [by right|].
    eapply (Hf 2%nat).
    + vm_compute. reflexivity.
    + eexists _, _, _, _. reflexivity.
Defined.

(** The unauthorized-message flow, case by case: nothing beyond the reads
    when the chat is inactive or the sender whitelisted; after a denied
    removal the deactivation and nothing else; after any other answer to the
    removal, the deletion attempt. *)
Lemma processBotMessage_cases env st message :
  let chatID := Chat_ID (MsgChat message) in
  let fromID := User_ID (From message) in
  let tr := events (run (processBotMessage message) env st).2 in
  redisDown env 0 = None → redisDown env 1 = None →
  (activeIn st chatID = false → tr = [Redis (HGet (groupKey chatID) "isActive") (match hashOf st chatID !! "isActive" with Some v => StringReply v | None => NilReply end)])
  ∧ (activeIn st chatID = true → fromID ∈ members (whiteLists st) chatID →
       tr = [Redis (HGet (groupKey chatID) "isActive") (StringReply "1");
             Redis (SIsMember (whiteListKey chatID) fromID) (BoolReply true)])
  ∧ (activeIn st chatID = true → fromID ∉ members (whiteLists st) chatID →
       ∃ response err,
         tgKick env 2 (kickCfg chatID fromID) = (response, err) ∧
         take 3 tr = [Redis (HGet (groupKey chatID) "isActive") (StringReply "1");
                      Redis (SIsMember (whiteListKey chatID) fromID) (BoolReply false);
                      KickChatMember (kickCfg chatID fromID) response err]
         ∧ (denied response err → ∃ r, drop 3 tr = [Redis (HSet (groupKey chatID) "isActive" "0") r])
         ∧ (¬ denied response err →
              ∃ response' err', drop 3 tr = [DeleteMessage chatID (MessageID message) response' err'])).
Proof.
  intros chatID fromID tr H0 H1. subst tr chatID fromID.
  unfold run, processBotMessage, events, activeIn, denied.
  munfold. unfold record, intResult, boolResult, replyErr, position. cbn [trace length].
  rewrite H0. cbn.
  destruct (hashOf st (Chat_ID (MsgChat message)) !! "isActive") as [v|] eqn:Hv; cbn.
  2: { repeat split; try done. }
  destruct (decide (v = "1")) as [->|Hne].
  2: { rewrite !bool_decide_eq_false_2 by congruence. cbn. repeat split; try done. }
  rewrite !bool_decide_eq_true_2 by done. cbn. rewrite H1. cbn.
  case_bool_decide as Hm; cbn.
  { repeat split; try done. }
  split; [done|]. split; [done|]. intros _ _.
  destruct (tgKick env 2 _) as [response err] eqn:Hk. cbn.
  exists response, err. split; [done|].
  destruct (classify response err) as [[] []] eqn:Hc; cbn.
  all: paths; cbn; repeat split; try done; try (intros _; eauto); try (intros H; by destruct H).
Qed.

(** C5: the unauthorized-message flow at a removal that fails with a
    transport error (an error, code other than 400).  The wrapper reports
    (false, "timeout"); the flow logs the error, falls through and attempts
    the deletion of the message although the sender was not removed. *)
Theorem failed_removal_still_deletes :
  events (run (processBotMessage (messageOf bot999)) failing (provisioned true 0 ∅)).2
  = [ Redis (HGet (groupKey 7) "isActive") (StringReply "1");
      Redis (SIsMember (whiteListKey 7) 999) (BoolReply false);
      KickChatMember (kickCfg 7 999) noResponse (Some "timeout");
      DeleteMessage 7 55 okResponse None ]
  ∧ kickUser 7 999 failing (mkWorld (provisioned true 0 ∅) []) 
    = (Val (false, Some "timeout"),
       mkWorld (provisioned true 0 ∅)
         [(KickChatMember (kickCfg 7 999) noResponse (Some "timeout"), provisioned true 0 ∅)]).
Proof. split; vm_compute; reflexivity. Qed.

(** ** Store errors are fatal *)

Lemma fatalOnStoreError_bind {A B} (m : M A) (k : A → M B) env w :
  fatalOnStoreError m env w →
  (∀ a w1, fatalOnStoreError (k a) env w1) →
  fatalOnStoreError (m ≫= k) env w.
Proof.
  intros (o & w1 & seg & Hm & Htr & Hf) Hk.
  unfold fatalOnStoreError, mbind, M_bind, bind. rewrite Hm. destruct o as [a|].
  - destruct (Hk a w1) as (o' & w2 & seg' & Hk' & Htr' & Hf').
    exists o', w2, (seg ++ seg'). rewrite Hk', Htr', Htr, app_assoc.
    split; [done|]. split; [done|]. destruct o' as [b|]; cbn in *.
    + by apply Forall_app.
    + destruct Hf' as (pre & x & -> & Hpre). exists (seg ++ pre), x.
      rewrite app_assoc. split; [done|]. by apply Forall_app.
  - exists Exit, w1, seg. auto.
Qed.

Lemma fatalOnStoreError_ret {A} (a : A) env w : fatalOnStoreError (mret a) env w.
Proof.
  exists (Val a), w, []. rewrite app_nil_r.
  split; [done|]. split; [done|]. apply Forall_nil_2.
Qed.

Ltac all_clean := repeat first [ apply Forall_nil_2 | apply Forall_cons_2; [reflexivity|] ].

Ltac fail_stop :=
  first
    [ by all_clean
    | eexists (@nil entry), _; split; [reflexivity|]; by all_clean
    | eexists [_], _; split; [reflexivity|]; by all_clean
    | eexists [_; _], _; split; [reflexivity|]; by all_clean
    | eexists [_; _; _], _; split; [reflexivity|]; by all_clean
    | eexists [_; _; _; _], _; split; [reflexivity|]; by all_clean
    | eexists [_; _; _; _; _], _; split; [reflexivity|]; by all_clean ].

Lemma moderateNewUser_fatal env w message gs user :
  fatalOnStoreError (moderateNewUser message gs user) env w.
Proof.
  unfold fatalOnStoreError.
  munfold. unfold record, intResult, boolResult, replyErr. paths.
  all: segment.
  all: unfold failStop, clean; cbn; fail_stop.
Qed.

Lemma initGroup_fatal env w message : fatalOnStoreError (initGroup message) env w.
Proof.
  unfold fatalOnStoreError, initGroup.
  munfold. unfold record. paths.
  all: segment.
  all: unfold failStop, clean; cbn; fail_stop.
Qed.

Lemma forUsers_fatal env body users :
  (∀ u w, fatalOnStoreError (body u) env w) →
  ∀ w, fatalOnStoreError (forUsers body users) env w.
Proof.
  intros Hb. induction users as [|u rest IH]; intros w; cbn [forUsers].
  - apply fatalOnStoreError_ret.
  - apply fatalOnStoreError_bind; [apply Hb|]. intros _ w1. apply IH.
Qed.

Lemma initLoop_fatal env message users : ∀ gs w,
  fatalOnStoreError (initLoop message users gs) env w.
Proof.
  induction users as [|u rest IH]; intros gs w; cbn [initLoop].
  - apply fatalOnStoreError_ret.
  - apply fatalOnStoreError_bind.
    { exists (Val (Self env)), w, []. rewrite app_nil_r.
      split; [done|]. split; [done|]. apply Forall_nil_2. }
    intros self w1. destruct (decide _); [|apply IH].
    apply fatalOnStoreError_bind; [apply initGroup_fatal|].
    intros [settings|] w2; [apply IH | apply fatalOnStoreError_ret].
Qed.

Lemma loadSettings_fatal env w message users :
  fatalOnStoreError (loadSettings message users) env w.
Proof.
  unfold fatalOnStoreError, loadSettings.
  munfold. unfold record. paths.
  all: try (segment; unfold failStop, clean; cbn; fail_stop).
  all: match goal with
       | |- context [initLoop ?m ?u ?g ?e ?w1] =>
           destruct (initLoop_fatal e m u g w1) as (o & w2 & seg & -> & Htr & Hf)
       end.
  all: cbn [trace] in Htr; rewrite <- app_assoc in Htr; cbn [app] in Htr.
  all: do 3 eexists; split; [reflexivity|]; split; [exact Htr|].
  all: destruct o; cbn in *.
  all: try (apply Forall_cons_2; [reflexivity|done]).
  all: destruct Hf as (pre & x & -> & Hpre); eexists (_ :: pre), x;
       split; [reflexivity|]; by apply Forall_cons_2.
Qed.

Lemma processNewUsers_fatal env w message users :
  fatalOnStoreError (processNewUsers message users) env w.
Proof.
  unfold processNewUsers.
  apply fatalOnStoreError_bind; [apply loadSettings_fatal|].
  intros [[gs|]|] w1; try apply fatalOnStoreError_ret.
  apply forUsers_fatal. intros. apply moderateNewUser_fatal.
Qed.

Lemma processBotMessage_fatal env w message :
  fatalOnStoreError (processBotMessage message) env w.
Proof.
  unfold fatalOnStoreError, processBotMessage.
  munfold. unfold record, intResult, boolResult, replyErr. paths.
  all: segment.
  all: unfold failStop, clean; cbn; fail_stop.
Qed.

Lemma processLeftUser_fatal env w message leftChatMember :
  fatalOnStoreError (processLeftUser message leftChatMember) env w.
Proof.
  unfold fatalOnStoreError, processLeftUser.
  munfold. unfold record, intResult, boolResult, stringResult, replyErr. paths.
  all: segment.
  all: unfold failStop, clean; cbn; fail_stop.
Qed.

Lemma failStop_at {A} (o : outcome A) (seg : list entry) i x :
  failStop o seg → seg !! i = Some x → storeFailed x.1 = true →
  o = Exit ∧ seg !! S i = None.
Proof.
  intros Hf Hi Hx. destruct o as [a|]; cbn in Hf.
  - rewrite Forall_forall in Hf. apply list_elem_of_lookup_2 in Hi.
    apply Hf in Hi. unfold clean in Hi. congruence.
  - split; [done|]. destruct Hf as (pre & y & -> & Hpre).
    destruct (decide (i < length pre)%nat) as [Hlt|Hge].
    + rewrite lookup_app_l in Hi by done.
      rewrite Forall_forall in Hpre. apply list_elem_of_lookup_2 in Hi.
      apply Hpre in Hi. unfold clean in Hi. congruence.
    + apply lookup_ge_None. rewrite length_app. cbn. lia.
Qed.

Lemma fatal_at {A} (m : M A) env st i x :
  fatalOnStoreError m env (mkWorld st []) →
  trace (run m env st).2 !! i = Some x → storeFailed x.1 = true →
  (run m env st).1 = Exit ∧ trace (run m env st).2 !! S i = None.
Proof.
  intros (o & w1 & seg & Hm & Htr & Hf). unfold run. rewrite Hm. cbn.
  rewrite Htr. cbn. by apply failStop_at.
Qed.

(** The settings-creation batch fails while the moderator and a second
    account join: the outcome is the end of the process, and the second
    account is never looked at.  The settings read fails: the same. *)
Lemma store_failure_ends_process :
  (run (processNewUsers (messageOf creator) [hudor; bot999]) (storeDownAt 3) emptyStore).1
  = Exit
  ∧ events (run (processNewUsers (messageOf creator) [hudor; bot999])
              (storeDownAt 3) emptyStore).2
    = [ Redis (HGetAll (groupKey 7)) (MapReply ∅);
        GetChatAdministrators 7 [mkChatMember human "administrator";
                                 mkChatMember creator "creator"] None;
        Send (superGroupIntroduction 7) None;
        Exec [SAdd (adminKey 100) 7;
              HMSet (groupKey 7) (Map (mkSettings false true 3 100 "group" "a supergroup"))]
             (Some "connection refused") ]
  ∧ run (processNewUsers (messageOf human) [bot999]) (storeDownAt 0) (provisioned true 0 ∅)
    = (Exit, mkWorld (provisioned true 0 ∅)
               [(Redis (HGetAll (groupKey 7)) (ErrReply "connection refused"),
                 provisioned true 0 ∅)]).
Proof. repeat split; vm_compute; reflexivity. Qed.

(** C3: a store call that fails on the critical path of any of the three
    flows is fatal: it is the last call the flow makes and the flow ends in
    log.Fatal, that is with the exit of the process (and not with the end of
    this event's task only). *)
Theorem store_failure_is_fatal env st message users leftChatMember i x :
  storeFailed x.1 = true →
  (trace (run (processNewUsers message users) env st).2 !! i = Some x →
   (run (processNewUsers message users) env st).1 = Exit
   ∧ trace (run (processNewUsers message users) env st).2 !! S i = None)
  ∧ (trace (run (processLeftUser message leftChatMember) env st).2 !! i = Some x →
     (run (processLeftUser message leftChatMember) env st).1 = Exit
     ∧ trace (run (processLeftUser message leftChatMember) env st).2 !! S i = None)
  ∧ (trace (run (processBotMessage message) env st).2 !! i = Some x →
     (run (processBotMessage message) env st).1 = Exit
     ∧ trace (run (processBotMessage message) env st).2 !! S i = None).
Proof.
  intros Hx. split; [|split]; intros Hi.
  - by apply (fatal_at _ _ _ _ _ (processNewUsers_fatal _ _ _ _) Hi).
  - by apply (fatal_at _ _ _ _ _ (processLeftUser_fatal _ _ _ _) Hi).
  - by apply (fatal_at _ _ _ _ _ (processBotMessage_fatal _ _ _) Hi).
Qed.

Lemma store_failure_is_fatal_witness :
  (run (processNewUsers (messageOf creator) [hudor; bot999]) (storeDownAt 3) emptyStore).1
  = Exit
  ∧ trace (run (processNewUsers (messageOf creator) [hudor; bot999])
             (storeDownAt 3) emptyStore).2 !! 4%nat = None.
Proof.
  destruct (store_failure_is_fatal (storeDownAt 3) emptyStore (messageOf creator)
              [hudor; bot999] hudor 3%nat
              (Exec [SAdd (adminKey 100) 7;
                     HMSet (groupKey 7)
                       (Map (mkSettings false true 3 100 "group" "a supergroup"))]
                    (Some "connection refused"), emptyStore)) as (H & _ & _).
  - reflexivity.
  - apply H. vm_compute. reflexivity.
Defined.

(** C6: when the administrators are fetched and a creator is among them,
    initGroup makes three calls: the fetch, the introduction notice and one
    pipelined batch of two commands, first the add of the chat to the
    creator's admin-group set, then the write of the default settings
    {isActive false, showWarn true, limit 3, creator, title, description}.
    The batch is no transaction: the commands take effect one after the
    other, so that between them the store holds the first write without the
    second.  When the batch goes through, the settings are returned and both
    writes are in the store; when it fails, the flow is fatal and the store
    holds what the server had run by then: nothing, the add alone, or both
    writes. *)
Theorem initGroup_writes_defaults_in_one_batch env st message admins creator :
  let chatID := Chat_ID (MsgChat message) in
  let creatorID := User_ID (Member_User creator) in
  let settings := mkSettings false true 3 creatorID
                    (Chat_Title (MsgChat message)) (Chat_Description (MsgChat message)) in
  let first := SAdd (adminKey creatorID) chatID in
  let second := HMSet (groupKey chatID) (Map settings) in
  let added := (apply_cmd first st).2 in
  let written := (apply_cmd second added).2 in
  let r := run (initGroup message) env st in
  tgAdmins env 0 chatID = (admins, None) →
  findCreator admins = Some creator →
  events r.2 = [ GetChatAdministrators chatID admins None;
                 Send (superGroupIntroduction chatID) (tgSend env 1 (superGroupIntroduction chatID));
                 Exec [first; second] (redisDown env 2) ]
  ∧ (chatID ∈ members (adminGroups added) creatorID
     ∧ hashes added = hashes st
     ∧ whiteLists added = whiteLists st
     ∧ memberWarns added = memberWarns st)
  ∧ (chatID ∈ members (adminGroups written) creatorID
     ∧ hashOf written chatID = Map settings ∪ hashOf st chatID
     ∧ (∀ f v, Map settings !! f = Some v → hashOf written chatID !! f = Some v)
     ∧ whiteLists written = whiteLists st
     ∧ memberWarns written = memberWarns st)
  ∧ match redisDown env 2 with
    | None =>
        r.1 = Val (Some settings)
        ∧ observations r.2 = [st; st; written]
        ∧ store r.2 = written
    | Some _ =>
        r.1 = Exit
        ∧ observations r.2 = [st; st; store r.2]
        ∧ store r.2 = match execReached env 2 with
                      | 0%nat => st
                      | 1%nat => added
                      | _ => written
                      end
    end.
Proof.
  intros chatID creatorID settings first second added written r Hadmins Hcreator.
  assert (Hadded : chatID ∈ members (adminGroups added) creatorID
                   ∧ hashes added = hashes st
                   ∧ whiteLists added = whiteLists st
                   ∧ memberWarns added = memberWarns st).
  { subst added first. cbn.
    destruct (decide (chatID ∈ members (adminGroups st) creatorID)) as [Hin|Hin]; cbn.
    - done.
    - split; [|done]. unfold sadd. unfold members at 1. rewrite lookup_insert_eq. cbn.
      apply elem_of_union_l. by apply elem_of_singleton. }
  assert (Hwritten : chatID ∈ members (adminGroups written) creatorID
                     ∧ hashOf written chatID = Map settings ∪ hashOf st chatID
                     ∧ (∀ f v, Map settings !! f = Some v → hashOf written chatID !! f = Some v)
                     ∧ whiteLists written = whiteLists st
                     ∧ memberWarns written = memberWarns st).
  { destruct Hadded as (Hin & Hh & Hwl & Hmw).
    assert (Hhash : hashOf written chatID = Map settings ∪ hashOf st chatID).
    { subst written second. unfold hashOf at 1. cbn -[Map added].
      rewrite lookup_insert_eq. cbn -[Map added]. unfold hashOf. by rewrite Hh. }
    split; [|split; [done|split]].
    - subst written second. cbn -[Map added]. done.
    - intros f v Hf. rewrite Hhash. by apply lookup_union_Some_l.
    - subst written second. cbn -[Map added]. done. }
  assert (Hbatch : apply_batch [first; second] st = (None, written)).
  { subst written added first second. cbn -[Map].
    by destruct (decide (chatID ∈ members (adminGroups st) creatorID)). }
  assert (Hcut : ∀ k, (apply_batch (take k [first; second]) st).2
                      = match k with 0%nat => st | 1%nat => added | _ => written end).
  { intros [|[|[|k]]]; subst written added first second; cbn -[Map]; try done.
    all: by destruct (decide (chatID ∈ members (adminGroups st) creatorID)). }
  assert (Hrun : r = initGroup message env (mkWorld st [])) by done.
  revert Hrun. unfold initGroup.
  munfold. unfold record, position. cbn [trace length store].
  fold chatID. rewrite Hadmins. cbn -[Map apply_batch take]. rewrite Hcreator.
  cbn -[Map apply_batch take]. fold creatorID.
  change (defaultSettings creator message) with settings.
  change (SAdd (adminKey creatorID) chatID) with first.
  change (HMSet (groupKey chatID) (Map settings)) with second.
  destruct (redisDown env 2) as [e|]; cbn -[Map apply_batch take].
  - rewrite Hcut. intros ->. cbn. done.
  - rewrite Hbatch. intros ->. cbn. done.
Qed.

Example initGroup_scenario :
  let r := run (initGroup (messageOf creator)) allowing emptyStore in
  r.1 = Val (Some (mkSettings false true 3 100 "group" "a supergroup"))
  ∧ decodeSettings (hashOf (store r.2) 7)
    = Some (mkSettings false true 3 100 "group" "a supergroup")
  ∧ adminGroups (store r.2) = {[ 100 := {[ 7 ]} ]}.
Proof. vm_compute. done. Qed.

(** The connection breaks while the replies of the batch are awaited, the
    server having run the first command: the process is ended, the chat is
    in the creator's admin-group set and has no settings. *)
Lemma initGroup_leaves_partial_write :
  let r := run (initGroup (messageOf creator)) (Cases.cutAt 2 1) emptyStore in
  r.1 = Exit
  ∧ adminGroups (store r.2) = {[ 100 := {[ 7 ]} ]}
  ∧ hashes (store r.2) !! 7 = None.
Proof. vm_compute. done. Qed.

Lemma initGroup_witness :
  (run (initGroup (messageOf creator)) allowing emptyStore).1
  = Val (Some (mkSettings false true 3 100 "group" "a supergroup"))
  ∧ (run (initGroup (messageOf creator)) (Cases.cutAt 2 1) emptyStore).1 = Exit.
Proof.
  split.
  - destruct (initGroup_writes_defaults_in_one_batch allowing emptyStore (messageOf creator)
                [mkChatMember human "administrator"; mkChatMember creator "creator"]
                (mkChatMember creator "creator")) as (_ & _ & _ & H).
    + reflexivity.
    + reflexivity.
    + cbn in H. destruct H as (H1 & _). exact H1.
  - destruct (initGroup_writes_defaults_in_one_batch (Cases.cutAt 2 1) emptyStore
                (messageOf creator)
                [mkChatMember human "administrator"; mkChatMember creator "creator"]
                (mkChatMember creator "creator")) as (_ & _ & _ & H).
    + reflexivity.
    + reflexivity.
    + cbn in H. destruct H as (H1 & _). exact H1.
Defined.

Lemma members_srem_not_in (m : gmap Z (gset Z)) i x : x ∉ members (srem m i x) i.
Proof.
  unfold srem, members. destruct (decide _).
  - rewrite lookup_delete_eq. cbn. set_solver.
  - rewrite lookup_insert_eq. cbn.
    intros [_ Hx]%elem_of_difference. apply Hx. by apply elem_of_singleton.
Qed.

Lemma members_delete (m : gmap Z (gset Z)) i : members (delete i m) i = ∅.
Proof. unfold members. by rewrite lookup_delete_eq. Qed.

(** C7: the departure of the moderator itself.  When the settings hold a
    creator field, processLeftUser reads that field and then sends one
    pipelined batch: the deletion of the settings key, the deletion of the
    whitelist key and, only when the field parses as an integer, the removal
    of the chat from that creator's admin-group set.  When the batch goes
    through, at every store observed from then on both keys are absent and
    the chat is not in the creator's set (the admin-group sets are untouched
    when the field does not parse).  The batch is no transaction: when it
    fails, the flow is fatal and the store holds the effect of the commands
    the server had run by then, in the order of the batch.  When the
    settings hold no creator field, the flow is fatal right after the read
    and nothing is deleted. *)
Theorem moderator_departure_cleans_up env st message leftChatMember :
  let chatID := Chat_ID (MsgChat message) in
  let r := run (processLeftUser message leftChatMember) env st in
  User_ID (Self env) = User_ID leftChatMember →
  redisDown env 0 = None →
  (hashOf st chatID !! "creator" = None →
   r = (Exit, mkWorld st [(Redis (HGet (groupKey chatID) "creator") NilReply, st)]))
  ∧ ∀ creatorStr, hashOf st chatID !! "creator" = Some creatorStr →
      let cleanup := match ParseInt creatorStr with
                     | Some admin => [SRem (adminKey admin) chatID]
                     | None => []
                     end in
      let batch := [Del (groupKey chatID); Del (whiteListKey chatID)] ++ cleanup in
      take 2 (events r.2)
      = [ Redis (HGet (groupKey chatID) "creator") (StringReply creatorStr);
          Exec batch (redisDown env 1) ]
      ∧ match redisDown env 1 with
        | None =>
            ∀ s, s ∈ drop 1 (observations r.2) →
                 hashes s !! chatID = None
                 ∧ whiteLists s !! chatID = None
                 ∧ match ParseInt creatorStr with
                   | Some admin => chatID ∉ members (adminGroups s) admin
                   | None => adminGroups s = adminGroups st
                   end
        | Some _ =>
            r.1 = Exit
            ∧ observations r.2 = [st; store r.2]
            ∧ store r.2 = (apply_batch (take (execReached env 1) batch) st).2
            ∧ (execReached env 1 = 0%nat → store r.2 = st)
            ∧ (execReached env 1 = 1%nat →
               hashes (store r.2) !! chatID = None
               ∧ whiteLists (store r.2) = whiteLists st
               ∧ adminGroups (store r.2) = adminGroups st)
        end.
Proof.
  intros chatID r Hself Hup. subst r. split.
  - intros Hnone. unfold run, processLeftUser.
    munfold. unfold record, position, stringResult, replyErr. cbn.
    rewrite decide_True by done. cbn. rewrite Hup. cbn. fold chatID. by rewrite Hnone.
  - intros creatorStr Hcreator cleanup batch. subst batch cleanup.
    unfold run, processLeftUser, events, observations.
    munfold. unfold record, position, stringResult, replyErr. cbn -[ParseInt].
    rewrite decide_True by done. cbn -[ParseInt]. rewrite Hup. cbn -[ParseInt].
    fold chatID. rewrite Hcreator. cbn -[ParseInt apply_batch take].
    destruct (redisDown env 1) as [e|]; cbn -[ParseInt apply_batch take].
    { split; [done|]. split; [done|]. split; [done|]. split; [done|].
      split; intros ->; cbn; [done|]. rewrite lookup_delete_eq. done. }
    destruct (ParseInt creatorStr) as [admin|]; cbn.
    + destruct (decide (chatID ∈ members (adminGroups st) admin)) as [Hin|Hin]; cbn.
      all: paths; cbn.
      all: split; [done|]; intros s Hs.
      all: repeat (apply elem_of_cons in Hs as [->|Hs]); try by apply elem_of_nil in Hs.
      all: cbn; rewrite ?lookup_delete_eq; repeat split; try done.
      all: try apply members_srem_not_in.
      all: exfalso;
           match goal with
           | H : _ ∈ members (delete _ _) _ |- _ => rewrite members_delete in H; set_solver
           end.
    + paths; cbn.
      all: split; [done|]; intros s Hs.
      all: repeat (apply elem_of_cons in Hs as [->|Hs]); try by apply elem_of_nil in Hs.
      all: cbn; rewrite ?lookup_delete_eq; repeat split; try done.
      all: exfalso;
           match goal with
           | H : _ ∈ members (delete _ _) _ |- _ => rewrite members_delete in H; set_solver
           end.
Qed.

(** Two runs in which the moderator leaves and the keys of the chat are not
    both deleted.  In the first the connection breaks while the replies of
    the batch are awaited, the server having run the first command: the
    settings are gone, the whitelist and the entry of the admin-group set
    are still there.  In the second the settings hold no creator field: the
    process is ended after the read, with the store as it was. *)
Lemma moderator_departure_leaves_keys :
  (let r := run (processLeftUser (messageOf creator) hudor) (Cases.cutAt 1 1)
              (provisioned true 0 {[999]}) in
   r.1 = Exit
   ∧ hashes (store r.2) !! 7 = None
   ∧ whiteLists (store r.2) !! 7 = Some {[999]}
   ∧ adminGroups (store r.2) !! 100 = Some {[7]})
  ∧ (let st := mkStore {[ 7 := {[ "isActive" := "0" ]} ]} {[ 7 := {[ 999 ]} ]} ∅ ∅ in
     let r := run (processLeftUser (messageOf creator) hudor) allowing st in
     r.1 = Exit ∧ store r.2 = st).
Proof. split; vm_compute; done. Qed.

Lemma moderator_departure_witness :
  hashes (store (run (processLeftUser (messageOf creator) hudor) allowing
                   (provisioned true 0 {[999]})).2) !! 7 = None
  ∧ whiteLists (store (run (processLeftUser (messageOf creator) hudor) allowing
                         (provisioned true 0 {[999]})).2) !! 7 = None
  ∧ 7 ∉ members (adminGroups (store (run (processLeftUser (messageOf creator) hudor)
                                       allowing (provisioned true 0 {[999]})).2)) 100.
Proof.
  destruct (moderator_departure_cleans_up allowing (provisioned true 0 {[999]})
              (messageOf creator) hudor) as (_ & H).
  - reflexivity.
  - reflexivity.
  - destruct (H "100") as (_ & H').
    + vm_compute. reflexivity.
    + apply H'. apply list_elem_of_lookup. exists 1%nat. vm_compute. reflexivity.
Defined.

Example moderator_departure_unparsable :
  let st := mkStore {[ 7 := {[ "creator" := "owner" ]} ]} {[ 7 := {[ 999 ]} ]}
                    {[ 100 := {[ 7 ]} ]} ∅ in
  let r := run (processLeftUser (messageOf creator) hudor) allowing st in
  r.1 = Val tt
  ∧ events r.2 = [ Redis (HGet (groupKey 7) "creator") (StringReply "owner");
                   Exec [Del (groupKey 7); Del (whiteListKey 7)] None;
                   Redis (SRem (whiteListKey 7) 1) (IntReply 0) ]
  ∧ store r.2 = mkStore ∅ ∅ {[ 100 := {[ 7 ]} ]} ∅.
Proof. vm_compute. done. Qed.

(** ** The creator path *)

Lemma members_sadd (m : gmap Z (gset Z)) i x :
  members (sadd m i x) i = {[x]} ∪ members m i.
Proof. unfold sadd, members at 1. by rewrite lookup_insert_eq. Qed.

(** The creator path of one account, from any world. *)
Lemma moderateNewUser_creator env w message gs user :
  let chatID := Chat_ID (MsgChat message) in
  let notice := botAddedToWhitelist chatID (MessageID message) (User_UserName user) in
  User_ID user ≠ User_ID (Self env) →
  User_ID (From message) = Creator gs →
  redisDown env (position w) = None →
  (User_ID user ∈ members (whiteLists (store w)) chatID →
     moderateNewUser message gs user env w
     = (Val tt, mkWorld (store w)
                  (trace w ++ [(Redis (SAdd (whiteListKey chatID) (User_ID user)) (IntReply 0),
                                store w)])))
  ∧ (User_ID user ∉ members (whiteLists (store w)) chatID →
     ∃ s, moderateNewUser message gs user env w
          = (Val tt, mkWorld s
                       (trace w ++ [(Redis (SAdd (whiteListKey chatID) (User_ID user)) (IntReply 1), s);
                                    (Send notice (tgSend env (S (position w)) notice), s)]))
          ∧ members (whiteLists s) chatID = {[User_ID user]} ∪ members (whiteLists (store w)) chatID
          ∧ hashes s = hashes (store w) ∧ adminGroups s = adminGroups (store w)
          ∧ memberWarns s = memberWarns (store w)).
Proof.
  intros chatID notice Hself Hcr Hup. subst chatID notice.
  munfold. unfold record, intResult, replyErr. cbn -[position].
  rewrite decide_False by done. rewrite decide_True by done. rewrite Hup. cbn -[position].
  split; intros Hin.
  - rewrite decide_True by done. cbn. rewrite decide_False by lia. done.
  - rewrite decide_False by done. cbn -[position]. rewrite decide_True by lia.
    cbn -[position]. eexists. split.
    + unfold position at 2. cbn. rewrite length_app, Nat.add_1_r, <- app_assoc. reflexivity.
    + cbn. by rewrite members_sadd.
Qed.

Lemma moderateNewUser_creator_performs env w message gs user :
  let chatID := Chat_ID (MsgChat message) in
  User_ID (From message) = Creator gs →
  performs (moderateNewUser message gs user) env w
    (λ x, whitelisting chatID x ∧ memberWarns x.2 = memberWarns (store w))
    (λ o s, memberWarns s = memberWarns (store w)
            ∧ members (whiteLists (store w)) chatID ⊆ members (whiteLists s) chatID
            ∧ (o = Val tt → User_ID user ≠ User_ID (Self env) →
               User_ID user ∈ members (whiteLists s) chatID)).
Proof.
  intros chatID Hcr. subst chatID. unfold performs.
  munfold. unfold record, intResult, replyErr. paths.
  all: try done.
  all: segment.
  all: unfold whitelisting; cbn.
  all: split; [repeat first [ apply Forall_nil_2 | apply Forall_cons_2; [done|] ]|].
  all: rewrite ?members_sadd.
  all: repeat split; try done; try set_solver.
Qed.

Lemma forUsers_creator env message gs users : ∀ w,
  let chatID := Chat_ID (MsgChat message) in
  User_ID (From message) = Creator gs →
  performs (forUsers (moderateNewUser message gs) users) env w
    (λ x, whitelisting chatID x ∧ memberWarns x.2 = memberWarns (store w))
    (λ o s, memberWarns s = memberWarns (store w)
            ∧ members (whiteLists (store w)) chatID ⊆ members (whiteLists s) chatID
            ∧ (o = Val tt → ∀ user, user ∈ users → User_ID user ≠ User_ID (Self env) →
               User_ID user ∈ members (whiteLists s) chatID)).
Proof.
  induction users as [|u rest IH]; intros w chatID Hcr; cbn [forUsers].
  { apply performs_ret. split; [done|]. split; [done|]. intros _ user Hu.
    by apply elem_of_nil in Hu. }
  eapply performs_bind.
  - by apply moderateNewUser_creator_performs.
  - cbn. intros s (Hmw & Hsub & _). split; [done|]. split; [done|]. done.
  - cbn. intros [] w1 (Hmw & Hsub & Hu).
    eapply performs_weaken; [by apply (IH w1)| |]; cbn.
    + intros x [Hx Hx2]. split; [done|]. by rewrite Hx2.
    + intros o s (Hmw' & Hsub' & Hrest). fold chatID in Hsub, Hsub', Hu, Hrest.
      split; [by rewrite Hmw'|]. split; [set_solver|].
      intros Ho user Hin Hne. apply elem_of_cons in Hin as [->|Hin].
      * apply Hsub'. by apply Hu.
      * by apply Hrest.
Qed.

(** C4: when the originating actor is the creator recorded in the settings
    the flow works with, whatever isActive says: every call of the flow is a
    call of the settings head or a whitelist add with its confirmation (no
    removal, no counter call, no membership check), the warn counters are
    untouched at every store observed, and when the flow returns every
    joined account other than the moderator is in the whitelist.  For each
    such account, from any world with the store up: an account already
    listed gets the add (answered 0) and nothing else; an account not yet
    listed gets the add (answered 1) and then exactly the confirmation. *)
Theorem creator_introduced_accounts_are_whitelisted env st message users gs w0 :
  let chatID := Chat_ID (MsgChat message) in
  let r := run (processNewUsers message users) env st in
  loadSettings message users env (mkWorld st []) = (Val (Some (Some gs)), w0) →
  User_ID (From message) = Creator gs →
  Forall (λ x, (settingsCall x ∨ whitelisting chatID x)
               ∧ memberWarns x.2 = memberWarns st) (trace r.2)
  ∧ (r.1 = Val tt → ∀ user, user ∈ users → User_ID user ≠ User_ID (Self env) →
     User_ID user ∈ members (whiteLists (store r.2)) chatID)
  ∧ (∀ w user,
       let notice := botAddedToWhitelist chatID (MessageID message) (User_UserName user) in
       User_ID user ≠ User_ID (Self env) →
       redisDown env (position w) = None →
       (User_ID user ∈ members (whiteLists (store w)) chatID →
          moderateNewUser message gs user env w
          = (Val tt, mkWorld (store w)
                       (trace w ++ [(Redis (SAdd (whiteListKey chatID) (User_ID user))
                                       (IntReply 0), store w)])))
       ∧ (User_ID user ∉ members (whiteLists (store w)) chatID →
          ∃ s, moderateNewUser message gs user env w
               = (Val tt, mkWorld s
                            (trace w ++ [(Redis (SAdd (whiteListKey chatID) (User_ID user))
                                            (IntReply 1), s);
                                         (Send notice (tgSend env (S (position w)) notice), s)]))
               ∧ members (whiteLists s) chatID
                 = {[User_ID user]} ∪ members (whiteLists (store w)) chatID
               ∧ memberWarns s = memberWarns (store w))).
Proof.
  intros chatID r Hload Hcr. subst r.
  split; [|split].
  - unfold run, processNewUsers, mbind, M_bind, bind. rewrite Hload.
    destruct (loadSettings_keeps env message users (mkWorld st []))
      as (o & w1 & pre & Hm & Htr & Hpre & Hk).
    rewrite Hload in Hm. injection Hm as <- <-. cbn in Htr, Hpre, Hk.
    destruct (forUsers_creator env message gs users w0 Hcr)
      as (o' & w2 & seg & -> & Htr' & Hseg & _).
    cbn. rewrite Htr', Htr. apply Forall_app. split.
    + eapply Forall_impl; [exact Hpre|]. cbn. intros x (Hx & _ & Hmw & _). auto.
    + eapply Forall_impl; [exact Hseg|]. cbn. intros x (Hx & Hmw).
      split; [by right|]. destruct Hk as (_ & Hmw0 & _). by rewrite Hmw.
  - unfold run, processNewUsers, mbind, M_bind, bind. rewrite Hload.
    destruct (forUsers_creator env message gs users w0 Hcr)
      as (o' & w2 & seg & -> & Htr' & Hseg & _ & _ & H).
    cbn. intros ->. by apply H.
  - intros w user notice Hself Hup.
    destruct (moderateNewUser_creator env w message gs user Hself Hcr Hup) as [H1 H2].
    split; [done|]. intros Hin. destruct (H2 Hin) as (s & Hs & Hm & _ & _ & Hmw).
    by exists s.
Qed.

Lemma creator_introduced_witness :
  999 ∈ members (whiteLists (store (run (processNewUsers (messageOf creator)
                                           [hudor; bot999; bot998])
                                       allowing emptyStore).2)) 7
  ∧ 998 ∈ members (whiteLists (store (run (processNewUsers (messageOf creator)
                                             [hudor; bot999; bot998])
                                         allowing emptyStore).2)) 7.
Proof.
  destruct (creator_introduced_accounts_are_whitelisted allowing emptyStore
              (messageOf creator) [hudor; bot999; bot998]
              (mkSettings false true 3 100 "group" "a supergroup")
              (loadSettings (messageOf creator) [hudor; bot999; bot998] allowing
                 (mkWorld emptyStore [])).2) as (_ & H & _).
  - vm_compute. reflexivity.
  - reflexivity.
  - split.
    + apply (H ltac:(vm_compute; reflexivity) bot999); [|discriminate].
      apply list_elem_of_lookup. by exists 1%nat.
    + apply (H ltac:(vm_compute; reflexivity) bot998); [|discriminate].
      apply list_elem_of_lookup. by exists 2%nat.
Defined.

(** C9: one account introduced by the creator.  Already whitelisted: the
    flow returns, the store is the one it started from, and the calls are
    the settings read and the add answered 0, no notice.  Not yet
    whitelisted: the whitelist of the chat grows by the account, and the
    calls are the settings read, the add answered 1 and one confirmation. *)
Theorem whitelist_add_is_idempotent env st message gs user :
  let chatID := Chat_ID (MsgChat message) in
  let userID := User_ID user in
  let notice := botAddedToWhitelist chatID (MessageID message) (User_UserName user) in
  let read := Redis (HGetAll (groupKey chatID)) (MapReply (hashOf st chatID)) in
  let r := run (processNewUsers message [user]) env st in
  userID ≠ User_ID (Self env) →
  hashOf st chatID ≠ ∅ →
  decodeSettings (hashOf st chatID) = Some gs →
  User_ID (From message) = Creator gs →
  redisDown env 0 = None →
  redisDown env 1 = None →
  (userID ∈ members (whiteLists st) chatID →
     r.1 = Val tt ∧ store r.2 = st
     ∧ events r.2 = [read; Redis (SAdd (whiteListKey chatID) userID) (IntReply 0)])
  ∧ (userID ∉ members (whiteLists st) chatID →
     r.1 = Val tt
     ∧ members (whiteLists (store r.2)) chatID = {[userID]} ∪ members (whiteLists st) chatID
     ∧ members (whiteLists (store r.2)) chatID ≠ members (whiteLists st) chatID
     ∧ events r.2 = [read; Redis (SAdd (whiteListKey chatID) userID) (IntReply 1);
                     Send notice (tgSend env 2 notice)]).
Proof.
  intros chatID userID notice read r Hself Hne Hdec Hcr H0 H1. subst r read.
  set (w := mkWorld st [(Redis (HGetAll (groupKey chatID)) (MapReply (hashOf st chatID)), st)]).
  assert (Hload : loadSettings message [user] env (mkWorld st []) = (Val (Some (Some gs)), w)).
  { unfold loadSettings, findGroupByID, redis, initLoop, botSelf.
    unfold mbind, M_bind, bind, mret, M_ret, ret, record, position.
    cbn [trace length store]. rewrite H0. cbn -[decodeSettings].
    fold chatID. destruct (decide (hashOf st chatID = ∅)) as [|_]; [done|].
    rewrite Hdec. destruct (decide (User_ID user = User_ID (Self env))); done. }
  assert (Hpos : redisDown env (position w) = None) by done.
  assert (Hrun : run (processNewUsers message [user]) env st
                 = moderateNewUser message gs user env w).
  { unfold run, processNewUsers, mbind, M_bind, bind. rewrite Hload.
    cbn [forUsers]. unfold mbind, M_bind, bind, mret, M_ret, ret.
    destruct (moderateNewUser_creator env w message gs user Hself Hcr Hpos) as [Hold Hnew].
    destruct (decide (userID ∈ members (whiteLists st) chatID)) as [Hin|Hin].
    - by rewrite (Hold Hin).
    - by destruct (Hnew Hin) as (s & -> & _). }
  rewrite Hrun. clear Hrun.
  destruct (moderateNewUser_creator env w message gs user Hself Hcr Hpos) as [Hold Hnew].
  split; intros Hin.
  - rewrite (Hold Hin). done.
  - destruct (Hnew Hin) as (s & -> & Hm & _). cbn. fold chatID userID in Hm.
    split; [done|]. split; [done|]. split; [|done].
    rewrite Hm. fold chatID userID in Hin. intros Heq. apply Hin. rewrite <- Heq.
    by apply elem_of_union_l, elem_of_singleton.
Qed.

Lemma whitelist_add_witness :
  events (run (processNewUsers (messageOf creator) [bot999]) allowing
            (provisioned false 0 {[999]})).2
  = [ Redis (HGetAll (groupKey 7)) (MapReply (Map (settings false)));
      Redis (SAdd (whiteListKey 7) 999) (IntReply 0) ]
  ∧ events (run (processNewUsers (messageOf creator) [bot999]) allowing
              (provisioned false 0 ∅)).2
    = [ Redis (HGetAll (groupKey 7)) (MapReply (Map (settings false)));
        Redis (SAdd (whiteListKey 7) 999) (IntReply 1);
        Send (botAddedToWhitelist 7 55 "spam999") None ].
Proof.
  split.
  - destruct (whitelist_add_is_idempotent allowing (provisioned false 0 {[999]})
                (messageOf creator) (settings false) bot999) as [H _].
    + vm_compute. discriminate.
    + vm_compute. discriminate.
    + vm_compute. reflexivity.
    + reflexivity.
    + reflexivity.
    + reflexivity.
    + destruct H as (_ & _ & H); [|exact H].
      apply (bool_decide_unpack _). vm_compute. exact I.
  - destruct (whitelist_add_is_idempotent allowing (provisioned false 0 ∅)
                (messageOf creator) (settings false) bot999) as [_ H].
    + vm_compute. discriminate.
    + vm_compute. discriminate.
    + vm_compute. reflexivity.
    + reflexivity.
    + reflexivity.
    + reflexivity.
    + destruct H as (_ & _ & _ & H); [|exact H].
      apply (bool_decide_unpack _). vm_compute. exact I.
Defined.

(** ** Warn counters *)

Lemma countersFrom_same chatID fromID st s :
  memberWarns s = memberWarns st → countersFrom chatID fromID st s.
Proof. unfold countersFrom, warnCounter. intros ->. auto. Qed.

Lemma countersFrom_trans chatID fromID st s s' :
  countersFrom chatID fromID st s → countersFrom chatID fromID s s' →
  countersFrom chatID fromID st s'.
Proof.
  intros [H1 H2] [H3 H4]. split.
  - intros c u Hne. by rewrite H3, H1.
  - auto.
Qed.

Ltac counters :=
  unfold countersFrom, warnCounter in *; cbn in *;
  repeat split; intros;
  rewrite ?lookup_delete, ?lookup_insert;
  repeat case_decide; simplify_eq; cbn; try done; try lia.

Lemma moderateNewUser_counters env w message gs user :
  let chatID := Chat_ID (MsgChat message) in
  let fromID := User_ID (From message) in
  performs (moderateNewUser message gs user) env w
    (λ x, countersFrom chatID fromID (store w) x.2)
    (λ _ s, countersFrom chatID fromID (store w) s).
Proof.
  intros chatID fromID. subst chatID fromID. unfold performs.
  munfold. unfold record, intResult, boolResult, replyErr. paths.
  all: segment.
  all: split; [repeat first [ apply Forall_nil_2 | apply Forall_cons_2 ]|]; cbn.
  all: counters.
Qed.

Lemma moderateNewUser_bounded env w message gs user :
  let chatID := Chat_ID (MsgChat message) in
  let fromID := User_ID (From message) in
  (∀ n response err,
     tgKick env n (kickCfg chatID fromID) = (response, err) → succeeded response err) →
  0 ≤ warnCounter (store w) chatID fromID < Limit gs →
  performs (moderateNewUser message gs user) env w
    (λ x, 0 ≤ warnCounter x.2 chatID fromID ≤ Limit gs)
    (λ o s, 0 ≤ warnCounter s chatID fromID ≤ Limit gs
            ∧ (o = Val tt → 0 ≤ warnCounter s chatID fromID < Limit gs)).
Proof.
  intros chatID fromID Hkick Hw. subst chatID fromID. unfold performs.
  munfold. unfold record, intResult, boolResult, replyErr. paths.
  all: segment.
  all: repeat match goal with
              | H : tgKick _ _ (kickCfg _ (User_ID (From _))) = _ |- _ =>
                  apply Hkick in H; unfold succeeded in H
              end.
  all: try congruence.
  all: split; [repeat first [ apply Forall_nil_2 | apply Forall_cons_2 ]|]; cbn.
  all: unfold warnCounter in *; cbn in *;
       rewrite ?lookup_delete, ?lookup_insert;
       repeat case_decide; simplify_eq; cbn; try done; try lia.
  all: repeat split; try done; lia.
Qed.

Lemma processNewUsers_counters env st message users :
  let chatID := Chat_ID (MsgChat message) in
  let fromID := User_ID (From message) in
  performs (processNewUsers message users) env (mkWorld st [])
    (λ x, countersFrom chatID fromID st x.2) (λ _ s, countersFrom chatID fromID st s).
Proof.
  intros chatID fromID. unfold processNewUsers.
  eapply performs_bind with (Q1 := λ _ s, countersFrom chatID fromID st s).
  - eapply performs_weaken; [apply loadSettings_keeps| |]; cbn.
    + intros x (_ & _ & Hmw & _). by apply countersFrom_same.
    + intros o s (_ & Hmw & _). by apply countersFrom_same.
  - done.
  - intros [[gs|]|] w1 H1; try by apply performs_ret.
    eapply performs_weaken.
    + apply (performs_forUsers _ env (λ x, countersFrom chatID fromID st x.2)
               (countersFrom chatID fromID st) (countersFrom chatID fromID st));
        [done| |done].
      intros u w Hw. eapply performs_weaken; [apply moderateNewUser_counters| |]; cbn.
      * intros x Hx. by eapply countersFrom_trans.
      * intros o s Hs. split; [|intros _]; by eapply countersFrom_trans.
    + done.
    + cbn. by intros o s [? _].
Qed.

Lemma processNewUsers_bounded env st message users gs w0 :
  let chatID := Chat_ID (MsgChat message) in
  let fromID := User_ID (From message) in
  loadSettings message users env (mkWorld st []) = (Val (Some (Some gs)), w0) →
  (∀ n response err,
     tgKick env n (kickCfg chatID fromID) = (response, err) → succeeded response err) →
  0 ≤ warnCounter st chatID fromID < Limit gs →
  performs (processNewUsers message users) env (mkWorld st [])
    (λ x, 0 ≤ warnCounter x.2 chatID fromID ≤ Limit gs)
    (λ o s, o = Val tt → 0 ≤ warnCounter s chatID fromID < Limit gs).
Proof.
  intros chatID fromID Hload Hkick Hst. unfold processNewUsers.
  eapply performs_bind
    with (Q1 := λ o s, o = Val (Some (Some gs)) ∧ 0 ≤ warnCounter s chatID fromID < Limit gs).
  - destruct (loadSettings_keeps env message users (mkWorld st []))
      as (o & w1 & pre & Hm & Htr & Hpre & Hk).
    rewrite Hload in Hm. injection Hm as <- <-.
    exists (Val (Some (Some gs))), w0, pre. split; [done|]. split; [done|]. split.
    + eapply Forall_impl; [exact Hpre|]. cbn. intros x (_ & _ & Hmw & _).
      unfold warnCounter in *. rewrite Hmw. lia.
    + split; [done|]. destruct Hk as (_ & Hmw & _). cbn in Hmw.
      unfold warnCounter in *. by rewrite Hmw.
  - by intros s [? _].
  - intros r w1 [[= ->] H1].
    eapply performs_weaken.
    + apply (performs_forUsers _ env (λ x, 0 ≤ warnCounter x.2 chatID fromID ≤ Limit gs)
               (λ s, 0 ≤ warnCounter s chatID fromID < Limit gs)
               (λ s, 0 ≤ warnCounter s chatID fromID ≤ Limit gs)); [cbn; lia| |done].
      intros u w Hw. by apply moderateNewUser_bounded.
    + done.
    + cbn. intros o s [_ H]. done.
Qed.

Lemma processLeftUser_counters env st message leftChatMember :
  performs (processLeftUser message leftChatMember) env (mkWorld st [])
    (λ x, memberWarns x.2 = memberWarns st) (λ _ s, memberWarns s = memberWarns st).
Proof.
  unfold performs, processLeftUser.
  munfold. unfold record, intResult, boolResult, stringResult, replyErr. paths.
  all: segment.
  all: split; [repeat first [ apply Forall_nil_2 | apply Forall_cons_2 ]|]; cbn; done.
Qed.

Lemma processBotMessage_counters env st message :
  performs (processBotMessage message) env (mkWorld st [])
    (λ x, memberWarns x.2 = memberWarns st) (λ _ s, memberWarns s = memberWarns st).
Proof.
  unfold performs, processBotMessage.
  munfold. unfold record, intResult, boolResult, replyErr. paths.
  all: segment.
  all: split; [repeat first [ apply Forall_nil_2 | apply Forall_cons_2 ]|]; cbn; done.
Qed.

(** The human stands at two warnings, the limit is three, and two
    unauthorized accounts join in one event while the removal of the human
    fails with a transport error: the counter ends at four. *)
Lemma warn_counter_exceeds_limit :
  let r := run (processNewUsers (messageOf human) [bot999; bot998]) sparing
             (provisioned true 2 ∅) in
  r.1 = Val tt
  ∧ decodeSettings (hashOf (store r.2) 7) = Some (settings true)
  ∧ Limit (settings true) = 3
  ∧ warnCounter (store r.2) 7 200 = 4
  ∧ ¬ (0 ≤ warnCounter (store r.2) 7 200 ≤ Limit (settings true)).
Proof. vm_compute. repeat split; try reflexivity. intros [_ H]. by apply H. Qed.


(** C1: the warn counters under the three flows.  A new-member flow changes
    no counter but the one of (chat, originating actor), and that one is not
    negative at any store observed if it was not at the start; the other two
    flows change no counter.  In a new-member flow that works with settings
    [gs], starts with the counter of (chat, actor) below the limit and in
    which every removal of the actor succeeds, that counter is at most the
    limit at every store observed, and below it when the flow returns. *)
Theorem warn_counter_bounds env st message users leftChatMember gs w0 s :
  let chatID := Chat_ID (MsgChat message) in
  let fromID := User_ID (From message) in
  (s ∈ observations (run (processNewUsers message users) env st).2 →
   (∀ c u, (c, u) ≠ (chatID, fromID) → warnCounter s c u = warnCounter st c u)
   ∧ (0 ≤ warnCounter st chatID fromID → 0 ≤ warnCounter s chatID fromID))
  ∧ (s ∈ observations (run (processLeftUser message leftChatMember) env st).2
     ∨ s ∈ observations (run (processBotMessage message) env st).2 →
     ∀ c u, warnCounter s c u = warnCounter st c u)
  ∧ (loadSettings message users env (mkWorld st []) = (Val (Some (Some gs)), w0) →
     (∀ n response err,
        tgKick env n (kickCfg chatID fromID) = (response, err) → succeeded response err) →
     0 ≤ warnCounter st chatID fromID < Limit gs →
     (s ∈ observations (run (processNewUsers message users) env st).2 →
      0 ≤ warnCounter s chatID fromID ≤ Limit gs)
     ∧ ((run (processNewUsers message users) env st).1 = Val tt →
        0 ≤ warnCounter (store (run (processNewUsers message users) env st).2)
              chatID fromID < Limit gs)).
Proof.
  intros chatID fromID. split; [|split].
  - intros Hs.
    by apply (observed _ _ _ (countersFrom chatID fromID st) _ _
                (processNewUsers_counters env st message users)).
  - intros Hs c u. unfold warnCounter.
    assert (memberWarns s = memberWarns st) as ->; [|done].
    destruct Hs as [Hs|Hs].
    + by apply (observed _ _ _ (λ s, memberWarns s = memberWarns st) _ _
                  (processLeftUser_counters env st message leftChatMember)).
    + by apply (observed _ _ _ (λ s, memberWarns s = memberWarns st) _ _
                  (processBotMessage_counters env st message)).
  - intros Hload Hkick Hst.
    pose proof (processNewUsers_bounded env st message users gs w0 Hload Hkick Hst) as Hp.
    split.
    + intros Hs.
      by apply (observed _ _ _ (λ s, 0 ≤ warnCounter s chatID fromID ≤ Limit gs) _ _ Hp).
    + apply performs_run in Hp as [_ Hq]. exact Hq.
Qed.

Lemma warn_counter_bounds_witness :
  0 ≤ warnCounter (mkStore {[ 7 := Map (settings true) ]} ∅ {[ 100 := {[ 7 ]} ]}
                     {[ (7, 200) := 3 ]}) 7 200 ≤ 3
  ∧ 0 ≤ warnCounter (store (run (processNewUsers (messageOf human) [bot999]) allowing
                                (provisioned true 2 ∅)).2) 7 200 < 3.
Proof.
  destruct (warn_counter_bounds allowing (provisioned true 2 ∅) (messageOf human) [bot999]
              hudor (settings true)
              (loadSettings (messageOf human) [bot999] allowing
                 (mkWorld (provisioned true 2 ∅) [])).2
              (mkStore {[ 7 := Map (settings true) ]} ∅ {[ 100 := {[ 7 ]} ]}
                 {[ (7, 200) := 3 ]})) as (_ & _ & H).
  destruct H as [H1 H2].
  - vm_compute. reflexivity.
  - intros n response err [= <- <-]. reflexivity.
  - vm_compute. split; [discriminate | reflexivity].
  - split.
    + apply H1. apply list_elem_of_fmap. eexists (_, _). split; [reflexivity|].
      apply list_elem_of_lookup. exists 3%nat. vm_compute. reflexivity.
    + apply H2. vm_compute. reflexivity.
Defined.

(** ** Further properties: the new-member flow *)

Lemma initLoop_skip env message users gs w :
  Forall (λ u, User_ID u ≠ User_ID (Self env)) users →
  initLoop message users gs env w = (Val (Some gs), w).
Proof.
  intros Hu. induction Hu as [|u rest Hne _ IH]; cbn [initLoop]; [done|].
  unfold mbind, M_bind, bind, botSelf. by rewrite decide_False.
Qed.

Lemma loadSettings_read env st message users gs w1 :
  findGroupByID (Chat_ID (MsgChat message)) env (mkWorld st []) = (Val (gs, None), w1) →
  Forall (notSelf env) users →
  loadSettings message users env (mkWorld st []) = (Val (Some gs), w1).
Proof.
  intros Hread Hu. unfold loadSettings.
  unfold mbind at 1, M_bind at 1, bind at 1. rewrite Hread.
  by apply initLoop_skip.
Qed.

(** X1: a new-member event for a chat of which findGroupByID reports no
    settings (and no error), the moderator not being among the joined
    accounts (the empty list included): the flow returns right after the
    settings read; it makes no further call and writes nothing. *)
Theorem unprovisioned_chat_is_skipped env st message users w1 :
  findGroupByID (Chat_ID (MsgChat message)) env (mkWorld st []) = (Val (None, None), w1) →
  Forall (notSelf env) users →
  run (processNewUsers message users) env st = (Val tt, w1).
Proof.
  intros Hread Hu. unfold run, processNewUsers, mbind, M_bind, bind.
  by rewrite (loadSettings_read env st message users None w1 Hread Hu).
Qed.

Lemma unprovisioned_chat_witness :
  run (processNewUsers (messageOf human) [bot999; bot998]) allowing emptyStore
  = (Val tt, mkWorld emptyStore [(Redis (HGetAll (groupKey 7)) (MapReply ∅), emptyStore)]).
Proof.
  apply (unprovisioned_chat_is_skipped allowing emptyStore (messageOf human) [bot999; bot998]).
  - reflexivity.
  - repeat (apply Forall_cons_2; [discriminate|]). apply Forall_nil_2.
Defined.

Lemma forUsers_skip env message gs users w :
  User_ID (From message) ≠ Creator gs →
  IsActive gs = false →
  forUsers (moderateNewUser message gs) users env w = (Val tt, w).
Proof.
  intros Hcr Hin. induction users as [|u rest IH]; cbn [forUsers]; [done|].
  unfold mbind at 1, M_bind at 1, bind at 1.
  assert (moderateNewUser message gs u env w = (Val tt, w)) as ->; [|done].
  unfold moderateNewUser, mbind, M_bind, bind, botSelf, mret, M_ret, ret.
  destruct (decide _); [done|]. rewrite decide_False by done. by rewrite Hin.
Qed.

(** X2: a new-member event for a chat whose settings say inactive, brought
    by someone other than the creator, the moderator not being among the
    joined accounts: the flow returns right after the settings read; nobody
    is checked or removed and nothing is written. *)
Theorem inactive_chat_is_not_moderated env st message users gs w1 :
  findGroupByID (Chat_ID (MsgChat message)) env (mkWorld st []) = (Val (Some gs, None), w1) →
  Forall (notSelf env) users →
  User_ID (From message) ≠ Creator gs →
  IsActive gs = false →
  run (processNewUsers message users) env st = (Val tt, w1).
Proof.
  intros Hread Hu Hcr Hin. unfold run, processNewUsers, mbind, M_bind, bind.
  rewrite (loadSettings_read env st message users (Some gs) w1 Hread Hu).
  by apply forUsers_skip.
Qed.

Lemma inactive_chat_witness :
  run (processNewUsers (messageOf human) [bot999; bot998]) allowing (provisioned false 0 ∅)
  = (Val tt, mkWorld (provisioned false 0 ∅)
               [(Redis (HGetAll (groupKey 7)) (MapReply (Map (settings false))),
                 provisioned false 0 ∅)]).
Proof.
  apply (inactive_chat_is_not_moderated allowing (provisioned false 0 ∅) (messageOf human)
           [bot999; bot998] (settings false)).
  - vm_compute. reflexivity.
  - repeat (apply Forall_cons_2; [discriminate|]). apply Forall_nil_2.
  - discriminate.
  - reflexivity.
Defined.

(** X3: in active moderation a joined account that is on the whitelist
    costs one membership check and nothing else: no removal, no counter
    change, no notice. *)
Theorem whitelisted_account_passes_silently env w message gs user :
  let chatID := Chat_ID (MsgChat message) in
  User_ID user ≠ User_ID (Self env) →
  User_ID (From message) ≠ Creator gs →
  IsActive gs = true →
  redisDown env (position w) = None →
  User_ID user ∈ members (whiteLists (store w)) chatID →
  moderateNewUser message gs user env w
  = (Val tt, mkWorld (store w)
               (trace w ++ [(Redis (SIsMember (whiteListKey chatID) (User_ID user))
                               (BoolReply true), store w)])).
Proof.
  intros chatID Hself Hcr Hact Hup Hin.
  munfold. unfold record, boolResult, replyErr. cbn -[position].
  rewrite !decide_False by done. rewrite Hact. cbn -[position]. rewrite Hup.
  cbn -[position]. by rewrite bool_decide_eq_true_2.
Qed.

Lemma whitelisted_account_witness :
  moderateNewUser (messageOf human) (settings true) bot999 allowing
    (mkWorld (provisioned true 0 {[999]}) [])
  = (Val tt, mkWorld (provisioned true 0 {[999]})
               [(Redis (SIsMember (whiteListKey 7) 999) (BoolReply true),
                 provisioned true 0 {[999]})]).
Proof.
  apply (whitelisted_account_passes_silently allowing
           (mkWorld (provisioned true 0 {[999]}) []) (messageOf human) (settings true) bot999).
  - discriminate.
  - discriminate.
  - reflexivity.
  - reflexivity.
  - apply (bool_decide_unpack _). vm_compute. exact I.
Defined.

(** X4: in active moderation, an account that is not whitelisted and whose
    removal succeeds raises the counter of (chat, originating actor) by one;
    while the new value is below the limit the actor is not removed, and the
    warning "count of limit" is sent exactly when the settings ask for
    warnings.  Nothing else in the store changes. *)
Theorem warning_below_the_limit env w message gs user response err :
  let chatID := Chat_ID (MsgChat message) in
  let fromID := User_ID (From message) in
  let count := warnCounter (store w) chatID fromID + 1 in
  let counted := mkStore (hashes (store w)) (whiteLists (store w)) (adminGroups (store w))
                         (<[(chatID, fromID) := count]> (memberWarns (store w))) in
  let notice := warnUser chatID count (Limit gs) in
  User_ID user ≠ User_ID (Self env) →
  fromID ≠ Creator gs →
  IsActive gs = true →
  redisDown env (position w) = None →
  User_ID user ∉ members (whiteLists (store w)) chatID →
  tgKick env (S (position w)) (kickCfg chatID (User_ID user)) = (response, err) →
  succeeded response err →
  redisDown env (S (S (position w))) = None →
  count < Limit gs →
  Limit gs ≤ maxInt64 →
  moderateNewUser message gs user env w
  = (Val tt,
     mkWorld counted
       (trace w
        ++ [(Redis (SIsMember (whiteListKey chatID) (User_ID user)) (BoolReply false), store w);
            (KickChatMember (kickCfg chatID (User_ID user)) response err, store w);
            (Redis (Incr (membersKey chatID fromID)) (IntReply count), counted)]
        ++ (if ShowWarn gs
            then [(Send notice (tgSend env (S (S (S (position w)))) notice), counted)]
            else []))).
Proof.
  intros chatID fromID count counted notice Hself Hcr Hact Hup Hin Hk Hs Hup2 Hlt Hmax64.
  assert (Hmax : count ≤ maxInt64) by lia.
  munfold. unfold record, intResult, boolResult, replyErr. cbn -[position].
  rewrite !decide_False by done. rewrite Hact. cbn -[position]. rewrite Hup.
  cbn -[position]. rewrite bool_decide_eq_false_2 by done. cbn -[position].
  unfold position at 1. cbn [trace]. rewrite length_app, Nat.add_1_r.
  fold (position w). fold chatID. rewrite Hk. rewrite Hs. cbn -[position].
  unfold position at 1. cbn [trace]. rewrite !length_app, !Nat.add_1_r.
  fold (position w). rewrite Hup2. cbn -[position].
  fold chatID fromID count. rewrite decide_True by done. cbn -[position].
  rewrite decide_False by lia.
  destruct (ShowWarn gs); cbn -[position].
  - unfold position at 1. cbn [trace]. rewrite !length_app, !Nat.add_1_r.
    fold (position w). rewrite <- !app_assoc. reflexivity.
  - rewrite <- !app_assoc. reflexivity.
Qed.

Lemma warning_below_the_limit_witness :
  (moderateNewUser (messageOf human) (settings true) bot999 allowing
     (mkWorld (provisioned true 0 ∅) [])).1 = Val tt
  ∧ events (moderateNewUser (messageOf human) (settings true) bot999 allowing
              (mkWorld (provisioned true 0 ∅) [])).2
    = [ Redis (SIsMember (whiteListKey 7) 999) (BoolReply false);
        KickChatMember (kickCfg 7 999) okResponse None;
        Redis (Incr (membersKey 7 200)) (IntReply 1);
        Send (warnUser 7 1 3) None ].
Proof.
  rewrite (warning_below_the_limit allowing (mkWorld (provisioned true 0 ∅) [])
             (messageOf human) (settings true) bot999 okResponse None).
  - split; reflexivity.
  - discriminate.
  - discriminate.
  - reflexivity.
  - reflexivity.
  - apply (bool_decide_unpack _). vm_compute. exact I.
  - reflexivity.
  - reflexivity.
  - reflexivity.
  - reflexivity.
  - vm_compute. discriminate.
Defined.

(** ** Further properties: initialization *)

(** X5: initGroup when the chat cannot be provisioned.  When the fetch of
    the administrators fails it is the only call.  When no administrator is
    the creator, the introduction and the notice that the moderator cannot
    operate are sent and the moderator leaves the chat, whatever the answers
    to these three calls.  In both cases there are no settings (nil) and the
    store is as it was. *)
Theorem initGroup_without_creator_writes_nothing env w message admins err :
  let chatID := Chat_ID (MsgChat message) in
  let intro := superGroupIntroduction chatID in
  let sorry := botCannotOperateWithoutCreator chatID in
  tgAdmins env (position w) chatID = (admins, err) →
  (err ≠ None →
     initGroup message env w
     = (Val None,
        mkWorld (store w)
          (trace w ++ [(GetChatAdministrators chatID admins err, store w)])))
  ∧ (err = None → findCreator admins = None →
     initGroup message env w
     = (Val None,
        mkWorld (store w)
          (trace w
           ++ [(GetChatAdministrators chatID admins None, store w);
               (Send intro (tgSend env (S (position w)) intro), store w);
               (Send sorry (tgSend env (S (S (position w))) sorry), store w);
               (LeaveChat chatID (tgLeave env (S (S (S (position w)))) chatID), store w)]))).
Proof.
  intros chatID intro sorry Hadm. unfold initGroup.
  munfold. unfold record. cbn -[position]. fold chatID. rewrite Hadm.
  split.
  - intros Hne. destruct err; [done|by destruct Hne].
  - intros -> Hnone. cbn -[position]. rewrite Hnone. cbn -[position].
    unfold position. cbn [trace]. rewrite !length_app, !Nat.add_1_r.
    rewrite <- !app_assoc. reflexivity.
Qed.

Lemma initGroup_without_creator_witness :
  initGroup (messageOf creator) Cases.unreachable (mkWorld emptyStore [])
  = (Val None, mkWorld emptyStore
                 [(GetChatAdministrators 7 [] (Some "Forbidden"), emptyStore)])
  ∧ events (initGroup (messageOf creator) Cases.ownerless (mkWorld emptyStore [])).2
    = [ GetChatAdministrators 7 [mkChatMember human "administrator"] None;
        Send (superGroupIntroduction 7) None;
        Send (botCannotOperateWithoutCreator 7) None;
        LeaveChat 7 None ].
Proof.
  split.
  - apply (initGroup_without_creator_writes_nothing Cases.unreachable
             (mkWorld emptyStore []) (messageOf creator) [] (Some "Forbidden"));
      [reflexivity | discriminate].
  - destruct (initGroup_without_creator_writes_nothing Cases.ownerless
                (mkWorld emptyStore []) (messageOf creator)
                [mkChatMember human "administrator"] None) as [_ H]; [reflexivity|].
    rewrite H; reflexivity.
Defined.

Lemma initGroup_fails env w message :
  (∀ n admins err, tgAdmins env n (Chat_ID (MsgChat message)) = (admins, err) →
                   err ≠ None ∨ findCreator admins = None) →
  performs (initGroup message) env w
    (λ x, settingsCall x ∧ x.2 = store w) (λ o s, s = store w ∧ o = Val None).
Proof.
  intros Hfail. unfold performs, initGroup.
  munfold. unfold record. paths.
  all: try match goal with
           | H : tgAdmins _ _ _ = _ |- _ => destruct (Hfail _ _ _ H); congruence
           end.
  all: segment.
  all: split; [repeat first [ apply Forall_nil_2 | apply Forall_cons_2; [done|] ]|]; done.
Qed.

Lemma initLoop_fails env message users :
  (∀ n admins err, tgAdmins env n (Chat_ID (MsgChat message)) = (admins, err) →
                   err ≠ None ∨ findCreator admins = None) →
  Exists (λ u, User_ID u = User_ID (Self env)) users →
  ∀ gs w, performs (initLoop message users gs) env w
            (λ x, settingsCall x ∧ x.2 = store w) (λ o s, s = store w ∧ o = Val None).
Proof.
  intros Hfail Hex. induction users as [|u rest IH]; intros gs w.
  { by apply Exists_nil in Hex. }
  cbn [initLoop].
  eapply performs_bind with (Q1 := λ o s, s = store w ∧ o = Val (Self env)).
  { exists (Val (Self env)), w, []. rewrite app_nil_r. done. }
  { by intros s [_ ?]. }
  intros self w1 [Hs [= ->]].
  destruct (decide (User_ID u = User_ID (Self env))) as [Hu|Hu].
  - eapply performs_bind with (Q1 := λ o s, s = store w ∧ o = Val None).
    + eapply performs_weaken; [by apply initGroup_fails| |]; cbn.
      * intros x [? ->]. done.
      * intros o s [-> ->]. done.
    + by intros s [? ?].
    + intros r w2 [Hs2 [= ->]]. by apply performs_ret.
  - eapply performs_weaken; [apply IH| |]; cbn.
    + apply Exists_cons in Hex as [?|?]; done.
    + intros x [? ->]. done.
    + intros o s [-> ->]. done.
Qed.

(** X6: when the moderator is among the joined accounts and initialization
    cannot provision the chat, the event ends there: every call of the flow
    belongs to the settings head, no joined account is whitelisted, checked
    or removed, and the store is as it was. *)
Theorem failed_initialization_ends_the_event env st message users :
  (∀ n admins err, tgAdmins env n (Chat_ID (MsgChat message)) = (admins, err) →
                   err ≠ None ∨ findCreator admins = None) →
  Exists (λ u, User_ID u = User_ID (Self env)) users →
  Forall (λ x, settingsCall x ∧ x.2 = st) (trace (run (processNewUsers message users) env st).2)
  ∧ store (run (processNewUsers message users) env st).2 = st.
Proof.
  intros Hfail Hex.
  apply (performs_run (processNewUsers message users) env st
           (λ x, settingsCall x ∧ x.2 = st) (λ _ s, s = st)).
  unfold processNewUsers.
  eapply performs_bind with (Q1 := λ o s, s = st ∧ ∀ r, o ≠ Val (Some r)).
  - unfold loadSettings.
    eapply performs_bind with (Q1 := λ _ s, s = st).
    + unfold performs. munfold. unfold record. paths.
      all: segment.
      all: split; [repeat first [ apply Forall_nil_2 | apply Forall_cons_2; [done|] ]|]; done.
    + by intros s ->.
    + intros [gs [e|]] w1 Hs.
      * exists Exit, w1, []. rewrite app_nil_r. done.
      * eapply performs_weaken; [by apply initLoop_fails| |]; cbn.
        -- intros x [? ->]. done.
        -- intros o s [-> ->]. done.
  - by intros s [? _].
  - intros [[gs|]|] w1 [Hs Hr]; try by apply performs_ret.
    by destruct (Hr (Some gs)).
Qed.

Lemma failed_initialization_witness :
  store (run (processNewUsers (messageOf creator) [hudor; bot999]) Cases.ownerless
           emptyStore).2 = emptyStore.
Proof.
  apply (failed_initialization_ends_the_event Cases.ownerless emptyStore
           (messageOf creator) [hudor; bot999]).
  - intros n admins err [= <- <-]. by right.
  - apply Exists_cons_hd. reflexivity.
Defined.

(** ** Further properties: departures *)

Lemma members_srem (m : gmap Z (gset Z)) i x :
  members (srem m i x) i = members m i ∖ {[x]}.
Proof.
  unfold srem. destruct (decide _) as [He|He].
  - unfold members at 1. rewrite lookup_delete_eq. cbn. by rewrite He.
  - unfold members at 1. by rewrite lookup_insert_eq.
Qed.

Lemma srem_other (m : gmap Z (gset Z)) i j x : i ≠ j → srem m i x !! j = m !! j.
Proof.
  intros Hne. unfold srem. destruct (decide _).
  - by rewrite lookup_delete_ne.
  - by rewrite lookup_insert_ne.
Qed.

(** X7: the departure of an account other than the moderator.  A human
    costs no call at all.  An automated account is removed from the
    whitelist of the chat with one SRem: it is not in the whitelist
    afterwards, all other members and all other chats' whitelists stay, and
    nothing changes at all when it was not listed. *)
Theorem departure_of_another_account env st message leftChatMember :
  let chatID := Chat_ID (MsgChat message) in
  let leftID := User_ID leftChatMember in
  let r := run (processLeftUser message leftChatMember) env st in
  User_ID (Self env) ≠ leftID →
  (User_IsBot leftChatMember = false → r = (Val tt, mkWorld st []))
  ∧ (User_IsBot leftChatMember = true → redisDown env 0 = None →
     r.1 = Val tt
     ∧ events r.2
       = [Redis (SRem (whiteListKey chatID) leftID)
            (IntReply (if decide (leftID ∈ members (whiteLists st) chatID) then 1 else 0))]
     ∧ members (whiteLists (store r.2)) chatID = members (whiteLists st) chatID ∖ {[leftID]}
     ∧ (∀ c, c ≠ chatID → whiteLists (store r.2) !! c = whiteLists st !! c)
     ∧ hashes (store r.2) = hashes st
     ∧ adminGroups (store r.2) = adminGroups st
     ∧ memberWarns (store r.2) = memberWarns st
     ∧ (leftID ∉ members (whiteLists st) chatID → store r.2 = st)).
Proof.
  intros chatID leftID r Hself. subst r.
  unfold run, processLeftUser, events.
  munfold. unfold record, position, replyErr. cbn -[srem].
  rewrite decide_False by done. split; intros Hbot; rewrite Hbot; cbn -[srem]; [done|].
  intros Hup. rewrite Hup. cbn -[srem]. fold chatID leftID.
  destruct (decide (leftID ∈ members (whiteLists st) chatID)) as [Hin|Hin]; cbn -[srem].
  - repeat split; try done.
    + apply members_srem.
    + intros c Hc. by apply srem_other.
  - repeat split; try done. apply set_eq. intros y.
    rewrite elem_of_difference, elem_of_singleton. split; [|by intros [? _]].
    intros Hy. split; [done|]. by intros ->.
Qed.

Lemma departure_of_another_account_witness :
  run (processLeftUser (messageOf human) human) allowing (provisioned true 0 {[999]})
  = (Val tt, mkWorld (provisioned true 0 {[999]}) [])
  ∧ members (whiteLists (store (run (processLeftUser (messageOf human) bot999) allowing
                                  (provisioned true 0 {[999; 998]})).2)) 7
    = members (whiteLists (provisioned true 0 {[999; 998]})) 7 ∖ {[999]}.
Proof.
  split.
  - apply (departure_of_another_account allowing (provisioned true 0 {[999]})
             (messageOf human) human); [discriminate | reflexivity].
  - apply (departure_of_another_account allowing (provisioned true 0 {[999; 998]})
             (messageOf human) bot999); [discriminate | reflexivity | reflexivity].
Defined.

(** X8: the moderator leaves a chat whose settings hold no creator field
    (a chat that was never provisioned): the read of the field comes back
    nil, which is an error, and the flow is fatal before any write. *)
Theorem departure_of_the_moderator_without_settings env st message leftChatMember :
  let chatID := Chat_ID (MsgChat message) in
  User_ID (Self env) = User_ID leftChatMember →
  redisDown env 0 = None →
  hashOf st chatID !! "creator" = None →
  run (processLeftUser message leftChatMember) env st
  = (Exit, mkWorld st [(Redis (HGet (groupKey chatID) "creator") NilReply, st)]).
Proof.
  intros chatID Hself Hup Hnone.
  unfold run, processLeftUser.
  munfold. unfold record, position, stringResult, replyErr. cbn.
  rewrite decide_True by done. cbn. rewrite Hup. cbn. fold chatID. by rewrite Hnone.
Qed.

Lemma departure_without_settings_witness :
  run (processLeftUser (messageOf human) hudor) allowing emptyStore
  = (Exit, mkWorld emptyStore [(Redis (HGet (groupKey 7) "creator") NilReply, emptyStore)]).
Proof.
  apply (departure_of_the_moderator_without_settings allowing emptyStore
           (messageOf human) hudor); reflexivity.
Defined.

(** ** Further properties: the dispatcher *)

(** X9: Start hands a message to one flow at most, by precedence.  The three
    moderation flows are only started for a message of a supergroup: the
    new-member flow when the message carries new members; the left-member
    flow when it carries none but a departed member; the bot-message flow
    when it carries neither and its sender is an automated account.  The
    command handler gets a message only when it is a command, and inside a
    supergroup only when none of the three flows took it: there a command
    sent by an automated account is never handled as a command. *)
Theorem moderation_only_in_supergroups update t :
  dispatch update = Some t →
  ∃ m, update = Some m
       ∧ match t with
         | NewUsersTask message users =>
             IsSuperGroup m = true ∧ message = Msg m ∧ NewChatMembers m = Some users
         | LeftUserTask message leftChatMember =>
             IsSuperGroup m = true ∧ message = Msg m
             ∧ NewChatMembers m = None ∧ LeftChatMember m = Some leftChatMember
         | BotMessageTask message =>
             IsSuperGroup m = true ∧ message = Msg m
             ∧ NewChatMembers m = None ∧ LeftChatMember m = None
             ∧ User_IsBot (From (Msg m)) = true
         | CommandTask message =>
             IsCommand m = true ∧ message = Msg m
             ∧ (IsSuperGroup m = true →
                NewChatMembers m = None ∧ LeftChatMember m = None
                ∧ User_IsBot (From (Msg m)) = false)
         end.
Proof.
  destruct update as [m|]; [|done]. cbn. intros H. exists m. split; [done|].
  destruct (IsSuperGroup m), (NewChatMembers m), (LeftChatMember m),
    (User_IsBot (From (Msg m))), (IsCommand m); by simplify_eq.
Qed.

Lemma moderation_only_in_supergroups_witness :
  ∃ m, Some (mkIncoming (messageOf bot999) true None None true) = Some m
       ∧ IsSuperGroup m = true ∧ messageOf bot999 = Msg m
       ∧ NewChatMembers m = None ∧ LeftChatMember m = None
       ∧ User_IsBot (From (Msg m)) = true.
Proof.
  apply (moderation_only_in_supergroups
           (Some (mkIncoming (messageOf bot999) true None None true))
           (BotMessageTask (messageOf bot999))).
  reflexivity.
Defined.

(** ** Further properties: what ends the process *)

Lemma exitsAtStore_bind {A B} (m : M A) (k : A → M B) env w :
  exitsAtStore m env w →
  (∀ a w1, exitsAtStore (k a) env w1) →
  exitsAtStore (m ≫= k) env w.
Proof.
  intros (o & w1 & seg & Hm & Htr & He) Hk.
  unfold exitsAtStore, mbind, M_bind, bind. rewrite Hm. destruct o as [a|].
  - destruct (Hk a w1) as (o' & w2 & seg' & Hk' & Htr' & He').
    exists o', w2, (seg ++ seg'). rewrite Hk', Htr', Htr, app_assoc.
    split; [done|]. split; [done|]. intros Ho.
    destruct (He' Ho) as (x & Hx & Hs). exists x. split; [|done].
    destruct seg' as [|y seg'] using rev_ind; [done|].
    rewrite app_assoc, last_snoc. by rewrite last_snoc in Hx.
  - exists Exit, w1, seg. auto.
Qed.

Lemma exitsAtStore_ret {A} (a : A) env w : exitsAtStore (mret a) env w.
Proof. exists (Val a), w, []. rewrite app_nil_r. done. Qed.

Ltac at_store :=
  segment; intros Ho; first [ discriminate Ho | by eexists ].

Lemma moderateNewUser_exits env w message gs user :
  exitsAtStore (moderateNewUser message gs user) env w.
Proof.
  unfold exitsAtStore. munfold. unfold record, intResult, boolResult, replyErr. paths.
  all: at_store.
Qed.

Lemma initGroup_exits env w message : exitsAtStore (initGroup message) env w.
Proof.
  unfold exitsAtStore, initGroup. munfold. unfold record. paths.
  all: at_store.
Qed.

Lemma forUsers_exits env body users :
  (∀ u w, exitsAtStore (body u) env w) →
  ∀ w, exitsAtStore (forUsers body users) env w.
Proof.
  intros Hbody. induction users as [|u rest IH]; intros w; cbn [forUsers].
  - apply exitsAtStore_ret.
  - apply exitsAtStore_bind; [apply Hbody|]. intros [] w1. apply IH.
Qed.

Lemma initLoop_exits env message users : ∀ gs w,
  exitsAtStore (initLoop message users gs) env w.
Proof.
  induction users as [|user rest IH]; intros gs w; cbn [initLoop].
  { apply exitsAtStore_ret. }
  apply exitsAtStore_bind.
  { exists (Val (Self env)), w, []. rewrite app_nil_r. done. }
  intros self w1. destruct (decide _); [|apply IH].
  apply exitsAtStore_bind; [apply initGroup_exits|].
  intros [settings|] w2; [apply IH | apply exitsAtStore_ret].
Qed.

Lemma loadSettings_exits env w message users :
  exitsAtStore (loadSettings message users) env w.
Proof.
  unfold loadSettings.
  set (chatID := Chat_ID (MsgChat message)).
  unfold exitsAtStore. unfold mbind at 1, M_bind at 1, bind at 1.
  destruct (findGroupByID chatID env w) as [o w1] eqn:Hf.
  assert (Hleaf : ∃ x, trace w1 = trace w ++ [x] ∧ storeCall x.1 = true
                       ∧ ∃ a, o = Val a).
  { revert Hf. munfold. unfold record. paths.
    all: intros [= <- <-]; eexists; split; [reflexivity|]; split; [reflexivity|]; eauto. }
  destruct Hleaf as (x & Htr & Hx & [gs err] & ->).
  destruct err as [e|].
  - exists Exit, w1, [x]. split; [done|]. split; [done|]. intros _. by exists x.
  - destruct (initLoop_exits env message users gs w1) as (o' & w2 & seg & Hi & Htr' & He).
    exists o', w2, ([x] ++ seg). split; [done|]. rewrite Htr', Htr, <- app_assoc.
    split; [done|]. intros Ho. destruct (He Ho) as (y & Hy & Hs).
    exists y. split; [|done].
    destruct seg as [|z seg] using rev_ind; [done|].
    rewrite app_assoc, last_snoc. by rewrite last_snoc in Hy.
Qed.

Lemma processNewUsers_exits env w message users :
  exitsAtStore (processNewUsers message users) env w.
Proof.
  unfold processNewUsers.
  apply exitsAtStore_bind; [apply loadSettings_exits|].
  intros [[gs|]|] w1; try apply exitsAtStore_ret.
  apply forUsers_exits. intros u w'. apply moderateNewUser_exits.
Qed.

Lemma processBotMessage_exits env w message :
  exitsAtStore (processBotMessage message) env w.
Proof.
  unfold exitsAtStore, processBotMessage.
  munfold. unfold record, intResult, boolResult, replyErr. paths.
  all: at_store.
Qed.

Lemma processLeftUser_exits env w message leftChatMember :
  exitsAtStore (processLeftUser message leftChatMember) env w.
Proof.
  unfold exitsAtStore, processLeftUser.
  munfold. unfold record, intResult, boolResult, stringResult, replyErr. paths.
  all: at_store.
Qed.

Lemma exits_run {A} (m : M A) env st :
  exitsAtStore m env (mkWorld st []) →
  (run m env st).1 = Exit →
  ∃ x, last (trace (run m env st).2) = Some x ∧ storeCall x.1 = true.
Proof.
  intros (o & w1 & seg & Hm & Htr & He). unfold run. rewrite Hm. cbn.
  rewrite Htr. cbn. apply He.
Qed.

(** X10: log.Fatal is only ever reached from a store call.  Whenever one of
    the three flows ends the process, the last call it made is a call to the
    store (a single command or a batch); no answer of the gateway, whatever
    its error, ends the process. *)
Theorem only_a_store_call_ends_the_process env st message users leftChatMember :
  ((run (processNewUsers message users) env st).1 = Exit →
   ∃ x, last (trace (run (processNewUsers message users) env st).2) = Some x
        ∧ storeCall x.1 = true)
  ∧ ((run (processLeftUser message leftChatMember) env st).1 = Exit →
     ∃ x, last (trace (run (processLeftUser message leftChatMember) env st).2) = Some x
          ∧ storeCall x.1 = true)
  ∧ ((run (processBotMessage message) env st).1 = Exit →
     ∃ x, last (trace (run (processBotMessage message) env st).2) = Some x
          ∧ storeCall x.1 = true).
Proof.
  split; [|split].
  - apply exits_run, processNewUsers_exits.
  - apply exits_run, processLeftUser_exits.
  - apply exits_run, processBotMessage_exits.
Qed.

Lemma only_a_store_call_witness :
  ∃ x, last (trace (run (processNewUsers (messageOf human) [bot999]) (storeDownAt 1)
                      (provisioned true 0 ∅)).2) = Some x
       ∧ storeCall x.1 = true.
Proof.
  destruct (only_a_store_call_ends_the_process (storeDownAt 1) (provisioned true 0 ∅)
              (messageOf human) [bot999] hudor) as [H _].
  apply H. vm_compute. reflexivity.
Defined.

(** ** Further properties: other chats *)

Lemma elsewhere_refl chatID st : elsewhere chatID st st.
Proof. by intros c Hc. Qed.

Lemma elsewhere_trans chatID st s s' :
  elsewhere chatID st s → elsewhere chatID s s' → elsewhere chatID st s'.
Proof.
  intros H1 H2 c Hc. destruct (H1 c Hc) as (A1 & B1 & C1 & D1).
  destruct (H2 c Hc) as (A2 & B2 & C2 & D2).
  split; [congruence|]. split; [congruence|]. split.
  - intros u. by rewrite C2.
  - intros a. by rewrite D2.
Qed.

Lemma elem_sadd (m : gmap Z (gset Z)) i x a c :
  c ≠ x → c ∈ members (sadd m i x) a ↔ c ∈ members m a.
Proof.
  intros Hne. unfold sadd. unfold members at 1.
  destruct (decide (i = a)) as [->|Hia].
  - rewrite lookup_insert_eq. cbn. rewrite elem_of_union, elem_of_singleton. tauto.
  - by rewrite lookup_insert_ne.
Qed.

Lemma elem_srem (m : gmap Z (gset Z)) i x a c :
  c ≠ x → c ∈ members (srem m i x) a ↔ c ∈ members m a.
Proof.
  intros Hne. destruct (decide (i = a)) as [->|Hia].
  - rewrite members_srem, elem_of_difference, elem_of_singleton. tauto.
  - unfold members. by rewrite srem_other.
Qed.

Ltac elsewhere_step :=
  intros ?c ?Hc; cbn -[Map];
  split; [|split; [|split]]; intros;
  rewrite ?elem_sadd, ?elem_srem by done;
  rewrite ?srem_other by congruence;
  unfold sadd;
  repeat first [ rewrite lookup_insert_ne by congruence
               | rewrite lookup_delete_ne by congruence ];
  done.

Lemma moderateNewUser_elsewhere env w message gs user :
  let chatID := Chat_ID (MsgChat message) in
  performs (moderateNewUser message gs user) env w
    (λ x, elsewhere chatID (store w) x.2) (λ _ s, elsewhere chatID (store w) s).
Proof.
  intros chatID. subst chatID. unfold performs.
  munfold. unfold record, intResult, boolResult, replyErr. paths.
  all: segment.
  all: split; [repeat first [ apply Forall_nil_2 | apply Forall_cons_2 ]|]; cbn.
  all: elsewhere_step.
Qed.

Lemma initGroup_elsewhere env w message :
  let chatID := Chat_ID (MsgChat message) in
  performs (initGroup message) env w
    (λ x, elsewhere chatID (store w) x.2) (λ _ s, elsewhere chatID (store w) s).
Proof.
  intros chatID. subst chatID. unfold performs, initGroup.
  munfold. unfold record. paths.
  all: segment.
  all: split; [repeat first [ apply Forall_nil_2 | apply Forall_cons_2 ]|]; cbn.
  all: elsewhere_step.
Qed.

Lemma initLoop_elsewhere env message st0 users : ∀ gs w,
  let chatID := Chat_ID (MsgChat message) in
  elsewhere chatID st0 (store w) →
  performs (initLoop message users gs) env w
    (λ x, elsewhere chatID st0 x.2) (λ _ s, elsewhere chatID st0 s).
Proof.
  induction users as [|user rest IH]; intros gs w chatID Hw; cbn [initLoop].
  { by apply performs_ret. }
  eapply performs_bind with (Q1 := λ _ s, elsewhere chatID st0 s).
  { exists (Val (Self env)), w, []. rewrite app_nil_r. done. }
  { done. }
  intros self w1 H1. destruct (decide _); [|by apply IH].
  eapply performs_bind with (Q1 := λ _ s, elsewhere chatID st0 s).
  - eapply performs_weaken; [apply initGroup_elsewhere| |]; cbn.
    + intros x Hx. by eapply elsewhere_trans.
    + intros o s Hs. by eapply elsewhere_trans.
  - done.
  - intros [settings|] w2 H2; [by apply IH | by apply performs_ret].
Qed.

Lemma loadSettings_elsewhere env message users st :
  let chatID := Chat_ID (MsgChat message) in
  performs (loadSettings message users) env (mkWorld st [])
    (λ x, elsewhere chatID st x.2) (λ _ s, elsewhere chatID st s).
Proof.
  intros chatID. unfold loadSettings.
  eapply performs_bind with (Q1 := λ _ s, elsewhere chatID st s).
  - unfold performs. munfold. unfold record. paths.
    all: segment.
    all: split; [repeat first [ apply Forall_nil_2 | apply Forall_cons_2 ]|]; cbn.
    all: apply elsewhere_refl.
  - done.
  - intros [gs [e|]] w1 H1.
    + exists Exit, w1, []. rewrite app_nil_r. done.
    + by apply initLoop_elsewhere.
Qed.

Lemma processNewUsers_elsewhere env st message users :
  let chatID := Chat_ID (MsgChat message) in
  performs (processNewUsers message users) env (mkWorld st [])
    (λ x, elsewhere chatID st x.2) (λ _ s, elsewhere chatID st s).
Proof.
  intros chatID. unfold processNewUsers.
  eapply performs_bind with (Q1 := λ _ s, elsewhere chatID st s).
  - apply loadSettings_elsewhere.
  - done.
  - intros [[gs|]|] w1 H1; try by apply performs_ret.
    eapply performs_weaken.
    + apply (performs_forUsers _ env (λ x, elsewhere chatID st x.2)
               (elsewhere chatID st) (elsewhere chatID st)); [done| |done].
      intros u w Hw. eapply performs_weaken; [apply moderateNewUser_elsewhere| |]; cbn.
      * intros x Hx. by eapply elsewhere_trans.
      * intros o s Hs. split; [|intros _]; by eapply elsewhere_trans.
    + done.
    + cbn. by intros o s [? _].
Qed.

Lemma processBotMessage_elsewhere env st message :
  let chatID := Chat_ID (MsgChat message) in
  performs (processBotMessage message) env (mkWorld st [])
    (λ x, elsewhere chatID st x.2) (λ _ s, elsewhere chatID st s).
Proof.
  intros chatID. subst chatID. unfold performs, processBotMessage.
  munfold. unfold record, intResult, boolResult, replyErr. paths.
  all: segment.
  all: split; [repeat first [ apply Forall_nil_2 | apply Forall_cons_2 ]|]; cbn.
  all: elsewhere_step.
Qed.

Lemma processLeftUser_elsewhere env st message leftChatMember :
  let chatID := Chat_ID (MsgChat message) in
  performs (processLeftUser message leftChatMember) env (mkWorld st [])
    (λ x, elsewhere chatID st x.2) (λ _ s, elsewhere chatID st s).
Proof.
  intros chatID. subst chatID. unfold performs, processLeftUser.
  munfold. unfold record, intResult, boolResult, stringResult, replyErr. paths.
  all: segment.
  all: split; [repeat first [ apply Forall_nil_2 | apply Forall_cons_2 ]|]; cbn.
  all: elsewhere_step.
Qed.

(** X11: the three flows work on the chat of their message only.  At every
    store observed during a flow, every other chat has the settings, the
    whitelist and the warn counters it had before, and is in the admin-group
    set of exactly the creators it was in before. *)
Theorem other_chats_are_untouched env st message users leftChatMember s :
  let chatID := Chat_ID (MsgChat message) in
  s ∈ observations (run (processNewUsers message users) env st).2
  ∨ s ∈ observations (run (processLeftUser message leftChatMember) env st).2
  ∨ s ∈ observations (run (processBotMessage message) env st).2 →
  ∀ c, c ≠ chatID →
    hashOf s c = hashOf st c
    ∧ members (whiteLists s) c = members (whiteLists st) c
    ∧ (∀ u, warnCounter s c u = warnCounter st c u)
    ∧ (∀ a, c ∈ members (adminGroups s) a ↔ c ∈ members (adminGroups st) a).
Proof.
  intros chatID Hs c Hc.
  assert (He : elsewhere chatID st s).
  { destruct Hs as [Hs|[Hs|Hs]]; revert Hs; eapply observed.
    - apply processNewUsers_elsewhere.
    - apply processLeftUser_elsewhere.
    - apply processBotMessage_elsewhere. }
  destruct (He c Hc) as (H1 & H2 & H3 & H4).
  unfold hashOf, members, warnCounter. rewrite H1, H2. repeat split; try done.
  - intros u. by rewrite H3.
  - apply H4.
  - apply H4.
Qed.

Lemma other_chats_witness :
  hashOf (store (run (processLeftUser (messageOf human) hudor) allowing
                   (provisioned true 2 {[999]})).2) 8
  = hashOf (provisioned true 2 {[999]}) 8
  ∧ members (whiteLists (store (run (processLeftUser (messageOf human) hudor) allowing
                                  (provisioned true 2 {[999]})).2)) 8
    = members (whiteLists (provisioned true 2 {[999]})) 8.
Proof.
  destruct (other_chats_are_untouched allowing (provisioned true 2 {[999]})
              (messageOf human) [] hudor
              (store (run (processLeftUser (messageOf human) hudor) allowing
                        (provisioned true 2 {[999]})).2)) with (c := 8)
    as (H1 & H2 & _).
  - right. left. apply list_elem_of_lookup. exists 2%nat. vm_compute. reflexivity.
  - discriminate.
  - split; [exact H1 | exact H2].
Defined.

(** ** Further properties: the gateway calls *)

Lemma performs_forUsers_each (body : User → M unit) env (P : User → entry → Prop) users :
  (∀ u w, performs (body u) env w (P u) (λ _ _, True)) →
  ∀ w, performs (forUsers body users) env w
         (λ x, ∃ u, u ∈ users ∧ P u x) (λ _ _, True).
Proof.
  intros Hbody. induction users as [|u rest IH]; intros w; cbn [forUsers].
  - by apply performs_ret.
  - eapply performs_bind with (Q1 := λ _ _, True).
    + eapply performs_weaken; [apply Hbody| |done].
      intros x Hx. exists u. split; [apply list_elem_of_here|done].
    + done.
    + intros [] w1 _. eapply performs_weaken; [apply IH| |done].
      intros x (u' & Hin & Hx). exists u'. split; [by apply list_elem_of_further|done].
Qed.

Ltac each_entry :=
  repeat first [ apply Forall_nil_2 | apply Forall_cons_2 ].

Lemma moderateNewUser_calls env w message gs user :
  let chatID := Chat_ID (MsgChat message) in
  let fromID := User_ID (From message) in
  performs (moderateNewUser message gs user) env w
    (λ x, inChat chatID x.1
          ∧ removesOnly chatID
              (λ uid, uid = fromID
                      ∨ (uid = User_ID user ∧ uid ≠ User_ID (Self env))) x.1)
    (λ _ _, True).
Proof.
  intros chatID fromID. subst chatID fromID. unfold performs.
  munfold. unfold record, intResult, boolResult, replyErr. paths.
  all: segment.
  all: split; [|done].
  all: each_entry; cbn.
  all: split; [intros ? [=]; done|]; cbn; auto.
Qed.

Lemma initGroup_calls env w message :
  let chatID := Chat_ID (MsgChat message) in
  performs (initGroup message) env w
    (λ x, inChat chatID x.1 ∧ removesOnly chatID (λ _, False) x.1) (λ _ _, True).
Proof.
  intros chatID. subst chatID. unfold performs, initGroup.
  munfold. unfold record. paths.
  all: segment.
  all: split; [|done].
  all: each_entry; cbn.
  all: split; [intros ? [=]; done|]; cbn; auto.
Qed.

Lemma initLoop_calls env message users : ∀ gs w,
  let chatID := Chat_ID (MsgChat message) in
  performs (initLoop message users gs) env w
    (λ x, inChat chatID x.1 ∧ removesOnly chatID (λ _, False) x.1) (λ _ _, True).
Proof.
  induction users as [|user rest IH]; intros gs w chatID; cbn [initLoop].
  { by apply performs_ret. }
  eapply performs_bind with (Q1 := λ _ _, True).
  { exists (Val (Self env)), w, []. rewrite app_nil_r. done. }
  { done. }
  intros self w1 _. destruct (decide _); [|by apply IH].
  eapply performs_bind; [apply initGroup_calls | done |].
  intros [settings|] w2 _; [by apply IH | by apply performs_ret].
Qed.

Lemma loadSettings_calls env message users w :
  let chatID := Chat_ID (MsgChat message) in
  performs (loadSettings message users) env w
    (λ x, inChat chatID x.1 ∧ removesOnly chatID (λ _, False) x.1) (λ _ _, True).
Proof.
  intros chatID. unfold loadSettings.
  eapply performs_bind with (Q1 := λ _ _, True).
  - unfold performs. munfold. unfold record. paths.
    all: segment.
    all: split; [|done].
    all: each_entry; cbn.
    all: split; [intros ? [=]|]; done.
  - done.
  - intros [gs [e|]] w1 _.
    + exists Exit, w1, []. rewrite app_nil_r. done.
    + by apply initLoop_calls.
Qed.

Lemma removesOnly_weaken chatID (P Q : Z → Prop) e :
  (∀ uid, P uid → Q uid) → removesOnly chatID P e → removesOnly chatID Q e.
Proof. intros H. destruct e; cbn; try done. intros [? ?]. auto. Qed.

Lemma processNewUsers_calls env st message users :
  let chatID := Chat_ID (MsgChat message) in
  let fromID := User_ID (From message) in
  performs (processNewUsers message users) env (mkWorld st [])
    (λ x, inChat chatID x.1
          ∧ removesOnly chatID
              (λ uid, uid = fromID
                      ∨ (uid ≠ User_ID (Self env)
                         ∧ ∃ u, u ∈ users ∧ User_ID u = uid)) x.1)
    (λ _ _, True).
Proof.
  intros chatID fromID. unfold processNewUsers.
  eapply performs_bind with (Q1 := λ _ _, True).
  - eapply performs_weaken; [apply loadSettings_calls| |done].
    intros x [H1 H2]. split; [done|]. revert H2. by apply removesOnly_weaken.
  - done.
  - intros [[gs|]|] w1 _; try by apply performs_ret.
    eapply performs_weaken.
    + apply performs_forUsers_each. intros u w. apply moderateNewUser_calls.
    + cbn. intros x (u & Hin & H1 & H2). split; [done|].
      revert H2. apply removesOnly_weaken. intros uid [->|[-> Hne]]; [by left|].
      right. split; [done|]. by exists u.
    + done.
Qed.

Lemma processBotMessage_calls env st message :
  let chatID := Chat_ID (MsgChat message) in
  let fromID := User_ID (From message) in
  performs (processBotMessage message) env (mkWorld st [])
    (λ x, inChat chatID x.1 ∧ removesOnly chatID (λ uid, uid = fromID) x.1
          ∧ ∀ msg err, x.1 ≠ Send msg err)
    (λ _ _, True).
Proof.
  intros chatID fromID. subst chatID fromID. unfold performs, processBotMessage.
  munfold. unfold record, intResult, boolResult, replyErr. paths.
  all: segment.
  all: split; [|done].
  all: each_entry; cbn.
  all: split; [intros ? [=]; done|]; cbn; auto.
Qed.

Lemma processLeftUser_calls env st message leftChatMember :
  performs (processLeftUser message leftChatMember) env (mkWorld st [])
    (λ x, storeCall x.1 = true) (λ _ _, True).
Proof.
  unfold performs, processLeftUser.
  munfold. unfold record, intResult, boolResult, stringResult, replyErr. paths.
  all: segment.
  all: split; [|done].
  all: each_entry; done.
Qed.

(** X12: whom the new-member flow may remove.  Every removal it asks of
    the gateway is a removal from the chat of the event, for good (the
    until-date 400 lies in the past), and its target is the originating
    actor or a joined account other than the moderator itself.  The
    originating actor is not compared with the moderator: the moderator is
    never the target when the actor is someone else. *)
Theorem removals_hit_only_joined_accounts_or_the_actor env st message users :
  let chatID := Chat_ID (MsgChat message) in
  let fromID := User_ID (From message) in
  Forall (λ x, ∀ cfg response err, x.1 = KickChatMember cfg response err →
            cfg = kickCfg chatID (Kick_UserID cfg)
            ∧ (Kick_UserID cfg = fromID
               ∨ (Kick_UserID cfg ≠ User_ID (Self env)
                  ∧ ∃ u, u ∈ users ∧ User_ID u = Kick_UserID cfg))
            ∧ (fromID ≠ User_ID (Self env) → Kick_UserID cfg ≠ User_ID (Self env)))
    (trace (run (processNewUsers message users) env st).2).
Proof.
  intros chatID fromID.
  destruct (performs_run _ _ _ _ _ (processNewUsers_calls env st message users)) as [H _].
  eapply Forall_impl; [exact H|]. cbn.
  intros x [_ Hx] cfg response err He. rewrite He in Hx.
  destruct Hx as [Hcfg Htarget]. split; [done|]. split; [done|].
  intros Hne. destruct Htarget as [->|[? _]]; done.
Qed.

(** X13: every gateway call of the new-member flow and of the
    unauthorized-message flow (fetching the administrators, a notice, a
    removal, a deletion, leaving) is made for the chat of the event, and the
    left-member flow makes no gateway call at all. *)
Theorem gateway_calls_stay_in_the_chat env st message users leftChatMember :
  let chatID := Chat_ID (MsgChat message) in
  Forall (λ x, ∀ c, gatewayChat x.1 = Some c → c = chatID)
    (trace (run (processNewUsers message users) env st).2)
  ∧ Forall (λ x, ∀ c, gatewayChat x.1 = Some c → c = chatID)
      (trace (run (processBotMessage message) env st).2)
  ∧ Forall (λ x, gatewayChat x.1 = None)
      (trace (run (processLeftUser message leftChatMember) env st).2).
Proof.
  intros chatID. split; [|split].
  - destruct (performs_run _ _ _ _ _ (processNewUsers_calls env st message users)) as [H _].
    eapply Forall_impl; [exact H|]. by intros x [Hx _].
  - destruct (performs_run _ _ _ _ _ (processBotMessage_calls env st message)) as [H _].
    eapply Forall_impl; [exact H|]. by intros x [Hx _].
  - destruct (performs_run _ _ _ _ _ (processLeftUser_calls env st message leftChatMember))
      as [H _].
    eapply Forall_impl; [exact H|]. intros [e s]; cbn. by destruct e.
Qed.

(** ** Further properties: what the flows write *)

Lemma hset_other (h : gmap Z (gmap string string)) k f v c f' :
  (c, f') ≠ (k, f) →
  default ∅ (<[k := <[f := v]> (default ∅ (h !! k))]> h !! c) !! f' = default ∅ (h !! c) !! f'.
Proof.
  intros Hne. destruct (decide (k = c)) as [->|Hk].
  - rewrite lookup_insert_eq. cbn. rewrite lookup_insert_ne; [done|]. congruence.
  - by rewrite lookup_insert_ne.
Qed.

(** X14: the unauthorized-message flow asks the gateway for nothing but the
    removal of the sender from the chat and the deletion of the message
    itself (it sends no notice), and the only thing it ever changes in the
    store is the isActive flag of the chat: whitelists, admin-group sets,
    warn counters and every other settings field stay as they were. *)
Theorem bot_message_flow_writes_only_the_flag env st message :
  let chatID := Chat_ID (MsgChat message) in
  let r := run (processBotMessage message) env st in
  Forall (λ x, botMessageCall message x.1 ∧ onlyFlag chatID st x.2) (trace r.2)
  ∧ onlyFlag chatID st (store r.2).
Proof.
  intros chatID r. subst r chatID.
  apply (performs_run _ env st
           (λ x, botMessageCall message x.1 ∧ onlyFlag (Chat_ID (MsgChat message)) st x.2)
           (λ _ s, onlyFlag (Chat_ID (MsgChat message)) st s)).
  assert (Hst : onlyFlag (Chat_ID (MsgChat message)) st st) by (by repeat split).
  unfold performs, processBotMessage.
  munfold. unfold record, intResult, boolResult, replyErr. paths.
  all: segment.
  all: split; [each_entry|]; unfold onlyFlag in *; cbn.
  all: repeat match goal with |- _ ∧ _ => split end; try done.
  all: intros c f Hne; unfold hashOf; cbn; by apply hset_other.
Qed.

Lemma members_srem_subseteq (m : gmap Z (gset Z)) i x a :
  members (srem m i x) a ⊆ members m a.
Proof.
  destruct (decide (i = a)) as [->|Hne].
  - rewrite members_srem. apply subseteq_difference_l. done.
  - unfold members. by rewrite srem_other.
Qed.

Lemma members_delete_subseteq (m : gmap Z (gset Z)) i a :
  members (delete i m) a ⊆ members m a.
Proof.
  unfold members. destruct (decide (i = a)) as [->|Hne].
  - rewrite lookup_delete_eq. cbn. apply empty_subseteq.
  - by rewrite lookup_delete_ne.
Qed.

Lemma delete_same_or_none (h : gmap Z (gmap string string)) i c :
  delete i h !! c = h !! c ∨ delete i h !! c = None.
Proof.
  destruct (decide (i = c)) as [->|Hne].
  - right. apply lookup_delete_eq.
  - left. by apply lookup_delete_ne.
Qed.

(** X15: the left-member flow talks to the store only, and it only ever
    takes away: a settings hash is as it was or gone, whitelists and
    admin-group sets lose members at most, and no warn counter is touched
    (the counters of a chat outlive the moderator's departure). *)
Theorem departure_only_takes_away env st message leftChatMember :
  let r := run (processLeftUser message leftChatMember) env st in
  Forall (λ x, storeCall x.1 = true ∧ shrinks st x.2) (trace r.2)
  ∧ shrinks st (store r.2).
Proof.
  intros r. subst r.
  apply (performs_run _ env st (λ x, storeCall x.1 = true ∧ shrinks st x.2)
           (λ _ s, shrinks st s)).
  assert (Hst : shrinks st st).
  { split; [done|]. split; [by left|]. split; done. }
  unfold performs, processLeftUser.
  munfold. unfold record, intResult, boolResult, stringResult, replyErr. paths.
  all: segment.
  all: split; [each_entry|]; cbn.
  all: repeat match goal with |- _ ∧ _ => split end; try done.
  all: unfold shrinks; cbn.
  all: repeat match goal with |- _ ∧ _ => split end; try done.
  all: intros; try (by left); try done.
  all: first [ apply delete_same_or_none
             | apply members_delete_subseteq
             | apply members_srem_subseteq
             | etrans; [apply members_srem_subseteq | apply members_delete_subseteq] ].
Qed.

(** ** Further properties: the joining moderator *)

(** What initGroup returns, when it returns settings: the defaults, written
    over whatever the chat had, so that the chat is inactive. *)
Lemma initGroup_result env w message :
  let chatID := Chat_ID (MsgChat message) in
  performs (initGroup message) env w settingsCall
    (λ o s, ∀ g, o = Val (Some g) →
       (∃ creator, g = defaultSettings creator message) ∧ activeIn s chatID = false).
Proof.
  intros chatID. subst chatID. unfold performs, initGroup.
  munfold. unfold record. paths.
  all: segment.
  all: split; [each_entry; done|].
  all: intros g [= <-] || (intros g Hg; discriminate Hg).
  all: split; [by eexists|].
  all: unfold activeIn, hashOf; cbn -[Map]; rewrite lookup_insert_eq; cbn -[Map].
  all: apply bool_decide_eq_false_2.
  all: erewrite lookup_union_Some_l by apply Map_default_inactive; done.
Qed.

Lemma initLoop_result env message users : ∀ gs w,
  let chatID := Chat_ID (MsgChat message) in
  performs (initLoop message users gs) env w settingsCall
    (λ o s, ∀ g, o = Val (Some (Some g)) →
       (Some g = gs ∧ Forall (notSelf env) users ∧ s = store w)
       ∨ ((∃ creator, g = defaultSettings creator message)
          ∧ activeIn s chatID = false)).
Proof.
  induction users as [|user rest IH]; intros gs w chatID; cbn [initLoop].
  { apply performs_ret. intros g [= <-]. left. split; [done|]. split; [apply Forall_nil_2|done]. }
  eapply performs_bind with (Q1 := λ o s, s = store w ∧ o = Val (Self env)).
  { exists (Val (Self env)), w, []. rewrite app_nil_r. done. }
  { by intros s [_ ?]. }
  intros self w1 [Hw1 [= ->]]. destruct (decide _) as [Heq|Hne].
  - eapply performs_bind; [apply initGroup_result | by intros s H g Hg |].
    intros [settings|] w2 H2.
    + destruct (H2 settings eq_refl) as [Hdef Hact].
      eapply performs_weaken; [apply IH|done|]. cbn.
      intros o s Hres g Hg. right.
      destruct (Hres g Hg) as [(Hs & _ & ->)|Hr]; [|done].
      injection Hs as ->. done.
    + apply performs_ret. intros g Hg. discriminate Hg.
  - eapply performs_weaken; [apply IH|done|]. cbn.
    intros o s Hres g Hg.
    destruct (Hres g Hg) as [(Hs & Hrest & ->)|Hr]; [|by right].
    left. split; [done|]. split; [by apply Forall_cons_2|done].
Qed.

Lemma loadSettings_result env message users st :
  let chatID := Chat_ID (MsgChat message) in
  performs (loadSettings message users) env (mkWorld st []) settingsCall
    (λ o s, ∀ g, o = Val (Some (Some g)) →
       (Forall (notSelf env) users ∧ s = st)
       ∨ ((∃ creator, g = defaultSettings creator message)
          ∧ activeIn s chatID = false)).
Proof.
  intros chatID. unfold loadSettings.
  eapply performs_bind with (Q1 := λ _ s, s = st).
  - unfold performs. munfold. unfold record. paths.
    all: segment.
    all: split; [each_entry; done|]; done.
  - intros s _ g Hg. discriminate Hg.
  - intros [gs [e|]] w1 H1.
    + exists Exit, w1, []. rewrite app_nil_r. split; [done|]. split; [done|].
      split; [done|]. intros g Hg. discriminate Hg.
    + eapply performs_weaken; [apply initLoop_result|done|]. cbn.
      intros o s Hres g Hg. destruct (Hres g Hg) as [(_ & Hu & ->)|Hr]; [|by right].
      left. by rewrite <- H1.
Qed.

(** Under settings that say inactive only the creator path makes calls. *)
Lemma moderateNewUser_idle env w message gs user :
  let chatID := Chat_ID (MsgChat message) in
  IsActive gs = false →
  activeIn (store w) chatID = false →
  performs (moderateNewUser message gs user) env w
    (λ x, whitelisting chatID x) (λ _ s, activeIn s chatID = false).
Proof.
  intros chatID Hgs Hw. subst chatID. unfold performs.
  munfold. unfold record, intResult, boolResult, replyErr. rewrite Hgs. paths.
  all: segment.
  all: split; [each_entry; done|]; cbn; done.
Qed.

(** X16: the event in which the moderator itself joins, when it yields
    settings.  The settings the second loop works with are the defaults
    initGroup has just written, whatever the chat had before; so the flow
    makes no removal, no increment and no deactivation: after the calls of
    the initialization, only the whitelist adds (and confirmations) of the
    creator path follow, and the chat is inactive when the event ends. *)
Theorem joining_moderator_removes_nobody env st message users gs w0 :
  let chatID := Chat_ID (MsgChat message) in
  let r := run (processNewUsers message users) env st in
  Exists (λ u, User_ID u = User_ID (Self env)) users →
  loadSettings message users env (mkWorld st []) = (Val (Some (Some gs)), w0) →
  (∃ creator, gs = defaultSettings creator message)
  ∧ Forall (λ x, settingsCall x ∨ whitelisting chatID x) (trace r.2)
  ∧ activeIn (store r.2) chatID = false.
Proof.
  intros chatID r Hself Hload. subst r.
  destruct (loadSettings_result env message users st)
    as (o & w1 & pre & Hm & Htr & Hpre & Hres).
  rewrite Hload in Hm. injection Hm as <- <-.
  destruct (Hres gs eq_refl) as [[Hno _]|[Hdef Hact]].
  { exfalso. apply Exists_exists in Hself as (u & Hin & Hu).
    rewrite Forall_forall in Hno. by apply (Hno u Hin). }
  split; [done|].
  assert (Hgs : IsActive gs = false) by (by destruct Hdef as [creator ->]).
  assert (Hloop : performs (forUsers (moderateNewUser message gs) users) env w0
            (λ x, whitelisting chatID x)
            (λ o s, activeIn s chatID = false ∧ (o = Val tt → activeIn s chatID = false))).
  { apply (performs_forUsers _ env (λ x, whitelisting chatID x)
             (λ s, activeIn s chatID = false) (λ s, activeIn s chatID = false));
      [done| |done].
    intros u w Hw. eapply performs_weaken; [by apply moderateNewUser_idle|done|]. cbn. done. }
  destruct Hloop as (o & w2 & seg & Hf & Htr2 & Hseg & Hfin & _).
  unfold run, processNewUsers, mbind, M_bind, bind. rewrite Hload, Hf. cbn.
  rewrite Htr2, Htr. cbn. split; [|done].
  apply Forall_app. split.
  - eapply Forall_impl; [exact Hpre|]. by left.
  - eapply Forall_impl; [exact Hseg|]. by right.
Qed.

Lemma joining_moderator_witness :
  (∃ creator, settings false = defaultSettings creator (messageOf human))
  ∧ Forall (λ x, settingsCall x ∨ whitelisting 7 x)
      (trace (run (processNewUsers (messageOf human) [bot999; hudor; bot998]) allowing
                (provisioned true 2 ∅)).2)
  ∧ activeIn (store (run (processNewUsers (messageOf human) [bot999; hudor; bot998])
                       allowing (provisioned true 2 ∅)).2) 7 = false.
Proof.
  apply (joining_moderator_removes_nobody allowing (provisioned true 2 ∅)
           (messageOf human) [bot999; hudor; bot998] (settings false)
           (loadSettings (messageOf human) [bot999; hudor; bot998] allowing
              (mkWorld (provisioned true 2 ∅) [])).2).
  - apply Exists_cons_tl, Exists_cons_hd. reflexivity.
  - vm_compute. reflexivity.
Defined.

(** ** Further properties: what a counter write and a warning rest on *)

Lemma moderateNewUser_causes env w message gs user :
  let R := causeProtocol (Chat_ID (MsgChat message)) (User_ID (From message)) gs in
  ∃ o w1 seg,
    moderateNewUser message gs user env w = (o, w1)
    ∧ trace w1 = trace w ++ seg
    ∧ ∀ next, allSuffixes R next → continues next →
        allSuffixes R (seg ++ next) ∧ continues (seg ++ next).
Proof.
  munfold. unfold record, intResult, boolResult, replyErr.
  paths.
  all: do 2 eexists.
  all: cbn [trace]; rewrite <- ?app_assoc; cbn [app].
  all: eexists; split; [reflexivity|]; split; [try reflexivity; rewrite app_nil_r; reflexivity|].
  all: intros next Hn Hc; cbn [app].
  all: split; [| try assumption; intros x [= <-]; do 3 eexists; cbn; eauto ].
  all: try assumption.
  all: cbn [allSuffixes].
  all: repeat match goal with |- _ ∧ _ => split end; try assumption.
  all: intros x Hx; cbn in Hx;
       first [ injection Hx as <-; cbn
             | apply Hc in Hx; destruct Hx as (k' & m & r' & [H|H]); rewrite H; exact I ].
  all: try exact I.
  all: unfold succeeded.
  all: try (eexists _, _, _; split; [reflexivity|]; assumption).
  all: try (eexists _, _; split; [reflexivity|]; assumption).
  all: repeat match goal with |- _ ∧ _ => split end; try done; try lia.
  all: unfold warnCounter; cbn; by rewrite lookup_insert_eq.
Qed.

Lemma forUsers_suffixes (R : entry → list entry → Prop) (body : User → M unit) env users :
  (∀ u w, ∃ o w1 seg,
     body u env w = (o, w1) ∧ trace w1 = trace w ++ seg
     ∧ ∀ next, allSuffixes R next → continues next →
         allSuffixes R (seg ++ next) ∧ continues (seg ++ next)) →
  ∀ w, ∃ seg, trace (forUsers body users env w).2 = trace w ++ seg
         ∧ allSuffixes R seg ∧ continues seg.
Proof.
  intros Hbody. induction users as [|user rest IH]; intros w.
  { exists []. rewrite app_nil_r. done. }
  cbn [forUsers]. unfold mbind at 1, M_bind at 1, bind at 1.
  destruct (Hbody user w) as (o & w1 & seg & -> & Htr & Hk).
  destruct o as [[]|].
  - destruct (IH w1) as (seg' & Heq & Hall & Hhead).
    exists (seg ++ seg'). rewrite Heq, Htr, app_assoc. split; [done|]. by apply Hk.
  - exists seg. cbn. split; [done|]. rewrite <- (app_nil_r seg). by apply Hk.
Qed.

Lemma causeProtocol_head chatID fromID gs a x rest :
  settingsCall x ∨ opensAccount x → causeProtocol chatID fromID gs a (x :: rest).
Proof.
  intros Hx y [= <-]. destruct Hx as [Hx|(k & m & r & [-> | ->])]; [|done..].
  unfold settingsCall in Hx. destruct x.1 as [c r| | |msg ?| | |]; try done.
  - by destruct c.
  - by destruct msg.
Qed.

Lemma causeProtocol_prefix chatID fromID gs (pre l : list entry) :
  Forall settingsCall pre → continues l →
  allSuffixes (causeProtocol chatID fromID gs) l →
  allSuffixes (causeProtocol chatID fromID gs) (pre ++ l)
  ∧ ∀ x, head (pre ++ l) = Some x → settingsCall x ∨ opensAccount x.
Proof.
  intros Hpre Hc Hl. induction Hpre as [|a pre Ha Hpre [IH1 IH2]]; cbn.
  { split; [done|]. intros x Hx. right. by apply Hc. }
  split; [|intros x [= <-]; by left]. split; [|done].
  destruct (pre ++ l) as [|b rest] eqn:Hb; [by intros x Hx|].
  apply causeProtocol_head, IH2. done.
Qed.

Lemma processNewUsers_causes env st message users :
  let chatID := Chat_ID (MsgChat message) in
  let fromID := User_ID (From message) in
  let tr := trace (run (processNewUsers message users) env st).2 in
  (∀ x, head tr = Some x → settingsCall x ∨ opensAccount x)
  ∧ ∃ gs0, allSuffixes (causeProtocol chatID fromID gs0) tr
      ∧ ∀ gs w0, loadSettings message users env (mkWorld st []) = (Val (Some (Some gs)), w0) →
          gs = gs0.
Proof.
  intros chatID fromID tr. subst tr. unfold run, processNewUsers.
  destruct (loadSettings_result env message users st)
    as (o & w1 & pre & Hm & Htr & Hpre & _).
  unfold mbind, M_bind, bind. rewrite Hm. cbn in Htr.
  set (none := mkSettings false false 0 0 "" "").
  assert (Hend : ∀ gs0, allSuffixes (causeProtocol chatID fromID gs0) (pre ++ [])
                 ∧ ∀ x, head (pre ++ []) = Some x → settingsCall x ∨ opensAccount x).
  { intros gs0. apply causeProtocol_prefix; [done| |done]. by intros x Hx. }
  destruct o as [[[gs|]|]|]; cbn.
  - destruct (forUsers_suffixes (causeProtocol chatID fromID gs)
                (moderateNewUser message gs) env users
                (λ u w, moderateNewUser_causes env w message gs u) w1)
      as (seg & -> & Hall & Hc).
    rewrite Htr. cbn.
    destruct (causeProtocol_prefix chatID fromID gs pre seg Hpre Hc Hall) as [H1 H2].
    split; [done|]. exists gs. split; [done|]. by intros gs' w0 [= <- <-].
  - rewrite Htr. cbn. rewrite <- (app_nil_r pre). destruct (Hend none) as [H1 H2].
    split; [done|]. exists none. split; [done|]. intros gs' w0 Hg. discriminate Hg.
  - rewrite Htr. cbn. rewrite <- (app_nil_r pre). destruct (Hend none) as [H1 H2].
    split; [done|]. exists none. split; [done|]. intros gs' w0 Hg. discriminate Hg.
  - rewrite Htr. cbn. rewrite <- (app_nil_r pre). destruct (Hend none) as [H1 H2].
    split; [done|]. exists none. split; [done|]. intros gs' w0 Hg. discriminate Hg.
Qed.

(** The call before an entry that is neither a settings call nor the first
    call for an account. *)
Lemma cause_at chatID fromID gs (tr : list entry) i x :
  (∀ y, head tr = Some y → settingsCall y ∨ opensAccount y) →
  allSuffixes (causeProtocol chatID fromID gs) tr →
  tr !! i = Some x →
  ¬ (settingsCall x ∨ opensAccount x) →
  ∃ j a, i = S j ∧ tr !! j = Some a
         ∧ causeProtocol chatID fromID gs a (x :: drop (S i) tr).
Proof.
  intros Hhead Hall Hi Hx. destruct i as [|j].
  { exfalso. apply Hx, Hhead. by destruct tr. }
  destruct (tr !! j) as [a|] eqn:Hj.
  - exists j, a. split; [done|]. split; [done|].
    pose proof (allSuffixes_lookup _ _ _ _ Hall Hj) as HR.
    intros y [= <-]. apply HR. by rewrite head_drop.
  - apply lookup_ge_None_1 in Hj. apply lookup_lt_Some in Hi. exfalso.
    unfold entry in *. lia.
Qed.

(** X17: in the new-member flow a warn counter is only written right after
    a removal that succeeded.  Every increment, and every deletion of a
    counter entry, is the call that directly follows a removal the gateway
    carried out; for a deletion that removal is the one of the originating
    actor.  After a denied or failed removal no counter changes. *)
Theorem counter_writes_follow_successful_removals env st message users i k r s :
  let chatID := Chat_ID (MsgChat message) in
  let fromID := User_ID (From message) in
  let tr := trace (run (processNewUsers message users) env st).2 in
  tr !! i = Some (Redis (Incr k) r, s) ∨ tr !! i = Some (Redis (Del k) r, s) →
  ∃ j cfg response err s',
    i = S j
    ∧ tr !! j = Some (KickChatMember cfg response err, s')
    ∧ succeeded response err
    ∧ (tr !! i = Some (Redis (Del k) r, s) → cfg = kickCfg chatID fromID).
Proof.
  intros chatID fromID tr Hi.
  destruct (processNewUsers_causes env st message users) as (Hhead & gs0 & Hall & _).
  fold tr in Hhead, Hall. fold chatID fromID in Hall.
  destruct Hi as [Hi|Hi].
  - destruct (cause_at _ _ _ _ _ _ Hhead Hall Hi) as (j & [e s'] & -> & Hj & Hc).
    { intros [H|(k' & m & r' & [H|H])]; done. }
    destruct (Hc _ eq_refl) as (cfg & response & err & He & Hs). cbn in He. subst e.
    exists j, cfg, response, err, s'. repeat split; try done.
    intros Hd. rewrite Hi in Hd. discriminate Hd.
  - destruct (cause_at _ _ _ _ _ _ Hhead Hall Hi) as (j & [e s'] & -> & Hj & Hc).
    { intros [H|(k' & m & r' & [H|H])]; done. }
    destruct (Hc _ eq_refl) as (response & err & He & Hs). cbn in He. subst e.
    exists j, (kickCfg chatID fromID), response, err, s'. repeat split; done.
Qed.

Lemma counter_writes_witness :
  ∃ j cfg response err s',
    3%nat = S j
    ∧ trace (run (processNewUsers (messageOf human) [bot999]) allowing
               (provisioned true 0 ∅)).2 !! j
      = Some (KickChatMember cfg response err, s')
    ∧ succeeded response err.
Proof.
  destruct (counter_writes_follow_successful_removals allowing (provisioned true 0 ∅)
              (messageOf human) [bot999] 3%nat (membersKey 7 200) (IntReply 1)
              (mkStore {[ 7 := Map (settings true) ]} ∅ {[ 100 := {[ 7 ]} ]}
                       {[ (7, 200) := 1 ]}))
    as (j & cfg & response & err & s' & H1 & H2 & H3 & _).
  - left. vm_compute. reflexivity.
  - by exists j, cfg, response, err, s'.
Defined.

(** X18: every warning the new-member flow sends is the call that directly
    follows an increment of the counter of (chat, originating actor); it is
    sent to the chat of the event, only when the settings ask for warnings,
    and it states the value the increment returned (which the store holds at
    that moment and which is below the limit) and the limit of the
    settings. *)
Theorem warnings_report_the_new_count env st message users gs w0 i c current limit err s :
  let chatID := Chat_ID (MsgChat message) in
  let fromID := User_ID (From message) in
  let tr := trace (run (processNewUsers message users) env st).2 in
  loadSettings message users env (mkWorld st []) = (Val (Some (Some gs)), w0) →
  tr !! i = Some (Send (warnUser c current limit) err, s) →
  c = chatID ∧ limit = Limit gs ∧ current < Limit gs ∧ ShowWarn gs = true
  ∧ warnCounter s chatID fromID = current
  ∧ ∃ j s', i = S j
      ∧ tr !! j = Some (Redis (Incr (membersKey chatID fromID)) (IntReply current), s').
Proof.
  intros chatID fromID tr Hload Hi.
  destruct (processNewUsers_causes env st message users) as (Hhead & gs0 & Hall & Hgs).
  fold tr in Hhead, Hall. fold chatID fromID in Hall.
  rewrite <- (Hgs gs w0 Hload) in Hall.
  destruct (cause_at _ _ _ _ _ _ Hhead Hall Hi) as (j & [e s'] & -> & Hj & Hc).
  { intros [H|(k' & m & r' & [H|H])]; done. }
  destruct (Hc _ eq_refl) as (He & -> & -> & Hlt & Hshow & Hcount). cbn in He. subst e.
  repeat split; try done. by exists j, s'.
Qed.

Lemma warnings_witness :
  ∃ j s', 4%nat = S j
    ∧ trace (run (processNewUsers (messageOf human) [bot999]) allowing
               (provisioned true 0 ∅)).2 !! j
      = Some (Redis (Incr (membersKey 7 200)) (IntReply 1), s').
Proof.
  destruct (warnings_report_the_new_count allowing (provisioned true 0 ∅)
              (messageOf human) [bot999] (settings true)
              (loadSettings (messageOf human) [bot999] allowing
                 (mkWorld (provisioned true 0 ∅) [])).2
              4%nat 7 1 3 None
              (mkStore {[ 7 := Map (settings true) ]} ∅ {[ 100 := {[ 7 ]} ]}
                       {[ (7, 200) := 1 ]}))
    as (_ & _ & _ & _ & _ & H).
  - vm_compute. reflexivity.
  - vm_compute. reflexivity.
  - exact H.
Defined.

(** ** Further properties: what the new-member flow keeps *)

Lemma grows_refl st : grows st st.
Proof. by repeat split. Qed.

Lemma grows_trans st s s' : grows st s → grows s s' → grows st s'.
Proof.
  intros (Ha & Hb & Hc) (Ha' & Hb' & Hc'). split; [|split].
  - intros c. etrans; [apply Ha | apply Ha'].
  - intros a. etrans; [apply Hb | apply Hb'].
  - intros c f H. by apply Hc', Hc.
Qed.

Lemma members_sadd_subseteq (m : gmap Z (gset Z)) i x a :
  members m a ⊆ members (sadd m i x) a.
Proof.
  destruct (decide (i = a)) as [->|Hne].
  - rewrite members_sadd. apply union_subseteq_r.
  - unfold sadd, members. by rewrite lookup_insert_ne.
Qed.

Lemma hset_keeps_fields (h : gmap Z (gmap string string)) k f v c f' :
  is_Some (default ∅ (h !! c) !! f') →
  is_Some (default ∅ (<[k := <[f := v]> (default ∅ (h !! k))]> h !! c) !! f').
Proof.
  intros H. destruct (decide (k = c)) as [->|Hk].
  - rewrite lookup_insert_eq. cbn. destruct (decide (f = f')) as [->|Hf].
    + rewrite lookup_insert_eq. by eexists.
    + by rewrite lookup_insert_ne.
  - by rewrite lookup_insert_ne.
Qed.

Lemma hmset_keeps_fields (h : gmap Z (gmap string string)) k (fields : gmap string string) c f' :
  is_Some (default ∅ (h !! c) !! f') →
  is_Some (default ∅ (<[k := fields ∪ default ∅ (h !! k)]> h !! c) !! f').
Proof.
  intros H. destruct (decide (k = c)) as [->|Hk].
  - rewrite lookup_insert_eq. cbn. apply lookup_union_is_Some. by right.
  - by rewrite lookup_insert_ne.
Qed.

Ltac grows_step :=
  unfold grows, hashOf; cbn -[Map]; split; [|split]; intros;
  lazymatch goal with
  | |- members ?m _ ⊆ members ?m _ => reflexivity
  | |- members _ _ ⊆ members (sadd _ _ _) _ => apply members_sadd_subseteq
  | |- is_Some (default ∅ (<[_ := <[_ := _]> _]> _ !! _) !! _) =>
      apply hset_keeps_fields; assumption
  | |- is_Some (default ∅ (<[_ := _ ∪ _]> _ !! _) !! _) =>
      apply hmset_keeps_fields; assumption
  | |- is_Some _ => assumption
  end.

Lemma moderateNewUser_grows env w message gs user :
  performs (moderateNewUser message gs user) env w
    (λ x, grows (store w) x.2) (λ _ s, grows (store w) s).
Proof.
  unfold performs.
  munfold. unfold record, intResult, boolResult, replyErr. paths.
  all: segment.
  all: split; [each_entry|]; cbn -[Map].
  all: grows_step.
Qed.

Lemma initGroup_grows env w message :
  performs (initGroup message) env w
    (λ x, grows (store w) x.2) (λ _ s, grows (store w) s).
Proof.
  unfold performs, initGroup.
  munfold. unfold record. paths.
  all: segment.
  all: split; [each_entry|]; cbn -[Map].
  all: grows_step.
Qed.

Lemma initLoop_grows env message st0 users : ∀ gs w,
  grows st0 (store w) →
  performs (initLoop message users gs) env w
    (λ x, grows st0 x.2) (λ _ s, grows st0 s).
Proof.
  induction users as [|user rest IH]; intros gs w Hw; cbn [initLoop].
  { by apply performs_ret. }
  eapply performs_bind with (Q1 := λ _ s, grows st0 s).
  { exists (Val (Self env)), w, []. rewrite app_nil_r. done. }
  { done. }
  intros self w1 H1. destruct (decide _); [|by apply IH].
  eapply performs_bind with (Q1 := λ _ s, grows st0 s).
  - eapply performs_weaken; [apply initGroup_grows| |]; cbn.
    + intros x Hx. by eapply grows_trans.
    + intros o s Hs. by eapply grows_trans.
  - done.
  - intros [settings|] w2 H2; [by apply IH | by apply performs_ret].
Qed.

Lemma loadSettings_grows env message users st :
  performs (loadSettings message users) env (mkWorld st [])
    (λ x, grows st x.2) (λ _ s, grows st s).
Proof.
  unfold loadSettings.
  eapply performs_bind with (Q1 := λ _ s, grows st s).
  - unfold performs. munfold. unfold record. paths.
    all: segment.
    all: split; [each_entry|]; cbn.
    all: apply grows_refl.
  - done.
  - intros [gs [e|]] w1 H1.
    + exists Exit, w1, []. rewrite app_nil_r. done.
    + by apply initLoop_grows.
Qed.

(** X19: the new-member flow takes nothing away from the settings, the
    whitelists and the admin-group sets: at every store observed during the
    flow and at its end, every whitelist and every admin-group set contains
    what it contained before, and every settings field that was present
    still is.  The only entries it ever deletes are warn counters. *)
Theorem new_member_flow_never_takes_away env st message users :
  let r := run (processNewUsers message users) env st in
  Forall (λ x, grows st x.2) (trace r.2) ∧ grows st (store r.2).
Proof.
  intros r. subst r.
  apply (performs_run _ env st (λ x, grows st x.2) (λ _ s, grows st s)).
  unfold processNewUsers.
  eapply performs_bind with (Q1 := λ _ s, grows st s).
  - apply loadSettings_grows.
  - done.
  - intros [[gs|]|] w1 H1; try by apply performs_ret.
    eapply performs_weaken.
    + apply (performs_forUsers _ env (λ x, grows st x.2) (grows st) (grows st));
        [done| |done].
      intros u w Hw. eapply performs_weaken; [apply moderateNewUser_grows| |]; cbn.
      * intros x Hx. by eapply grows_trans.
      * intros o s Hs. split; [|intros _]; by eapply grows_trans.
    + done.
    + cbn. by intros o s [? _].
Qed.

Lemma moderateNewUser_stranger env w message gs user :
  User_ID (From message) ≠ Creator gs →
  performs (moderateNewUser message gs user) env w
    (λ x, whiteLists x.2 = whiteLists (store w))
    (λ _ s, whiteLists s = whiteLists (store w)).
Proof.
  intros Hne. unfold performs.
  munfold. unfold record, intResult, boolResult, replyErr.
  destruct (decide (User_ID user = User_ID (Self env))).
  { cbn. segment. done. }
  rewrite decide_False by done. paths.
  all: segment.
  all: split; [each_entry|]; cbn; done.
Qed.

(** X20: only the creator's events change a whitelist.  When the sender of
    a new-member event is not the creator the settings name, the whitelists
    are at every store observed during the flow, and at its end, what they
    were before. *)
Theorem only_the_creator_changes_the_whitelist env st message users gs w0 :
  let r := run (processNewUsers message users) env st in
  loadSettings message users env (mkWorld st []) = (Val (Some (Some gs)), w0) →
  User_ID (From message) ≠ Creator gs →
  Forall (λ x, whiteLists x.2 = whiteLists st) (trace r.2)
  ∧ whiteLists (store r.2) = whiteLists st.
Proof.
  intros r Hload Hne. subst r.
  destruct (loadSettings_keeps env message users (mkWorld st []))
    as (o & w1 & pre & Hm & Htr & Hpre & Hst).
  rewrite Hload in Hm. injection Hm as <- <-. cbn in Htr, Hst, Hpre.
  destruct Hst as (Hwl & _ & _).
  assert (Hloop : performs (forUsers (moderateNewUser message gs) users) env w0
            (λ x, whiteLists x.2 = whiteLists st)
            (λ o s, whiteLists s = whiteLists st ∧ (o = Val tt → whiteLists s = whiteLists st))).
  { apply (performs_forUsers _ env (λ x, whiteLists x.2 = whiteLists st)
             (λ s, whiteLists s = whiteLists st) (λ s, whiteLists s = whiteLists st));
      [done| |done].
    intros u w Hw. eapply performs_weaken; [by apply moderateNewUser_stranger| |]; cbn.
    - intros x Hx. congruence.
    - intros o s Hs. split; [|intros _]; congruence. }
  destruct Hloop as (o & w2 & seg & Hf & Htr2 & Hseg & Hfin & _).
  unfold run, processNewUsers, mbind, M_bind, bind. rewrite Hload, Hf. cbn.
  rewrite Htr2, Htr. cbn. split; [|done].
  apply Forall_app. split; [|done].
  eapply Forall_impl; [exact Hpre|]. by intros x (_ & ? & _).
Qed.

Lemma only_the_creator_witness :
  whiteLists (store (run (processNewUsers (messageOf human) [bot999; bot998]) allowing
                       (provisioned true 0 {[998]})).2)
  = whiteLists (provisioned true 0 {[998]}).
Proof.
  apply (only_the_creator_changes_the_whitelist allowing (provisioned true 0 {[998]})
           (messageOf human) [bot999; bot998] (settings true)
           (loadSettings (messageOf human) [bot999; bot998] allowing
              (mkWorld (provisioned true 0 {[998]}) [])).2).
  - vm_compute. reflexivity.
  - discriminate.
Defined.

(** ** Further properties: no joined account is left out *)

Lemma moderateNewUser_opens env w message gs user :
  User_ID (From message) = Creator gs ∨ IsActive gs = true →
  ∃ o w1 seg,
    moderateNewUser message gs user env w = (o, w1)
    ∧ trace w1 = trace w ++ seg
    ∧ (o = Val tt →
       omap opened seg.*1
       = if decide (User_ID user = User_ID (Self env)) then [] else [User_ID user]).
Proof.
  intros Hgs. munfold. unfold record, intResult, boolResult, replyErr.
  destruct (decide (User_ID user = User_ID (Self env))) as [Hs|Hs].
  { cbn. exists (Val tt), w, []. by rewrite app_nil_r. }
  destruct (decide (User_ID (From message) = Creator gs)) as [Hc|Hc].
  - paths. all: segment. all: intros Ho; try discriminate Ho; reflexivity.
  - destruct Hgs as [?|Hact]; [done|]. rewrite Hact. paths.
    all: segment. all: intros Ho; try discriminate Ho; reflexivity.
Qed.

Lemma forUsers_opens env message gs users : ∀ w,
  User_ID (From message) = Creator gs ∨ IsActive gs = true →
  ∃ o w1 seg,
    forUsers (moderateNewUser message gs) users env w = (o, w1)
    ∧ trace w1 = trace w ++ seg
    ∧ (o = Val tt →
       omap opened seg.*1 = User_ID <$> filter (notSelf env) users).
Proof.
  induction users as [|user rest IH]; intros w Hgs.
  { exists (Val tt), w, []. by rewrite app_nil_r. }
  cbn [forUsers]. unfold mbind at 1, M_bind at 1, bind at 1.
  destruct (moderateNewUser_opens env w message gs user Hgs)
    as (o & w1 & seg & -> & Htr & Ho).
  destruct o as [[]|].
  - destruct (IH w1 Hgs) as (o' & w2 & seg' & -> & Htr' & Ho').
    exists o', w2, (seg ++ seg'). split; [done|].
    rewrite Htr', Htr, app_assoc. split; [done|]. intros Hv.
    rewrite fmap_app, omap_app, (Ho eq_refl), (Ho' Hv), filter_cons.
    unfold notSelf at 2. destruct (decide (User_ID user = User_ID (Self env))) as [Hs|Hs].
    + by rewrite decide_False by (by intros H; apply H).
    + by rewrite decide_True.
  - exists Exit, w1, seg. split; [done|]. split; [done|]. intros H. discriminate H.
Qed.

Lemma settingsCall_opens_nothing (pre : list entry) :
  Forall settingsCall pre → omap opened pre.*1 = [].
Proof.
  induction 1 as [|[e s] pre He _ IH]; [done|]. cbn.
  unfold settingsCall in He. cbn in He.
  destruct e as [c r| | | | | |]; try done. by destruct c.
Qed.

(** X21: the second loop of the new-member flow leaves no joined account
    out.  When the sender is the creator or the settings say active, and the
    flow returns, the accounts it opened (by the whitelist add of the creator
    path or the whitelist check of the moderation path) are the joined
    accounts other than the moderator itself, each once and in the order of
    the event; a denial or a failed removal of one account does not stop the
    processing of the accounts after it. *)
Theorem every_joined_account_is_processed_in_order env st message users gs w0 :
  let r := run (processNewUsers message users) env st in
  loadSettings message users env (mkWorld st []) = (Val (Some (Some gs)), w0) →
  User_ID (From message) = Creator gs ∨ IsActive gs = true →
  r.1 = Val tt →
  omap opened (events r.2) = User_ID <$> filter (notSelf env) users.
Proof.
  intros r Hload Hgs. subst r.
  destruct (loadSettings_keeps env message users (mkWorld st []))
    as (o & w1 & pre & Hm & Htr & Hpre & _).
  rewrite Hload in Hm. injection Hm as <- <-. cbn in Htr.
  destruct (forUsers_opens env message gs users w0 Hgs) as (o & w2 & seg & Hf & Htr2 & Ho).
  unfold run, processNewUsers, mbind, M_bind, bind, events. rewrite Hload, Hf. cbn.
  intros ->. rewrite Htr2, Htr, fmap_app, omap_app, (Ho eq_refl).
  rewrite settingsCall_opens_nothing; [done|].
  eapply Forall_impl; [exact Hpre|]. by intros x [? _].
Qed.

Lemma every_joined_account_witness :
  omap opened (events (run (processNewUsers (messageOf creator) [bot999; hudor; bot998])
                         allowing (provisioned true 0 ∅)).2)
  = User_ID <$> filter (notSelf allowing) [bot999; hudor; bot998].
Proof.
  apply (every_joined_account_is_processed_in_order allowing (provisioned true 0 ∅)
           (messageOf creator) [bot999; hudor; bot998] (settings false)
           (loadSettings (messageOf creator) [bot999; hudor; bot998] allowing
              (mkWorld (provisioned true 0 ∅) [])).2).
  - vm_compute. reflexivity.
  - left. reflexivity.
  - vm_compute. reflexivity.
Defined.

(** ** Further properties: messages that are let through *)

(** X22: the unauthorized-message flow lets a message through without any
    gateway call in two cases.  When isGroupActive reports the chat
    inactive, the flow returns right after that read.  When it reports the
    chat active and the sender is on the whitelist, the membership check is
    the only further call.  In both cases nobody is removed, nothing is
    deleted and the store is as the read left it. *)
Theorem bot_message_is_let_through env st message w1 :
  let chatID := Chat_ID (MsgChat message) in
  let fromID := User_ID (From message) in
  let check := Redis (SIsMember (whiteListKey chatID) fromID) (BoolReply true) in
  (isGroupActive chatID env (mkWorld st []) = (Val (false, None), w1) →
   run (processBotMessage message) env st = (Val tt, w1))
  ∧ (isGroupActive chatID env (mkWorld st []) = (Val (true, None), w1) →
     redisDown env (position w1) = None →
     fromID ∈ members (whiteLists (store w1)) chatID →
     run (processBotMessage message) env st
     = (Val tt, mkWorld (store w1) (trace w1 ++ [(check, store w1)]))).
Proof.
  intros chatID fromID check. split.
  - intros Hact. unfold run, processBotMessage.
    unfold mbind at 1, M_bind at 1, bind at 1. fold chatID. by rewrite Hact.
  - intros Hact Hup Hin. unfold run, processBotMessage.
    unfold mbind at 1, M_bind at 1, bind at 1. fold chatID. rewrite Hact. cbn -[position].
    munfold. unfold record, boolResult, replyErr. rewrite Hup. cbn -[position].
    fold chatID fromID. by rewrite bool_decide_eq_true_2.
Qed.

Lemma bot_message_witness :
  run (processBotMessage (messageOf bot999)) allowing (provisioned false 0 ∅)
  = (Val tt, mkWorld (provisioned false 0 ∅)
               [(Redis (HGet (groupKey 7) "isActive") (StringReply "0"),
                 provisioned false 0 ∅)])
  ∧ events (run (processBotMessage (messageOf bot999)) allowing
              (provisioned true 0 {[999]})).2
    = [Redis (HGet (groupKey 7) "isActive") (StringReply "1");
       Redis (SIsMember (whiteListKey 7) 999) (BoolReply true)].
Proof.
  split.
  - apply (bot_message_is_let_through allowing (provisioned false 0 ∅) (messageOf bot999)).
    vm_compute. reflexivity.
  - destruct (bot_message_is_let_through allowing (provisioned true 0 {[999]})
                (messageOf bot999)
                (isGroupActive 7 allowing (mkWorld (provisioned true 0 {[999]}) [])).2)
      as [_ H].
    rewrite H.
    + reflexivity.
    + vm_compute. reflexivity.
    + reflexivity.
    + apply (bool_decide_unpack _). vm_compute. exact I.
Defined.

(** ** Further properties: best-effort calls *)

Lemma alike_length w w' : alike w w' → length (trace w') = length (trace w).
Proof.
  intros [_ H]. apply (f_equal length) in H. by rewrite !length_fmap in H.
Qed.

Lemma unmoved_bind {A B} (m : M A) (k : A → M B) env :
  unmoved m env → (∀ a, unmoved (k a) env) → unmoved (m ≫= k) env.
Proof.
  intros Hm Hk w w' Hw. unfold mbind, M_bind, bind.
  destruct (Hm w w' Hw) as [Ho Hal].
  destruct (m env w) as [o w1], (m (obliging env) w') as [o' w1']. cbn in Ho, Hal.
  subst o'. destruct o as [a|]; [by apply Hk | done].
Qed.

Lemma unmoved_ret {A} (a : A) env : unmoved (mret a) env.
Proof. by intros w w' Hw. Qed.

Ltac positions Hlen :=
  unfold position; cbn [trace]; rewrite ?length_app; cbn [length]; rewrite ?Hlen.

Ltac both Hlen := repeat (cbn -[Nat.add]; positions Hlen; try path_step).

Ltac start_both :=
  let Hs := fresh "Hs" in let Ht := fresh "Ht" in
  intros [s t] [s' t'] [Hs Ht]; cbn in Hs, Ht; subst s';
  assert (Hlen : length t' = length t)
    by (apply (alike_length (mkWorld s t) (mkWorld s t')); by split).

Ltac end_both :=
  split; [reflexivity|]; split; [reflexivity|];
  cbn [trace]; rewrite ?fmap_app;
  match goal with H : request <$> _ = request <$> _ |- _ => rewrite H end;
  reflexivity.

Lemma moderateNewUser_unmoved env message gs user :
  unmoved (moderateNewUser message gs user) env.
Proof.
  start_both. munfold. unfold record, intResult, boolResult, replyErr, obliging.
  both Hlen.
  all: end_both.
Qed.

Lemma initGroup_unmoved env message : unmoved (initGroup message) env.
Proof.
  start_both. unfold initGroup. munfold. unfold record, obliging.
  both Hlen.
  all: end_both.
Qed.

Lemma findGroupByID_unmoved env chatID : unmoved (findGroupByID chatID) env.
Proof.
  start_both. munfold. unfold record, obliging.
  both Hlen.
  all: end_both.
Qed.

Lemma forUsers_unmoved env body users :
  (∀ u, unmoved (body u) env) → unmoved (forUsers body users) env.
Proof.
  intros Hbody. induction users as [|u rest IH]; cbn [forUsers].
  - apply unmoved_ret.
  - apply unmoved_bind; [apply Hbody|]. by intros [].
Qed.

Lemma initLoop_unmoved env message users : ∀ gs,
  unmoved (initLoop message users gs) env.
Proof.
  induction users as [|user rest IH]; intros gs; cbn [initLoop].
  { apply unmoved_ret. }
  apply unmoved_bind; [by intros w w' Hw|].
  intros self. destruct (decide _); [|apply IH].
  apply unmoved_bind; [apply initGroup_unmoved|].
  intros [settings|]; [apply IH | apply unmoved_ret].
Qed.

Lemma processNewUsers_unmoved env message users :
  unmoved (processNewUsers message users) env.
Proof.
  unfold processNewUsers, loadSettings.
  apply unmoved_bind.
  - apply unmoved_bind; [apply findGroupByID_unmoved|].
    intros [gs [e|]]; [by intros w w' Hw | apply initLoop_unmoved].
  - intros [[gs|]|]; try apply unmoved_ret.
    apply forUsers_unmoved. intros u. apply moderateNewUser_unmoved.
Qed.

Lemma processBotMessage_unmoved env message : unmoved (processBotMessage message) env.
Proof.
  start_both. unfold processBotMessage.
  munfold. unfold record, intResult, boolResult, replyErr, obliging.
  both Hlen.
  all: end_both.
Qed.

Lemma processLeftUser_unmoved env message leftChatMember :
  unmoved (processLeftUser message leftChatMember) env.
Proof.
  start_both. unfold processLeftUser.
  munfold. unfold record, intResult, boolResult, stringResult, replyErr, obliging.
  both Hlen.
  all: end_both.
Qed.

Lemma unmoved_run {A} (m : M A) env st : unmoved m env → bestEffort m env st.
Proof. intros H. destruct (H (mkWorld st []) (mkWorld st [])) as [Ho [Hs Ht]]; done. Qed.

(** X23: what the gateway answers to a notice, to leaving the chat and to
    the deletion of a message has no influence on any of the three flows.
    With every such call answered by success instead, a flow has the same
    outcome, makes the same calls in the same order with the same answers
    of the store and to removals, observes the same stores and ends in the
    same store: the errors of these calls are only logged. *)
Theorem notices_and_deletions_are_best_effort env st message users leftChatMember :
  bestEffort (processNewUsers message users) env st
  ∧ bestEffort (processLeftUser message leftChatMember) env st
  ∧ bestEffort (processBotMessage message) env st.
Proof.
  split; [|split]; apply unmoved_run.
  - apply processNewUsers_unmoved.
  - apply processLeftUser_unmoved.
  - apply processBotMessage_unmoved.
Qed.
